(** * Clove agent kernel: a shallow embedding of the kernel core

    The development follows the C++ sources of the kernel:
    - [kernel/state_store.{hpp,cpp}]      scoped key-value store with TTL,
    - [kernel/virtual_fs.{hpp,cpp}]       in-memory filesystem of a world,
    - [worlds/world_engine.cpp]           worlds, membership, snapshots,
    - [kernel/event_bus.{hpp,cpp}] and [kernel/syscalls/events.cpp],
    - [kernel/syscalls/state.cpp] and [kernel/syscalls/fs.cpp], the handlers
      of the state requests and of the file requests served inside a world,
    - [runtime/agent/manager.{hpp,cpp}]   the restart supervisor.

    Conventions.  [std::unordered_map] and [std::map] are finite maps
    ([gmap]), [std::set] is [gset], [std::vector] and [std::queue] are lists.
    [uint32_t] and [uint64_t] values are [N] (or [Z]) with the wrap-around
    written where the code increments them.  A [steady_clock::time_point] is
    its tick count in nanoseconds, a [Z]; every operation that reads the
    clock takes the current time as an argument.  A [double] that the code
    computes with is an IEEE-754 binary64 value, the Standard Library's
    [spec_float] with its correctly rounded operations.  A C++ exception is
    the [None] of an [option].  Locks are not modelled: every operation runs
    under the lock of its store, so operations are atomic state transformers. *)

From Stdlib Require Import ZArith NArith QArith Qround Qminmax Qpower Ascii String List Lia.
From Stdlib Require SpecFloat.
From stdpp Require Import base decidable option list gmap fin_maps fin_sets strings pretty sorting.

Set Warnings "-register-all,-clear-no-such-hyp".
#[local] Open Scope string_scope.
#[local] Open Scope Z_scope.

(** ** JSON values ([nlohmann::json]) *)

Module Json.

(** Objects are key-ordered maps with unique keys ([std::map]); arrays are
    vectors.  Integer and unsigned numbers are [JInt]; a [double] is carried
    as a rational. *)
Inductive json : Type :=
  | JNull
  | JBool (b : bool)
  | JInt (z : Z)
  | JFloat (q : Q)
  | JStr (s : string)
  | JArr (l : list json)
  | JObj (m : gmap string json).

Definition is_object (j : json) : bool :=
  match j with JObj _ => true | _ => false end.

Definition is_array (j : json) : bool :=
  match j with JArr _ => true | _ => false end.

Definition is_number (j : json) : bool :=
  match j with JInt _ | JFloat _ => true | _ => false end.

(** [j.contains(key)]: false on anything that is not an object. *)
Definition contains (j : json) (key : string) : bool :=
  match j with
  | JObj m => bool_decide (is_Some (m !! key))
  | _ => false
  end.

(** [j[key]] on a const object after a successful [contains]. *)
Definition at_key (j : json) (key : string) : json :=
  match j with
  | JObj m => default JNull (m !! key)
  | _ => JNull
  end.

(** [j.get<std::string>()], [type_error] unless a string. *)
Definition get_string (j : json) : option string :=
  match j with JStr s => Some s | _ => None end.

Definition get_bool (j : json) : option bool :=
  match j with JBool b => Some b | _ => None end.

(** Conversions to [int] and to [uint32_t] keep the low 32 bits. *)
Definition to_int32 (z : Z) : Z := (z + 2147483648) mod 4294967296 - 2147483648.
Definition to_uint32 (z : Z) : Z := z mod 4294967296.

(** [j.get<int>()]: defined on numbers (a float is truncated) and on
    booleans, which the library converts to 0 and 1. *)
Definition get_int (j : json) : option Z :=
  match j with
  | JInt z => Some (to_int32 z)
  | JFloat q => Some (to_int32 (Qnum q ÷ Zpos (Qden q)))
  | JBool b => Some (if b then 1 else 0)
  | _ => None
  end.

(** [j.get<uint32_t>()], on numbers and booleans alike. *)
Definition get_uint32 (j : json) : option Z :=
  match j with
  | JInt z => Some (to_uint32 z)
  | JFloat q => Some (to_uint32 (Qnum q ÷ Zpos (Qden q)))
  | JBool b => Some (if b then 1 else 0)
  | _ => None
  end.

(** [j.get<double>()]: on numbers only ([double] is the library's own float
    type, whose conversion does not accept booleans). *)
Definition get_double (j : json) : option Q :=
  match j with
  | JInt z => Some (inject_Z z)
  | JFloat q => Some q
  | _ => None
  end.

(** [j.value(key, dflt)]: [type_error] when [j] is not an object; the
    default when the key is absent; otherwise the converted member. *)
Definition value_with {A} (conv : json → option A) (j : json) (key : string) (dflt : A) : option A :=
  match j with
  | JObj m =>
      match m !! key with
      | Some v => conv v
      | None => Some dflt
      end
  | _ => None
  end.

Definition value_string := value_with get_string.
Definition value_bool := value_with get_bool.
Definition value_int := value_with get_int.
Definition value_double := value_with get_double.
Definition value_json := value_with (λ v : json, Some v).

(** Non-const [j[key] = v]: a null becomes an object first; any other
    non-object throws. *)
Definition set_key (j : json) (key : string) (v : json) : option json :=
  match j with
  | JNull => Some (JObj {[ key := v ]})
  | JObj m => Some (JObj (<[ key := v ]> m))
  | _ => None
  end.

(** Entries ordered by key, the iteration order of an object. *)
Definition key_le (e1 e2 : string * json) : Prop := String.le e1.1 e2.1.

#[global] Instance key_le_dec : RelDecision key_le.
Proof. intros e1 e2. unfold key_le. apply _. Defined.

Definition entries_of (m : gmap string json) : list (string * json) :=
  merge_sort key_le (map_to_list m).

(** [j.items()]: the entries of an object by ascending key; the elements of
    an array under their decimal index; nothing for null; a primitive value
    under the empty key. *)
Definition items (j : json) : list (string * json) :=
  match j with
  | JObj m => entries_of m
  | JArr l => imap (λ i v, (pretty i, v)) l
  | JNull => []
  | _ => [("", j)]
  end.

(** The elements of an array, as a range-for over it yields them. *)
Definition elements_of (j : json) : list json :=
  match j with
  | JArr l => l
  | _ => []
  end.

(** A [std::vector<std::string>] assigned to a json. *)
Definition of_strings (l : list string) : json := JArr (JStr <$> l).

(** The loop [for (p : arr) out.push_back(p.get<std::string>())]. *)
Definition get_strings (arr : json) : option (list string) :=
  mapM get_string (elements_of arr).

End Json.
Export Json.

(** ** State store ([kernel/state_store.hpp], [kernel/state_store.cpp]) *)

Module StateStore.

(** [steady_clock::time_point{}]: the clock's epoch, which [is_expired]
    reads as "no expiry". *)
Definition epoch : Z := 0.

(** [std::chrono::seconds(n)] converted to the clock's nanosecond ticks. *)
Definition seconds (n : Z) : Z := n * 1000000000.

Record StoredValue := mkStoredValue {
  value : json;
  expires_at : Z;
  owner_agent_id : N;
  scope : string   (* "global", "agent", "session" *)
}.

Definition is_expired (now : Z) (v : StoredValue) : bool :=
  if decide (expires_at v = epoch) then false
  else bool_decide (now > expires_at v).

Record StoreResult := mkStoreResult {
  sr_success : bool;
  sr_key : string;
  sr_scope : string
}.

Record FetchResult := mkFetchResult {
  fr_success : bool;
  fr_exists : bool;
  fr_value : json;
  fr_scope : string
}.

Record DeleteResult := mkDeleteResult {
  dr_success : bool;
  dr_deleted : bool
}.

(** "agent:" + std::to_string(agent_id) + ":" + key *)
Definition make_agent_key (agent_id : N) (key : string) : string :=
  "agent:" +:+ pretty agent_id +:+ ":" +:+ key.

Definition can_access_key (agent_id : N) (v : StoredValue) : bool :=
  if decide (scope v = "global") then true
  else if decide (scope v = "agent" ∧ owner_agent_id v = agent_id) then true
  else if decide (scope v = "session") then true
  else false.

(** The scope an entry ends up with: empty and unknown scopes are "global". *)
Definition entry_scope (scope : string) : string :=
  let s := if decide (scope = "") then "global" else scope in
  if decide (s ≠ "global" ∧ s ≠ "agent" ∧ s ≠ "session") then "global" else s.

(** [StateStore::store], run at time [now]. *)
Definition store (now : Z) (agent_id : N) (key : string) (val : json)
    (scope : string) (ttl_secs : option Z)
    (store_ : gmap string StoredValue) : StoreResult * gmap string StoredValue :=
  if decide (key = "") then (mkStoreResult false "" "", store_)
  else
    let expires :=
      match ttl_secs with
      | Some ttl => now + seconds ttl
      | None => epoch
      end in
    let sc := entry_scope scope in
    let entry := mkStoredValue val expires agent_id sc in
    let store_key := if decide (sc = "agent") then make_agent_key agent_id key else key in
    (mkStoreResult true key sc, <[ store_key := entry ]> store_).

(** The physical key [store] writes for a request with scope [sc]. *)
Definition store_key_of (agent_id : N) (key : string) (sc : string) : string :=
  if decide (entry_scope sc = "agent") then make_agent_key agent_id key else key.

(** The loop of [fetch] over [keys_to_try]. *)
Fixpoint fetch_loop (now : Z) (agent_id : N) (keys_to_try : list string)
    (store_ : gmap string StoredValue) : FetchResult * gmap string StoredValue :=
  match keys_to_try with
  | [] => (mkFetchResult true false JNull "", store_)
  | try_key :: rest =>
      match store_ !! try_key with
      | None => fetch_loop now agent_id rest store_
      | Some v =>
          if is_expired now v then fetch_loop now agent_id rest (delete try_key store_)
          else if negb (can_access_key agent_id v) then fetch_loop now agent_id rest store_
          else (mkFetchResult true true (value v) (scope v), store_)
      end
  end.

Definition fetch (now : Z) (agent_id : N) (key : string)
    (store_ : gmap string StoredValue) : FetchResult * gmap string StoredValue :=
  if decide (key = "") then (mkFetchResult false false JNull "", store_)
  else fetch_loop now agent_id [key; make_agent_key agent_id key] store_.

Fixpoint erase_loop (agent_id : N) (keys_to_try : list string)
    (store_ : gmap string StoredValue) : DeleteResult * gmap string StoredValue :=
  match keys_to_try with
  | [] => (mkDeleteResult true false, store_)
  | try_key :: rest =>
      match store_ !! try_key with
      | None => erase_loop agent_id rest store_
      | Some v =>
          if decide (owner_agent_id v = agent_id ∨ scope v = "global")
          then (mkDeleteResult true true, delete try_key store_)
          else erase_loop agent_id rest store_
      end
  end.

Definition erase (agent_id : N) (key : string)
    (store_ : gmap string StoredValue) : DeleteResult * gmap string StoredValue :=
  if decide (key = "") then (mkDeleteResult false false, store_)
  else erase_loop agent_id [key; make_agent_key agent_id key] store_.

(** [key.find(prefix) == 0] *)
Definition starts_with (prefix key : string) : bool :=
  bool_decide (String.index 0 prefix key = Some 0%nat).

(** [key.substr(pos)] *)
Definition substr_from (pos : nat) (key : string) : string :=
  String.substring pos (String.length key - pos) key.

(** The name [keys] pushes for a physical key that passed the filter. *)
Definition reported_name (key : string) : string :=
  if starts_with "agent:" key then
    match String.index 6 ":" key with
    | Some second_colon => substr_from (second_colon + 1) key
    | None => key
    end
  else key.

(** One iteration of the loop of [keys] on the entry [(key, v)]. *)
Definition keys_step (now : Z) (agent_id : N) (prefix : string)
    (entry : string * StoredValue)
    (acc : list string * gmap string StoredValue) : list string * gmap string StoredValue :=
  let '(key, v) := entry in
  let '(keys, store_) := acc in
  if is_expired now v then (keys, delete key store_)
  else if negb (can_access_key agent_id v) then (keys, store_)
  else if bool_decide (prefix = "") || starts_with prefix key
       then ((keys ++ [reported_name key])%list, store_)
       else (keys, store_).

(** [StateStore::keys]: one pass over the table in its iteration order. *)
Definition keys (now : Z) (agent_id : N) (prefix : string)
    (store_ : gmap string StoredValue) : list string * gmap string StoredValue :=
  foldl (λ acc entry, keys_step now agent_id prefix entry acc) ([], store_) (map_to_list store_).

(** What one iteration of [keys] reports for an entry, if anything. *)
Definition keys_report (now : Z) (agent_id : N) (prefix : string)
    (entry : string * StoredValue) : option string :=
  if is_expired now entry.2 then None
  else if negb (can_access_key agent_id entry.2) then None
  else if bool_decide (prefix = "") || starts_with prefix entry.1
       then Some (reported_name entry.1)
       else None.

(** The user-visible name of an entry: for an agent-scoped entry, its key
    without the internal "agent:<id>:" prefix. *)
Definition visible_name (key : string) (v : StoredValue) : string :=
  if decide (scope v = "agent")
  then substr_from (String.length (make_agent_key (owner_agent_id v) "")) key
  else key.

End StateStore.

(** ** Virtual filesystem ([kernel/virtual_fs.hpp], [kernel/virtual_fs.cpp]) *)

Module VirtualFs.

(** *** Glob patterns *)

(** [matches_pattern] turns the glob into a regular expression and matches
    the whole path against it, ignoring case.  The expression is a sequence
    of four kinds of atoms: ".*" for "**", "[^/]*" for "*", "[^/]" for "?",
    and one character for anything else (escaped when it is special). *)
Inductive RegexAtom :=
  | AnyStar
  | NonSlashStar
  | NonSlash
  | Lit (c : ascii).

Fixpoint glob_to_regex (pattern : string) : list RegexAtom :=
  match pattern with
  | EmptyString => []
  | String "*" (String "*" rest) => AnyStar :: glob_to_regex rest
  | String "*" rest => NonSlashStar :: glob_to_regex rest
  | String "?" rest => NonSlash :: glob_to_regex rest
  | String c rest => Lit c :: glob_to_regex rest
  end.

(** ASCII lower case, the case folding of [std::regex::icase]. *)
Definition to_lower (c : ascii) : ascii :=
  let n := nat_of_ascii c in
  if ((65 <=? n) && (n <=? 90))%nat then ascii_of_nat (n + 32) else c.

Definition eq_nocase (c d : ascii) : bool :=
  bool_decide (to_lower c = to_lower d).

(** "." matches every character but a line terminator. *)
Definition is_any_char (c : ascii) : bool :=
  negb (bool_decide (c = "010"%char)) && negb (bool_decide (c = "013"%char)).

Definition is_non_slash (c : ascii) : bool :=
  negb (bool_decide (c = "/"%char)).

(** [x*] followed by the rest [k] of the expression. *)
Fixpoint star_match (ok : ascii → bool) (k : string → bool) (s : string) : bool :=
  k s ||
  match s with
  | EmptyString => false
  | String c s' => ok c && star_match ok k s'
  end.

(** [std::regex_match]: the whole of [s] matches the atoms. *)
Fixpoint regex_match (re : list RegexAtom) (s : string) : bool :=
  match re with
  | [] => bool_decide (s = "")
  | AnyStar :: re' => star_match is_any_char (regex_match re') s
  | NonSlashStar :: re' => star_match is_non_slash (regex_match re') s
  | NonSlash :: re' =>
      match s with
      | EmptyString => false
      | String c s' => is_non_slash c && regex_match re' s'
      end
  | Lit x :: re' =>
      match s with
      | EmptyString => false
      | String c s' => eq_nocase x c && regex_match re' s'
      end
  end.

Definition matches_pattern (path pattern : string) : bool :=
  regex_match (glob_to_regex pattern) path.

Definition matches_any (path : string) (patterns : list string) : bool :=
  existsb (matches_pattern path) patterns.

(** *** Paths *)

(** The segments of [path] between slashes, [cur] being the segment read so
    far.  ([std::getline] drops a final empty segment; the loop of
    [normalize_path] skips empty segments anyway.) *)
Fixpoint split_slash (path : string) (cur : string) : list string :=
  match path with
  | EmptyString => [cur]
  | String c rest =>
      if decide (c = "/"%char) then cur :: split_slash rest ""
      else split_slash rest (cur +:+ String c "")
  end.

(** One segment against the stack of [parts]. *)
Definition push_part (parts : list string) (part : string) : list string :=
  if decide (part = "" ∨ part = ".") then parts
  else if decide (part = "..") then removelast parts
  else (parts ++ [part])%list.

(** "/" followed by the parts, separated by "/". *)
Fixpoint join_parts (parts : list string) : string :=
  match parts with
  | [] => ""
  | [part] => part
  | part :: rest => part +:+ "/" +:+ join_parts rest
  end.

Definition normalize_path (path : string) : string :=
  if decide (path = "") then "/"
  else "/" +:+ join_parts (foldl push_part [] (split_slash path "")).

(** *** Files *)

Record VirtualFile := mkVirtualFile {
  content : string;
  mode : string;   (* "r" = readonly, "rw" = read-write *)
  created_at : Z;
  modified_at : Z
}.

(** [uint64_t] counters. *)
Definition add64 (x y : N) : N := ((x + y) mod 18446744073709551616)%N.

Record VirtualFilesystem := mkVirtualFilesystem {
  files_ : gmap string VirtualFile;
  readonly_patterns_ : list string;
  writable_patterns_ : list string;
  intercept_patterns_ : list string;
  read_count_ : N;
  write_count_ : N;
  bytes_read_ : N;
  bytes_written_ : N
}.

(** A default-constructed filesystem. *)
Definition empty_vfs : VirtualFilesystem := mkVirtualFilesystem ∅ [] [] [] 0 0 0 0.

Definition size_of (s : string) : N := N.of_nat (String.length s).

Definition is_enabled (vfs : VirtualFilesystem) : bool :=
  negb (bool_decide (files_ vfs = ∅))
  || negb (bool_decide (readonly_patterns_ vfs = []))
  || negb (bool_decide (writable_patterns_ vfs = []))
  || negb (bool_decide (intercept_patterns_ vfs = [])).

Definition exists_ (path : string) (vfs : VirtualFilesystem) : bool :=
  bool_decide (is_Some (files_ vfs !! normalize_path path)).

(** [read]: the content, and the filesystem with its counters updated. *)
Definition read (path : string) (vfs : VirtualFilesystem)
    : option string * VirtualFilesystem :=
  match files_ vfs !! normalize_path path with
  | None => (None, vfs)
  | Some file =>
      (Some (content file),
       mkVirtualFilesystem (files_ vfs) (readonly_patterns_ vfs) (writable_patterns_ vfs)
         (intercept_patterns_ vfs)
         (add64 (read_count_ vfs) 1) (write_count_ vfs)
         (add64 (bytes_read_ vfs) (size_of (content file))) (bytes_written_ vfs))
  end.

(** [write], run at time [now]. *)
Definition write (now : Z) (path content : string) (append : bool)
    (vfs : VirtualFilesystem) : bool * VirtualFilesystem :=
  let normalized := normalize_path path in
  let it := files_ vfs !! normalized in
  let read_only :=
    match it with
    | Some file => bool_decide (mode file = "r")
    | None => false
    end in
  if read_only then (false, vfs)
  else if negb (matches_any normalized (writable_patterns_ vfs))
          && bool_decide (it = None)
          && negb (bool_decide (writable_patterns_ vfs = []))
       then (false, vfs)
  else
    let files :=
      match it with
      | None => <[ normalized := mkVirtualFile content "rw" now now ]> (files_ vfs)
      | Some file =>
          let new_content := if append then VirtualFs.content file +:+ content else content in
          <[ normalized := mkVirtualFile new_content (mode file) (created_at file) now ]>
            (files_ vfs)
      end in
    (true,
     mkVirtualFilesystem files (readonly_patterns_ vfs) (writable_patterns_ vfs)
       (intercept_patterns_ vfs)
       (read_count_ vfs) (add64 (write_count_ vfs) 1)
       (bytes_read_ vfs) (add64 (bytes_written_ vfs) (size_of content))).

(** When [write] refuses: the target exists with mode "r", or it does not
    exist while there are writable patterns and its path matches none. *)
Definition write_denied (path : string) (vfs : VirtualFilesystem) : Prop :=
  let normalized := normalize_path path in
  (∃ file, files_ vfs !! normalized = Some file ∧ mode file = "r")
  ∨ (files_ vfs !! normalized = None
     ∧ writable_patterns_ vfs ≠ []
     ∧ matches_any normalized (writable_patterns_ vfs) = false).

(** The condition the specification states: the target exists with mode
    "r", or there are writable patterns and the path matches none. *)
Definition spec_write_denied (path : string) (vfs : VirtualFilesystem) : Prop :=
  let normalized := normalize_path path in
  (∃ file, files_ vfs !! normalized = Some file ∧ mode file = "r")
  ∨ (writable_patterns_ vfs ≠ []
     ∧ matches_any normalized (writable_patterns_ vfs) = false).

(** The file a successful [write] leaves under the normalized path. *)
Definition written_file (now : Z) (content : string) (append : bool)
    (old : option VirtualFile) : VirtualFile :=
  match old with
  | None => mkVirtualFile content "rw" now now
  | Some file =>
      mkVirtualFile (if append then VirtualFs.content file +:+ content else content)
        (mode file) (created_at file) now
  end.

Definition remove (path : string) (vfs : VirtualFilesystem) : bool * VirtualFilesystem :=
  let normalized := normalize_path path in
  match files_ vfs !! normalized with
  | None => (false, vfs)
  | Some file =>
      if decide (mode file = "r") then (false, vfs)
      else
        (true,
         mkVirtualFilesystem (delete normalized (files_ vfs)) (readonly_patterns_ vfs)
           (writable_patterns_ vfs) (intercept_patterns_ vfs)
           (read_count_ vfs) (write_count_ vfs) (bytes_read_ vfs) (bytes_written_ vfs))
  end.

(** [list]: the stored paths that match, sorted ([std::sort] on strings). *)
Definition list_ (pattern : string) (vfs : VirtualFilesystem) : list string :=
  merge_sort String.le
    (List.filter
       (λ path, bool_decide (pattern = "*") || bool_decide (pattern = "/**")
                || matches_pattern path pattern)
       (map_to_list (files_ vfs)).*1).

Definition is_writable (path : string) (vfs : VirtualFilesystem) : bool :=
  let normalized := normalize_path path in
  match files_ vfs !! normalized with
  | Some file => negb (bool_decide (mode file = "r"))
  | None =>
      if bool_decide (writable_patterns_ vfs = []) then true
      else matches_any normalized (writable_patterns_ vfs)
  end.

Definition is_readable (path : string) (vfs : VirtualFilesystem) : bool :=
  let normalized := normalize_path path in
  match files_ vfs !! normalized with
  | Some _ => true
  | None =>
      matches_any normalized (readonly_patterns_ vfs)
      || matches_any normalized (writable_patterns_ vfs)
  end.

Definition should_intercept (path : string) (vfs : VirtualFilesystem) : bool :=
  let normalized := normalize_path path in
  match files_ vfs !! normalized with
  | Some _ => true
  | None => matches_any normalized (intercept_patterns_ vfs)
  end.

(** *** Serialization *)

Definition file_to_json (file : VirtualFile) : json :=
  JObj (<[ "modified_at" := JInt (modified_at file ÷ 1000000) ]>
       (<[ "created_at" := JInt (created_at file ÷ 1000000) ]>
       (<[ "mode" := JStr (mode file) ]>
       (<[ "content" := JStr (content file) ]> ∅)))).

Definition to_json (vfs : VirtualFilesystem) : json :=
  let files_json :=
    foldl (λ acc (entry : string * VirtualFile), <[ entry.1 := file_to_json entry.2 ]> acc)
          ∅ (map_to_list (files_ vfs)) in
  JObj (<[ "intercept_patterns" := of_strings (intercept_patterns_ vfs) ]>
       (<[ "writable_patterns" := of_strings (writable_patterns_ vfs) ]>
       (<[ "readonly_patterns" := of_strings (readonly_patterns_ vfs) ]>
       (<[ "files" := JObj files_json ]> ∅)))).

(** A file of [from_json]: content and mode from the snapshot, time stamps
    from the clock. *)
Definition file_from_json (now : Z) (file_json : json) : option VirtualFile :=
  content ← value_string file_json "content" "";
  mode ← value_string file_json "mode" "rw";
  Some (mkVirtualFile content mode now now).

(** A file as a snapshot restores it at time [now]. *)
Definition restored_file (now : Z) (file : VirtualFile) : VirtualFile :=
  mkVirtualFile (content file) (mode file) now now.

(** The pattern list under [key], empty unless [j] holds an array there. *)
Definition patterns_from_json (j : json) (key : string) : option (list string) :=
  if contains j key && is_array (at_key j key)
  then get_strings (at_key j key)
  else Some [].

(** [from_json], run at time [now] on a filesystem whose counters are kept;
    [None] when a conversion throws. *)
Definition from_json (now : Z) (j : json) (vfs : VirtualFilesystem)
    : option VirtualFilesystem :=
  files ←
    (if contains j "files" && is_object (at_key j "files") then
       entries ← mapM (λ entry : string * json,
                         file ← file_from_json now entry.2; Some (entry.1, file))
                      (items (at_key j "files"));
       Some (foldl (λ acc (entry : string * VirtualFile), <[ entry.1 := entry.2 ]> acc)
                   ∅ entries)
     else Some ∅);
  readonly ← patterns_from_json j "readonly_patterns";
  writable ← patterns_from_json j "writable_patterns";
  intercept ← patterns_from_json j "intercept_patterns";
  Some (mkVirtualFilesystem files readonly writable intercept
          (read_count_ vfs) (write_count_ vfs) (bytes_read_ vfs) (bytes_written_ vfs)).

(** An initial file of [configure]: a string is the content; an object
    gives "content" and "mode". *)
Definition initial_file (now : Z) (file_config : json) : option VirtualFile :=
  match file_config with
  | JStr content => Some (mkVirtualFile content "rw" now now)
  | JObj _ =>
      content ← value_string file_config "content" "";
      mode ← value_string file_config "mode" "rw";
      Some (mkVirtualFile content mode now now)
  | _ => Some (mkVirtualFile "" "rw" now now)
  end.

(** The patterns [configure] appends from the array under [key]. *)
Definition more_patterns (config : json) (key : string) : option (list string) :=
  if contains config key && is_array (at_key config key)
  then get_strings (at_key config key)
  else Some [].

(** [configure], run at time [now]; [None] when a conversion throws. *)
Definition configure (now : Z) (config : json) (vfs : VirtualFilesystem)
    : option VirtualFilesystem :=
  files ←
    (if contains config "initial_files" && is_object (at_key config "initial_files") then
       entries ← mapM (λ entry : string * json,
                         file ← initial_file now entry.2;
                         Some (normalize_path entry.1, file))
                      (items (at_key config "initial_files"));
       Some (foldl (λ acc (entry : string * VirtualFile), <[ entry.1 := entry.2 ]> acc)
                   (files_ vfs) entries)
     else Some (files_ vfs));
  readonly ← more_patterns config "readonly_patterns";
  writable ← more_patterns config "writable_patterns";
  let readonly := (readonly_patterns_ vfs ++ readonly)%list in
  let writable := (writable_patterns_ vfs ++ writable)%list in
  intercept ←
    (if contains config "intercept_patterns" && is_array (at_key config "intercept_patterns")
     then
       more ← get_strings (at_key config "intercept_patterns");
       Some (intercept_patterns_ vfs ++ more)%list
     else if negb (bool_decide (files = ∅)) || negb (bool_decide (readonly = []))
             || negb (bool_decide (writable = []))
     then Some (intercept_patterns_ vfs ++ ["/**"])%list
     else Some (intercept_patterns_ vfs));
  Some (mkVirtualFilesystem files readonly writable intercept
          (read_count_ vfs) (write_count_ vfs) (bytes_read_ vfs) (bytes_written_ vfs)).

(** *** Canonical paths *)

(** Every character of the string passes the test. *)
Fixpoint all_chars (ok : ascii → bool) (s : string) : bool :=
  match s with
  | EmptyString => true
  | String c s' => ok c && all_chars ok s'
  end.

(** A segment of a canonical path: not empty, not "." or "..", without "/". *)
Definition clean_part (part : string) : Prop :=
  part ≠ "" ∧ part ≠ "." ∧ part ≠ ".." ∧ all_chars is_non_slash part = true.

(** *** Reading patterns *)

(** A pattern without wildcards. *)
Fixpoint is_literal (pattern : string) : bool :=
  match pattern with
  | EmptyString => true
  | String c rest =>
      negb (bool_decide (c = "*"%char)) && negb (bool_decide (c = "?"%char)) && is_literal rest
  end.

(** A string with its upper-case letters folded to lower case. *)
Fixpoint lower (s : string) : string :=
  match s with
  | EmptyString => ""
  | String c s' => String (to_lower c) (lower s')
  end.

(** No character of the string is a line terminator. *)
Definition one_line (s : string) : bool := all_chars is_any_char s.

(** *** Runs of file operations *)

Inductive FsOp :=
  | FsRead (path : string)
  | FsWrite (now : Z) (path content : string) (append : bool)
  | FsRemove (path : string).

Definition apply_fs_op (vfs : VirtualFilesystem) (op : FsOp) : VirtualFilesystem :=
  match op with
  | FsRead path => (read path vfs).2
  | FsWrite now path content append => (write now path content append vfs).2
  | FsRemove path => (remove path vfs).2
  end.

End VirtualFs.

(** ** Worlds ([kernel/world_engine.hpp], [worlds/world_engine.cpp]) *)

Module Worlds.
Import VirtualFs.

(** The outcome of an operation that may throw. *)
Inductive outcome (A : Type) :=
  | Returned (a : A)
  | Thrown.
Arguments Returned {A} a.
Arguments Thrown {A}.

(** *** Network mock *)

Record MockResponse := mkMockResponse {
  status_code : Z;
  body : string;
  headers : gmap string string;
  latency_ms : Z
}.

(** The mock is its configuration and its recordings; its request counters
    are kept apart, in [NetworkStats] below. *)
Record NetworkMock := mkNetworkMock {
  mode_ : string;   (* mock, passthrough, record *)
  mocks_ : gmap string MockResponse;
  default_response_ : option MockResponse;
  allowed_domains_ : list string;
  fail_unmatched_ : bool;
  recorded_ : list json
}.

Definition empty_network : NetworkMock := mkNetworkMock "passthrough" ∅ None [] false [].

(** The loop [for ([k, v] : obj.items()) headers[k] = v.get<std::string>()]. *)
Definition headers_from (obj : json) (headers : gmap string string)
    : option (gmap string string) :=
  entries ← mapM (λ entry : string * json, v ← get_string entry.2; Some (entry.1, v))
                 (items obj);
  Some (foldl (λ acc (entry : string * string), <[ entry.1 := entry.2 ]> acc) headers entries).

(** A mock response of [NetworkMock::configure]. *)
Definition configured_response (response_config : json) : option MockResponse :=
  match response_config with
  | JStr body => Some (mkMockResponse 200 body ∅ 0)
  | JObj _ =>
      status ← value_int response_config "status" 200;
      body ← value_string response_config "body" "";
      latency ← value_int response_config "latency_ms" 0;
      headers ←
        (if contains response_config "headers" && is_object (at_key response_config "headers")
         then headers_from (at_key response_config "headers") ∅
         else Some ∅);
      Some (mkMockResponse status body headers (to_uint32 latency))
  | _ => Some (mkMockResponse 200 "" ∅ 0)
  end.

Definition network_configure (config : json) (n : NetworkMock) : option NetworkMock :=
  mode ← value_string config "mode" "passthrough";
  mocks ←
    (if contains config "mock_responses" && is_object (at_key config "mock_responses") then
       entries ← mapM (λ entry : string * json,
                         resp ← configured_response entry.2; Some (entry.1, resp))
                      (items (at_key config "mock_responses"));
       Some (foldl (λ acc (entry : string * MockResponse), <[ entry.1 := entry.2 ]> acc)
                   (mocks_ n) entries)
     else Some (mocks_ n));
  default_response ←
    (if contains config "default_response" && is_object (at_key config "default_response") then
       status ← value_int (at_key config "default_response") "status" 404;
       body ← value_string (at_key config "default_response") "body" "Not Found";
       latency ← value_int (at_key config "default_response") "latency_ms" 0;
       Some (Some (mkMockResponse status body ∅ (to_uint32 latency)))
     else Some (default_response_ n));
  allowed ←
    (if contains config "allowed_domains" && is_array (at_key config "allowed_domains") then
       more ← get_strings (at_key config "allowed_domains");
       Some (allowed_domains_ n ++ more)%list
     else Some (allowed_domains_ n));
  fail_unmatched ← value_bool config "fail_unmatched" false;
  Some (mkNetworkMock mode mocks default_response allowed fail_unmatched (recorded_ n)).

Definition response_to_json (resp : MockResponse) : json :=
  JObj (<[ "headers" := JObj (JStr <$> headers resp) ]>
       (<[ "latency_ms" := JInt (latency_ms resp) ]>
       (<[ "body" := JStr (body resp) ]>
       (<[ "status" := JInt (status_code resp) ]> ∅)))).

Definition network_to_json (n : NetworkMock) : json :=
  let mocks_json :=
    foldl (λ acc (entry : string * MockResponse), <[ entry.1 := response_to_json entry.2 ]> acc)
          ∅ (map_to_list (mocks_ n)) in
  let j := <[ "mock_responses" := JObj mocks_json ]>
           (<[ "fail_unmatched" := JBool (fail_unmatched_ n) ]>
           (<[ "mode" := JStr (mode_ n) ]> ∅)) in
  let j :=
    match default_response_ n with
    | Some resp =>
        <[ "default_response" :=
             JObj (<[ "body" := JStr (body resp) ]>
                  (<[ "status" := JInt (status_code resp) ]> ∅)) ]> j
    | None => j
    end in
  JObj (<[ "recorded" := JArr (recorded_ n) ]>
       (<[ "allowed_domains" := of_strings (allowed_domains_ n) ]> j)).

(** A mock response of [NetworkMock::from_json]. *)
Definition restored_response (resp_json : json) : option MockResponse :=
  status ← value_int resp_json "status" 200;
  body ← value_string resp_json "body" "";
  latency ← value_int resp_json "latency_ms" 0;
  headers ←
    (if contains resp_json "headers" then headers_from (at_key resp_json "headers") ∅
     else Some ∅);
  Some (mkMockResponse status body headers (to_uint32 latency)).

Definition network_from_json (j : json) (n : NetworkMock) : option NetworkMock :=
  mode ← value_string j "mode" "passthrough";
  fail_unmatched ← value_bool j "fail_unmatched" false;
  mocks ←
    (if contains j "mock_responses" && is_object (at_key j "mock_responses") then
       entries ← mapM (λ entry : string * json,
                         resp ← restored_response entry.2; Some (entry.1, resp))
                      (items (at_key j "mock_responses"));
       Some (foldl (λ acc (entry : string * MockResponse), <[ entry.1 := entry.2 ]> acc)
                   ∅ entries)
     else Some ∅);
  allowed ←
    (if contains j "allowed_domains" && is_array (at_key j "allowed_domains")
     then get_strings (at_key j "allowed_domains")
     else Some []);
  let recorded :=
    if contains j "recorded" && is_array (at_key j "recorded")
    then elements_of (at_key j "recorded") else [] in
  Some (mkNetworkMock mode mocks (default_response_ n) allowed fail_unmatched recorded).

(** *** Chaos engine *)

Record ChaosRule := mkChaosRule {
  rule_type : string;
  rule_pattern : string;
  rule_probability : Q
}.

(** The engine is its configuration and its active events; its injection
    counters and the use of its random generator are kept apart, in
    [ChaosStats] below. *)
Record ChaosEngine := mkChaosEngine {
  enabled_ : bool;
  failure_rate_ : Q;
  latency_min_ms_ : Z;
  latency_max_ms_ : Z;
  rules_ : list ChaosRule;
  active_events_ : gset string;
  event_params_ : json
}.

Definition empty_chaos : ChaosEngine := mkChaosEngine false 0 0 0 [] ∅ JNull.

(** The latency bounds under "latency", kept when there is no such object. *)
Definition latency_from (j : json) (c : ChaosEngine) : option (Z * Z) :=
  if contains j "latency" && is_object (at_key j "latency") then
    lo ← value_int (at_key j "latency") "min_ms" 0;
    hi ← value_int (at_key j "latency") "max_ms" 0;
    Some (to_uint32 lo, to_uint32 hi)
  else Some (latency_min_ms_ c, latency_max_ms_ c).

Definition configured_rule (rule_json : json) : option ChaosRule :=
  ty ← value_string rule_json "type" "";
  url_pattern ← value_string rule_json "url_pattern" "*";
  pattern ← value_string rule_json "path_pattern" url_pattern;
  probability ← value_double rule_json "probability" 0;
  Some (mkChaosRule ty pattern probability).

Definition chaos_configure (config : json) (c : ChaosEngine) : option ChaosEngine :=
  enabled ← value_bool config "enabled" false;
  failure_rate ← value_double config "failure_rate" 0;
  latency ← latency_from config c;
  rules ←
    (if contains config "rules" && is_array (at_key config "rules")
     then mapM configured_rule (elements_of (at_key config "rules"))
     else Some []);
  Some (mkChaosEngine enabled failure_rate latency.1 latency.2 rules
          (active_events_ c) (event_params_ c)).

(** [ChaosEngine::inject_event]: the event type is inserted into
    [active_events_] first; then [event_params_[event_type] = params] throws
    when [event_params_] is neither null nor an object, which leaves the
    event active without parameters. *)
Definition chaos_inject_event (event_type : string) (params : json) (c : ChaosEngine)
    : outcome unit * ChaosEngine :=
  let active_events := {[ event_type ]} ∪ active_events_ c in
  match set_key (event_params_ c) event_type params with
  | Some event_params =>
      (Returned tt,
       mkChaosEngine (enabled_ c) (failure_rate_ c) (latency_min_ms_ c) (latency_max_ms_ c)
         (rules_ c) active_events event_params)
  | None =>
      (Thrown,
       mkChaosEngine (enabled_ c) (failure_rate_ c) (latency_min_ms_ c) (latency_max_ms_ c)
         (rules_ c) active_events (event_params_ c))
  end.

Definition rule_to_json (rule : ChaosRule) : json :=
  JObj (<[ "probability" := JFloat (rule_probability rule) ]>
       (<[ "pattern" := JStr (rule_pattern rule) ]>
       (<[ "type" := JStr (rule_type rule) ]> ∅))).

Definition chaos_to_json (c : ChaosEngine) : json :=
  JObj (<[ "event_params" := event_params_ c ]>
       (<[ "active_events" := of_strings (merge_sort String.le (elements (active_events_ c))) ]>
       (<[ "rules" := JArr (rule_to_json <$> rules_ c) ]>
       (<[ "latency" := JObj (<[ "max_ms" := JInt (latency_max_ms_ c) ]>
                            (<[ "min_ms" := JInt (latency_min_ms_ c) ]> ∅)) ]>
       (<[ "failure_rate" := JFloat (failure_rate_ c) ]>
       (<[ "enabled" := JBool (enabled_ c) ]> ∅)))))).

Definition restored_rule (r : json) : option ChaosRule :=
  ty ← value_string r "type" "";
  pattern ← value_string r "pattern" "*";
  probability ← value_double r "probability" 0;
  Some (mkChaosRule ty pattern probability).

Definition chaos_from_json (j : json) (c : ChaosEngine) : option ChaosEngine :=
  enabled ← value_bool j "enabled" false;
  failure_rate ← value_double j "failure_rate" 0;
  latency ← latency_from j c;
  rules ←
    (if contains j "rules" && is_array (at_key j "rules")
     then mapM restored_rule (elements_of (at_key j "rules"))
     else Some []);
  active ←
    (if contains j "active_events" && is_array (at_key j "active_events")
     then get_strings (at_key j "active_events")
     else Some []);
  let event_params :=
    if contains j "event_params" then at_key j "event_params" else event_params_ c in
  Some (mkChaosEngine enabled failure_rate latency.1 latency.2 rules
          (list_to_set active) event_params).

(** *** World *)

(** The counters [get_metrics] reads from the subsystems are not stored. *)
Record WorldMetrics := mkWorldMetrics {
  agent_count_metric : N;
  syscall_count : N;
  created_at_metric : Z;
  last_activity : Z
}.

Record World := mkWorld {
  id_ : string;
  name_ : string;
  description_ : string;
  config_ : json;
  vfs_ : VirtualFilesystem;
  network_ : NetworkMock;
  chaos_ : ChaosEngine;
  agents_ : gset N;
  metrics_ : WorldMetrics
}.

(** [World::World(id)], constructed at time [now]. *)
Definition new_world (now : Z) (id : string) : World :=
  mkWorld id id "" JNull empty_vfs empty_network empty_chaos ∅ (mkWorldMetrics 0 0 now now).

Definition agent_count (w : World) : nat := size (agents_ w).

Definition has_agent (agent_id : N) (w : World) : bool := bool_decide (agent_id ∈ agents_ w).

Definition add_agent (now : Z) (agent_id : N) (w : World) : World :=
  let agents := {[ agent_id ]} ∪ agents_ w in
  mkWorld (id_ w) (name_ w) (description_ w) (config_ w) (vfs_ w) (network_ w) (chaos_ w)
    agents
    (mkWorldMetrics (N.of_nat (size agents)) (syscall_count (metrics_ w))
       (created_at_metric (metrics_ w)) now).

Definition remove_agent (now : Z) (agent_id : N) (w : World) : World :=
  let agents := agents_ w ∖ {[ agent_id ]} in
  mkWorld (id_ w) (name_ w) (description_ w) (config_ w) (vfs_ w) (network_ w) (chaos_ w)
    agents
    (mkWorldMetrics (N.of_nat (size agents)) (syscall_count (metrics_ w))
       (created_at_metric (metrics_ w)) now).

(** [World::configure], run at time [now]; [None] when it throws. *)
Definition world_configure (now : Z) (config : json) (w : World) : option World :=
  name ← value_string config "name" (id_ w);
  description ← value_string config "description" "";
  vfs ←
    (if contains config "virtual_filesystem"
     then configure now (at_key config "virtual_filesystem") (vfs_ w)
     else Some (vfs_ w));
  network ←
    (if contains config "network"
     then network_configure (at_key config "network") (network_ w)
     else Some (network_ w));
  chaos ←
    (if contains config "chaos"
     then chaos_configure (at_key config "chaos") (chaos_ w)
     else Some (chaos_ w));
  Some (mkWorld (id_ w) name description config vfs network chaos (agents_ w) (metrics_ w)).

(** A [std::set<uint32_t>] assigned to a json: its elements in ascending
    order. *)
Definition agents_to_json (agents : gset N) : json :=
  JArr ((λ a, JInt (Z.of_N a)) <$> merge_sort N.le (elements agents)).

Definition world_to_json (w : World) : json :=
  JObj (<[ "agents" := agents_to_json (agents_ w) ]>
       (<[ "chaos" := chaos_to_json (chaos_ w) ]>
       (<[ "network" := network_to_json (network_ w) ]>
       (<[ "vfs" := to_json (vfs_ w) ]>
       (<[ "config" := config_ w ]>
       (<[ "description" := JStr (description_ w) ]>
       (<[ "name" := JStr (name_ w) ]>
       (<[ "id" := JStr (id_ w) ]> ∅)))))))).

(** [World::from_json], run at time [now]; [None] when it throws. *)
Definition world_from_json (now : Z) (j : json) (w : World) : option World :=
  name ← value_string j "name" (id_ w);
  description ← value_string j "description" "";
  let config := if contains j "config" then at_key j "config" else config_ w in
  vfs ← (if contains j "vfs" then from_json now (at_key j "vfs") (vfs_ w) else Some (vfs_ w));
  network ←
    (if contains j "network" then network_from_json (at_key j "network") (network_ w)
     else Some (network_ w));
  chaos ←
    (if contains j "chaos" then chaos_from_json (at_key j "chaos") (chaos_ w)
     else Some (chaos_ w));
  agents ←
    (if contains j "agents" && is_array (at_key j "agents")
     then mapM get_uint32 (elements_of (at_key j "agents"))
     else Some []);
  let agents : gset N := list_to_set (Z.to_N <$> agents) in
  Some (mkWorld (id_ w) name description config vfs network chaos agents
          (mkWorldMetrics (N.of_nat (size agents)) (syscall_count (metrics_ w))
             (created_at_metric (metrics_ w)) (last_activity (metrics_ w)))).

(** *** World engine *)

Record WorldEngine := mkWorldEngine {
  worlds_ : gmap string World;
  agent_to_world_ : gmap N string;
  next_world_num_ : N
}.

(** A default-constructed engine. *)
Definition empty_engine : WorldEngine := mkWorldEngine ∅ ∅ 1.

Definition is_alnum (c : ascii) : bool :=
  let n := nat_of_ascii c in
  ((48 <=? n) && (n <=? 57) || (65 <=? n) && (n <=? 90) || (97 <=? n) && (n <=? 122))%nat.

(** The loop that sanitizes the name. *)
Fixpoint sanitize (name : string) : string :=
  match name with
  | EmptyString => ""
  | String c rest =>
      if is_alnum c || bool_decide (c = "-"%char) || bool_decide (c = "_"%char)
      then String (to_lower c) (sanitize rest)
      else if bool_decide (c = " "%char) then String "-" (sanitize rest)
      else sanitize rest
  end.

Definition safe_name (name : string) : string :=
  let s := sanitize name in
  let s := if decide (s = "") then "world" else s in
  if decide (32 < String.length s)%nat then String.substring 0 32 s else s.

Fixpoint zeros (n : nat) : string :=
  match n with
  | O => ""
  | S n' => String "0" (zeros n')
  end.

(** [std::setfill('0') << std::setw(4) << n] *)
Definition pad4 (n : N) : string :=
  let digits := pretty n in
  zeros (4 - String.length digits) +:+ digits.

(** [generate_world_id]: the id, and the engine with its counter advanced. *)
Definition generate_world_id (name : string) (e : WorldEngine) : string * WorldEngine :=
  (safe_name name +:+ "-" +:+ pad4 (next_world_num_ e),
   mkWorldEngine (worlds_ e) (agent_to_world_ e)
     ((next_world_num_ e + 1) mod 18446744073709551616)%N).

(** [create_world], run at time [now]. *)
Definition create_world (now : Z) (name : string) (config : json) (e : WorldEngine)
    : outcome (option string) * WorldEngine :=
  let '(id, e) := generate_world_id name e in
  match world_configure now config (new_world now id) with
  | None => (Thrown, e)
  | Some world =>
      (Returned (Some id),
       mkWorldEngine (<[ id := world ]> (worlds_ e)) (agent_to_world_ e) (next_world_num_ e))
  end.

Definition destroy_world (world_id : string) (force : bool) (e : WorldEngine)
    : bool * WorldEngine :=
  match worlds_ e !! world_id with
  | None => (false, e)
  | Some world =>
      if negb force && bool_decide (0 < agent_count world)%nat then (false, e)
      else
        (true,
         mkWorldEngine (delete world_id (worlds_ e))
           (foldl (λ acc agent_id, delete agent_id acc) (agent_to_world_ e)
                  (merge_sort N.le (elements (agents_ world))))
           (next_world_num_ e))
  end.

Definition get_world (world_id : string) (e : WorldEngine) : option World :=
  worlds_ e !! world_id.

(** [join_world], run at time [now]. *)
Definition join_world (now : Z) (agent_id : N) (world_id : string) (e : WorldEngine)
    : bool * WorldEngine :=
  match agent_to_world_ e !! agent_id with
  | Some _ => (false, e)
  | None =>
      match worlds_ e !! world_id with
      | None => (false, e)
      | Some world =>
          (true,
           mkWorldEngine (<[ world_id := add_agent now agent_id world ]> (worlds_ e))
             (<[ agent_id := world_id ]> (agent_to_world_ e))
             (next_world_num_ e))
      end
  end.

(** [leave_world], run at time [now]. *)
Definition leave_world (now : Z) (agent_id : N) (e : WorldEngine) : bool * WorldEngine :=
  match agent_to_world_ e !! agent_id with
  | None => (false, e)
  | Some world_id =>
      let agent_to_world := delete agent_id (agent_to_world_ e) in
      let worlds :=
        match worlds_ e !! world_id with
        | Some world => <[ world_id := remove_agent now agent_id world ]> (worlds_ e)
        | None => worlds_ e
        end in
      (true, mkWorldEngine worlds agent_to_world (next_world_num_ e))
  end.

Definition is_agent_in_world (agent_id : N) (e : WorldEngine) : bool :=
  bool_decide (is_Some (agent_to_world_ e !! agent_id)).

Definition get_agent_world (agent_id : N) (e : WorldEngine) : option string :=
  agent_to_world_ e !! agent_id.

(** [WorldEngine::inject_event]; an exception of the chaos engine passes
    through, after the engine has recorded the event as active. *)
Definition inject_event (world_id event_type : string) (params : json) (e : WorldEngine)
    : outcome bool * WorldEngine :=
  match worlds_ e !! world_id with
  | None => (Returned false, e)
  | Some w =>
      let '(result, chaos) := chaos_inject_event event_type params (chaos_ w) in
      (match result with
       | Returned _ => Returned true
       | Thrown => Thrown
       end,
       mkWorldEngine
         (<[ world_id := mkWorld (id_ w) (name_ w) (description_ w) (config_ w) (vfs_ w)
                           (network_ w) chaos (agents_ w) (metrics_ w) ]> (worlds_ e))
         (agent_to_world_ e) (next_world_num_ e))
  end.

(** [snapshot_world], taken at wall-clock time [wall_ms] (milliseconds). *)
Definition snapshot_world (wall_ms : Z) (world_id : string) (e : WorldEngine) : option json :=
  match worlds_ e !! world_id with
  | None => None
  | Some world =>
      match world_to_json world with
      | JObj m => Some (JObj (<[ "snapshot_time" := JInt wall_ms ]> m))
      | j => Some j
      end
  end.

(** [restore_world], run at time [now]. *)
Definition restore_world (now : Z) (snapshot : json) (new_world_id : string)
    (e : WorldEngine) : outcome (option string) * WorldEngine :=
  let chosen :=
    if decide (new_world_id = "") then
      match value_string snapshot "name" "restored" with
      | None => None
      | Some name => Some (generate_world_id name e)
      end
    else Some (new_world_id, e) in
  match chosen with
  | None => (Thrown, e)
  | Some (id, e) =>
      if decide (is_Some (worlds_ e !! id)) then (Returned None, e)
      else
        match world_from_json now snapshot (new_world now id) with
        | None => (Thrown, e)
        | Some world =>
            (Returned (Some id),
             mkWorldEngine (<[ id := world ]> (worlds_ e)) (agent_to_world_ e)
               (next_world_num_ e))
        end
  end.

(** The id [restore_world] gives to the copy of [world]: the requested one,
    or one generated from the name in the snapshot. *)
Definition restore_id (world : World) (new_world_id : string) (e : WorldEngine) : string :=
  if decide (new_world_id = "") then (generate_world_id (name_ world) e).1
  else new_world_id.

(** *** Reading the counter back from a world id *)

Fixpoint has_dash (s : string) : bool :=
  match s with
  | EmptyString => false
  | String c s' => bool_decide (c = "-"%char) || has_dash s'
  end.

(** What follows the last "-" of [s]. *)
Fixpoint after_last_dash (s : string) : string :=
  match s with
  | EmptyString => ""
  | String c s' =>
      if has_dash s' then after_last_dash s'
      else if bool_decide (c = "-"%char) then s' else String c s'
  end.

Definition digit_value (c : ascii) : N := N.of_nat (nat_of_ascii c - 48).

Fixpoint digits_value (acc : N) (s : string) : N :=
  match s with
  | EmptyString => acc
  | String c s' => digits_value (10 * acc + digit_value c) s'
  end.

(** The number a generated world id ends with. *)
Definition id_number (id : string) : N := digits_value 0 (after_last_dash id).

(** *** Runs of the membership operations *)

Inductive WorldOp :=
  | OpCreate (now : Z) (name : string) (config : json)
  | OpDestroy (world_id : string) (force : bool)
  | OpJoin (now : Z) (agent_id : N) (world_id : string)
  | OpLeave (now : Z) (agent_id : N).

Definition apply_op (e : WorldEngine) (op : WorldOp) : WorldEngine :=
  match op with
  | OpCreate now name config => (create_world now name config e).2
  | OpDestroy world_id force => (destroy_world world_id force e).2
  | OpJoin now agent_id world_id => (join_world now agent_id world_id e).2
  | OpLeave now agent_id => (leave_world now agent_id e).2
  end.

Definition run_ops (ops : list WorldOp) (e : WorldEngine) : WorldEngine :=
  foldl apply_op e ops.

(** The membership invariant: the map sends an agent to an existing world
    that has it as a member, and every member of a world is sent to it. *)
Definition membership_consistent (e : WorldEngine) : Prop :=
  (∀ agent_id world_id, agent_to_world_ e !! agent_id = Some world_id →
     ∃ world, worlds_ e !! world_id = Some world ∧ agent_id ∈ agents_ world)
  ∧ (∀ world_id world agent_id, worlds_ e !! world_id = Some world →
       agent_id ∈ agents_ world → agent_to_world_ e !! agent_id = Some world_id).

(** Every id in use was generated before the counter reached its present
    value. *)
Definition ids_below_counter (e : WorldEngine) : Prop :=
  ∀ world_id world, worlds_ e !! world_id = Some world →
    (id_number world_id < next_world_num_ e)%N.

(** The invariant of an engine that has run [k] operations. *)
Definition engine_inv (k : nat) (e : WorldEngine) : Prop :=
  membership_consistent e
  ∧ ids_below_counter e
  ∧ (1 ≤ next_world_num_ e ≤ 1 + N.of_nat k)%N.

(** *** Network mock: looking a response up *)

(** The request counters of the mock, [uint64_t] members it updates while
    answering. *)
Record NetworkStats := mkNetworkStats {
  requests_intercepted_ : N;
  requests_passed_through_ : N;
  requests_failed_ : N
}.

Definition count_intercepted (stats : NetworkStats) : NetworkStats :=
  mkNetworkStats (add64 (requests_intercepted_ stats) 1) (requests_passed_through_ stats)
    (requests_failed_ stats).

Definition count_passed_through (stats : NetworkStats) : NetworkStats :=
  mkNetworkStats (requests_intercepted_ stats) (add64 (requests_passed_through_ stats) 1)
    (requests_failed_ stats).

Definition count_failed (stats : NetworkStats) : NetworkStats :=
  mkNetworkStats (requests_intercepted_ stats) (requests_passed_through_ stats)
    (add64 (requests_failed_ stats) 1).

(** [pattern.find('*') != npos] *)
Fixpoint has_star (pattern : string) : bool :=
  match pattern with
  | EmptyString => false
  | String c rest => bool_decide (c = "*"%char) || has_star rest
  end.

(** The expression [matches_url] builds: ".*" for "*", and the character
    itself (escaped when it is special, "?" included) for anything else. *)
Fixpoint url_to_regex (pattern : string) : list RegexAtom :=
  match pattern with
  | EmptyString => []
  | String c rest =>
      (if decide (c = "*"%char) then AnyStar else Lit c) :: url_to_regex rest
  end.

Definition matches_url (url pattern : string) : bool :=
  if negb (has_star pattern) then bool_decide (url = pattern)
  else regex_match (url_to_regex pattern) url.

Definition extract_domain (url : string) : string :=
  let start :=
    match String.index 0 "://" url with
    | Some pos => (pos + 3)%nat
    | None => 0%nat
    end in
  let end_ :=
    match String.index start "/" url with
    | Some pos => pos
    | None => String.length url
    end in
  let domain := String.substring start (end_ - start) url in
  match String.index 0 ":" domain with
  | Some port_pos => String.substring 0 port_pos domain
  | None => domain
  end.

(** The test for a character other than [c]. *)
Definition is_not (c : ascii) (a : ascii) : bool := negb (bool_decide (a = c)).

(** The response to an unmatched URL when [fail_unmatched_] is set. *)
Definition unmatched_response : MockResponse :=
  mkMockResponse 503 "Network mock: URL not configured and fail_unmatched=true" ∅ 0.

Definition domain_allowed (domain : string) (n : NetworkMock) : bool :=
  existsb (λ allowed, bool_decide (domain = allowed) || matches_url domain allowed)
          (allowed_domains_ n).

(** [get_response]: the mock response, or [None] for a request that passes
    through, and the counters afterwards.  The second loop visits the mocks
    in the table's iteration order. *)
Definition get_response (url method : string) (n : NetworkMock) (stats : NetworkStats)
    : option MockResponse * NetworkStats :=
  if decide (mode_ n = "passthrough") then (None, stats)
  else
    match mocks_ n !! url with
    | Some response => (Some response, count_intercepted stats)
    | None =>
        match List.find (λ entry : string * MockResponse, matches_url url entry.1)
                        (map_to_list (mocks_ n)) with
        | Some entry => (Some entry.2, count_intercepted stats)
        | None =>
            if domain_allowed (extract_domain url) n then (None, count_passed_through stats)
            else if fail_unmatched_ n then (Some unmatched_response, count_failed stats)
            else
              match default_response_ n with
              | Some response => (Some response, count_intercepted stats)
              | None => (None, count_passed_through stats)
              end
        end
    end.

Definition add_mock (url_pattern : string) (response : MockResponse) (n : NetworkMock)
    : NetworkMock :=
  mkNetworkMock (mode_ n) (<[ url_pattern := response ]> (mocks_ n)) (default_response_ n)
    (allowed_domains_ n) (fail_unmatched_ n) (recorded_ n).

(** *** Chaos engine: deciding on a failure *)

(** The injection counters of the engine and the use it has made of its
    random generator: [draws_used_] values have been drawn so far from
    [uniform_real_distribution<double>(0.0, 1.0)]. *)
Record ChaosStats := mkChaosStats {
  failures_injected_ : N;
  latency_injected_ : N;
  draws_used_ : nat
}.

Definition count_failure (stats : ChaosStats) : ChaosStats :=
  mkChaosStats (add64 (failures_injected_ stats) 1) (latency_injected_ stats) (draws_used_ stats).

(** [should_fail]: certain at the ends of the scale, decided by the next
    draw in between; [draws k] is the [k]th value the generator yields. *)
Definition should_fail (probability : Q) (draws : nat → Q) (stats : ChaosStats)
    : bool * ChaosStats :=
  if Qle_bool probability 0 then (false, stats)
  else if Qle_bool 1 probability then (true, stats)
  else
    (negb (Qle_bool probability (draws (draws_used_ stats))),
     mkChaosStats (failures_injected_ stats) (latency_injected_ stats) (S (draws_used_ stats))).

(** The expression [ChaosEngine::matches_pattern] builds: as for the
    filesystem's globs, except that "?" stands for itself. *)
Fixpoint chaos_to_regex (pattern : string) : list RegexAtom :=
  match pattern with
  | EmptyString => []
  | String "*" (String "*" rest) => AnyStar :: chaos_to_regex rest
  | String "*" rest => NonSlashStar :: chaos_to_regex rest
  | String c rest => Lit c :: chaos_to_regex rest
  end.

Definition chaos_matches_pattern (str pattern : string) : bool :=
  if decide (pattern = "*" ∨ pattern = "**") then true
  else regex_match (chaos_to_regex pattern) str.

(** The loop over the rules: the first rule that applies and fires ends it. *)
Fixpoint rules_fire (applies : ChaosRule → bool) (rules : list ChaosRule)
    (draws : nat → Q) (stats : ChaosStats) : bool * ChaosStats :=
  match rules with
  | [] => (false, stats)
  | rule :: rest =>
      if applies rule then
        let '(fired, stats) := should_fail (rule_probability rule) draws stats in
        if fired then (true, stats) else rules_fire applies rest draws stats
      else rules_fire applies rest draws stats
  end.

(** The shape the three checks share: nothing fails while the engine is
    disabled; an active event of one of the kinds [events] fails the
    operation; then the rules that apply are tried in order; then the global
    failure rate. *)
Definition should_fail_operation (events : list string) (applies : ChaosRule → bool)
    (draws : nat → Q) (c : ChaosEngine) (stats : ChaosStats) : bool * ChaosStats :=
  if negb (enabled_ c) then (false, stats)
  else if existsb (λ event, bool_decide (event ∈ active_events_ c)) events
  then (true, count_failure stats)
  else
    let '(fired, stats) := rules_fire applies (rules_ c) draws stats in
    if fired then (true, count_failure stats)
    else
      let '(fired, stats) := should_fail (failure_rate_ c) draws stats in
      if fired then (true, count_failure stats) else (false, stats).

Definition should_fail_read (draws : nat → Q) (path : string) (c : ChaosEngine)
    (stats : ChaosStats) : bool * ChaosStats :=
  should_fail_operation ["disk_fail"]
    (λ rule, bool_decide (rule_type rule = "file_read_fail")
             && chaos_matches_pattern path (rule_pattern rule))
    draws c stats.

Definition should_fail_write (draws : nat → Q) (path : string) (c : ChaosEngine)
    (stats : ChaosStats) : bool * ChaosStats :=
  should_fail_operation ["disk_full"; "disk_fail"]
    (λ rule, bool_decide (rule_type rule = "file_write_fail")
             && chaos_matches_pattern path (rule_pattern rule))
    draws c stats.

Definition should_fail_network (draws : nat → Q) (url : string) (c : ChaosEngine)
    (stats : ChaosStats) : bool * ChaosStats :=
  should_fail_operation ["network_partition"]
    (λ rule, (bool_decide (rule_type rule = "network_timeout")
              || bool_decide (rule_type rule = "network_fail"))
             && chaos_matches_pattern url (rule_pattern rule))
    draws c stats.



(** *** World: counting syscalls *)

(** [World::record_syscall], run at time [now]. *)
Definition record_syscall (now : Z) (w : World) : World :=
  mkWorld (id_ w) (name_ w) (description_ w) (config_ w) (vfs_ w) (network_ w) (chaos_ w)
    (agents_ w)
    (mkWorldMetrics (agent_count_metric (metrics_ w))
       (add64 (syscall_count (metrics_ w)) 1)
       (created_at_metric (metrics_ w)) now).

(** The characters a generated world id is made of. *)
Definition is_id_char (c : ascii) : bool :=
  let n := nat_of_ascii c in
  ((48 <=? n) && (n <=? 57) || (97 <=? n) && (n <=? 122))%nat
  || bool_decide (c = "-"%char) || bool_decide (c = "_"%char).

End Worlds.

(** ** Event bus ([kernel/event_bus.{hpp,cpp}]) and the event syscalls
       ([kernel/syscalls/events.cpp]) *)

Module EventBus.

Inductive KernelEventType :=
  | AGENT_SPAWNED | AGENT_EXITED | AGENT_PAUSED | AGENT_RESUMED
  | AGENT_RESTARTING | AGENT_ESCALATED | MESSAGE_RECEIVED | STATE_CHANGED
  | SYSCALL_BLOCKED | RESOURCE_WARNING | CUSTOM.

#[global] Instance KernelEventType_eq_dec : EqDecision KernelEventType.
Proof. solve_decision. Defined.

(** The enumerators' values, the order of a [std::set<KernelEventType>]. *)
Definition KernelEventType_to_nat (t : KernelEventType) : nat :=
  match t with
  | AGENT_SPAWNED => 0 | AGENT_EXITED => 1 | AGENT_PAUSED => 2 | AGENT_RESUMED => 3
  | AGENT_RESTARTING => 4 | AGENT_ESCALATED => 5 | MESSAGE_RECEIVED => 6
  | STATE_CHANGED => 7 | SYSCALL_BLOCKED => 8 | RESOURCE_WARNING => 9 | CUSTOM => 10
  end.

Definition KernelEventType_of_nat (n : nat) : KernelEventType :=
  match n with
  | 0 => AGENT_SPAWNED | 1 => AGENT_EXITED | 2 => AGENT_PAUSED | 3 => AGENT_RESUMED
  | 4 => AGENT_RESTARTING | 5 => AGENT_ESCALATED | 6 => MESSAGE_RECEIVED
  | 7 => STATE_CHANGED | 8 => SYSCALL_BLOCKED | 9 => RESOURCE_WARNING | _ => CUSTOM
  end%nat.

#[global] Instance KernelEventType_countable : Countable KernelEventType.
Proof.
  apply (inj_countable' KernelEventType_to_nat KernelEventType_of_nat).
  by intros [].
Defined.

Definition kernel_event_type_to_string (t : KernelEventType) : string :=
  match t with
  | AGENT_SPAWNED => "AGENT_SPAWNED"
  | AGENT_EXITED => "AGENT_EXITED"
  | AGENT_PAUSED => "AGENT_PAUSED"
  | AGENT_RESUMED => "AGENT_RESUMED"
  | AGENT_RESTARTING => "AGENT_RESTARTING"
  | AGENT_ESCALATED => "AGENT_ESCALATED"
  | MESSAGE_RECEIVED => "MESSAGE_RECEIVED"
  | STATE_CHANGED => "STATE_CHANGED"
  | SYSCALL_BLOCKED => "SYSCALL_BLOCKED"
  | RESOURCE_WARNING => "RESOURCE_WARNING"
  | CUSTOM => "CUSTOM"
  end.

Definition kernel_event_type_from_string (str : string) : KernelEventType :=
  if decide (str = "AGENT_SPAWNED") then AGENT_SPAWNED
  else if decide (str = "AGENT_EXITED") then AGENT_EXITED
  else if decide (str = "AGENT_PAUSED") then AGENT_PAUSED
  else if decide (str = "AGENT_RESUMED") then AGENT_RESUMED
  else if decide (str = "AGENT_RESTARTING") then AGENT_RESTARTING
  else if decide (str = "AGENT_ESCALATED") then AGENT_ESCALATED
  else if decide (str = "MESSAGE_RECEIVED") then MESSAGE_RECEIVED
  else if decide (str = "STATE_CHANGED") then STATE_CHANGED
  else if decide (str = "SYSCALL_BLOCKED") then SYSCALL_BLOCKED
  else if decide (str = "RESOURCE_WARNING") then RESOURCE_WARNING
  else CUSTOM.

Record KernelEvent := mkKernelEvent {
  type : KernelEventType;
  data : json;
  timestamp : Z;
  source_agent_id : N   (* 0 = kernel *)
}.

Record EventBus := mkEventBus {
  subscriptions_ : gmap N (gset KernelEventType);
  queues_ : gmap N (list KernelEvent)
}.

(** [queues_[agent_id].push(event)] *)
Definition push_event (agent_id : N) (event : KernelEvent)
    (queues : gmap N (list KernelEvent)) : gmap N (list KernelEvent) :=
  <[ agent_id := (default [] (queues !! agent_id) ++ [event])%list ]> queues.

(** [EventBus::emit], run at time [now]. *)
Definition emit (now : Z) (type : KernelEventType) (data : json) (source_agent_id : N)
    (bus : EventBus) : EventBus :=
  let event := mkKernelEvent type data now source_agent_id in
  mkEventBus (subscriptions_ bus)
    (foldl (λ queues (entry : N * gset KernelEventType),
              if decide (type ∈ entry.2) then push_event entry.1 event queues else queues)
           (queues_ bus) (map_to_list (subscriptions_ bus))).

Definition subscribe (agent_id : N) (types : list KernelEventType) (bus : EventBus) : EventBus :=
  let subs := default ∅ (subscriptions_ bus !! agent_id) in
  mkEventBus (<[ agent_id := foldl (λ s t, {[ t ]} ∪ s) subs types ]> (subscriptions_ bus))
    (queues_ bus).

Definition unsubscribe (agent_id : N) (types : list KernelEventType) (unsubscribe_all : bool)
    (bus : EventBus) : EventBus :=
  if unsubscribe_all then mkEventBus (delete agent_id (subscriptions_ bus)) (queues_ bus)
  else
    match subscriptions_ bus !! agent_id with
    | None => bus
    | Some subs =>
        mkEventBus (<[ agent_id := foldl (λ s t, s ∖ {[ t ]}) subs types ]> (subscriptions_ bus))
          (queues_ bus)
    end.

(** [duration_cast<milliseconds>(d).count()] of the nanosecond time stamp. *)
Definition to_millis (d : Z) : Z := d ÷ 1000000.

Definition event_to_json (event : KernelEvent) : json :=
  JObj (<[ "timestamp" := JInt (to_millis (timestamp event)) ]>
       (<[ "source_agent_id" := JInt (Z.of_N (source_agent_id event)) ]>
       (<[ "data" := data event ]>
       (<[ "type" := JStr (kernel_event_type_to_string (type event)) ]> ∅)))).

(** [EventBus::poll]: drains up to [max_events] events, oldest first. *)
Definition poll (agent_id : N) (max_events : Z) (bus : EventBus) : json * EventBus :=
  match queues_ bus !! agent_id with
  | None => (JArr [], bus)
  | Some queue =>
      let n := Z.to_nat max_events in
      (JArr (event_to_json <$> take n queue),
       mkEventBus (subscriptions_ bus) (<[ agent_id := drop n queue ]> (queues_ bus)))
  end.

(** Modelled from the spec: the message envelope [ipc::Message] (the ipc
    headers are not among the sources), which carries the sender's
    [agent_id], an opcode and the payload bytes, "by convention a UTF-8 JSON
    object".  A handler reads the sender and the outcome of
    [json::parse(msg.payload_str())], here [None] when parsing throws. *)
Record Message := mkMessage {
  agent_id : N;
  payload : option json
}.

(** The response of the [catch] block; the library's [e.what()] that follows
    the prefix is not modelled. *)
Definition invalid_request : json :=
  JObj (<[ "error" := JStr "invalid request: " ]> (<[ "success" := JBool false ]> ∅)).

(** The event data [handle_emit] hands to the bus: the request's "data"
    (null when absent), tagged with the requested name unless it is "CUSTOM". *)
Definition emit_data (event_name : string) (event_data : json) : option json :=
  if decide (event_name ≠ "CUSTOM")
  then set_key event_data "custom_type" (JStr event_name)
  else Some event_data.

(** [EventSyscalls::handle_emit], run at time [now]: the response body and
    the bus afterwards. *)
Definition handle_emit (now : Z) (msg : Message) (bus : EventBus) : json * EventBus :=
  match payload msg with
  | None => (invalid_request, bus)
  | Some j =>
      match value_string j "event" "CUSTOM" with
      | None => (invalid_request, bus)
      | Some event_name =>
          match value_json j "data" JNull with
          | None => (invalid_request, bus)
          | Some event_data =>
              let type := CUSTOM in
              match emit_data event_name event_data with
              | None => (invalid_request, bus)
              | Some event_data =>
                  (JObj (<[ "event" := JStr event_name ]> (<[ "success" := JBool true ]> ∅)),
                   emit now type event_data (agent_id msg) bus)
              end
          end
      end
  end.

(** The queue and the subscriptions of an agent, empty when it has none. *)
Definition queue_of (agent : N) (bus : EventBus) : list KernelEvent :=
  default [] (queues_ bus !! agent).

Definition subscriptions_of (agent : N) (bus : EventBus) : gset KernelEventType :=
  default ∅ (subscriptions_ bus !! agent).

(** A well-formed SYS_EMIT request: a JSON object whose "event", when
    present, is a string and whose "data", when the event is not named
    "CUSTOM", is absent, null or an object. *)
Definition well_formed_emit (j : json) (event_name : string) (event_data : json) : Prop :=
  value_string j "event" "CUSTOM" = Some event_name
  ∧ value_json j "data" JNull = Some event_data
  ∧ (event_name ≠ "CUSTOM" → event_data = JNull ∨ is_object event_data = true).

(** The event names a SYS_SUBSCRIBE or SYS_UNSUBSCRIBE request lists: the
    array under "event_types", else the array under "events", else the one
    name under "event"; [None] when an element is not a string. *)
Definition requested_events (j : json) : option (list string) :=
  if contains j "event_types" && is_array (at_key j "event_types")
  then get_strings (at_key j "event_types")
  else if contains j "events" && is_array (at_key j "events")
  then get_strings (at_key j "events")
  else if contains j "event"
  then e ← get_string (at_key j "event"); Some [e]
  else Some [].

(** [EventSyscalls::handle_subscribe]: the response body and the bus
    afterwards. *)
Definition handle_subscribe (msg : Message) (bus : EventBus) : json * EventBus :=
  match payload msg with
  | None => (invalid_request, bus)
  | Some j =>
      match requested_events j with
      | None => (invalid_request, bus)
      | Some [] =>
          (JObj (<[ "error" := JStr "No events specified" ]>
                (<[ "success" := JBool false ]> ∅)), bus)
      | Some event_types =>
          let types := kernel_event_type_from_string <$> event_types in
          (JObj (<[ "subscribed" := of_strings event_types ]>
                (<[ "success" := JBool true ]> ∅)),
           subscribe (agent_id msg) types bus)
      end
  end.


(** [EventSyscalls::handle_poll_events].  An empty payload is not parsed:
    [j] stays null, [j.value("max", 100)] throws, and the request ends in the
    [catch] block as one whose payload does not parse. *)
Definition handle_poll_events (msg : Message) (bus : EventBus) : json * EventBus :=
  match payload msg with
  | None => (invalid_request, bus)
  | Some j =>
      match value_int j "max" 100 with
      | None => (invalid_request, bus)
      | Some max_events =>
          let '(events_array, bus') := poll (agent_id msg) max_events bus in
          (JObj (<[ "count" := JInt (Z.of_nat (length (elements_of events_array))) ]>
                (<[ "events" := events_array ]>
                (<[ "success" := JBool true ]> ∅))),
           bus')
      end
  end.

End EventBus.

(** ** State syscalls ([kernel/syscalls/state.cpp]) *)

Module StateSyscalls.
Import StateStore EventBus.

(** What the handlers reach through [context_]: the state store and the
    event bus. *)
Record Context := mkContext {
  state_store : gmap string StoredValue;
  event_bus : EventBus
}.

Definition key_is_required : json :=
  JObj (<[ "error" := JStr "key is required" ]> (<[ "success" := JBool false ]> ∅)).

(** The TTL of a SYS_STORE request: the number under "ttl", as an [int]. *)
Definition requested_ttl (j : json) : option (option Z) :=
  if contains j "ttl" && is_number (at_key j "ttl")
  then ttl ← get_int (at_key j "ttl"); Some (Some ttl)
  else Some None.

(** The data of the STATE_CHANGED event of a store. *)
Definition store_event_data (key : string) (agent_id : N) : json :=
  JObj (<[ "agent_id" := JInt (Z.of_N agent_id) ]>
       (<[ "action" := JStr "store" ]>
       (<[ "key" := JStr key ]> ∅))).

(** [StateSyscalls::handle_store].  The clock is read twice: by the store, at
    [now], and by the event bus when the store is announced, at [now']. *)
Definition handle_store (now now' : Z) (msg : Message) (ctx : Context) : json * Context :=
  match payload msg with
  | None => (invalid_request, ctx)
  | Some j =>
      match value_string j "key" "" with
      | None => (invalid_request, ctx)
      | Some key =>
          if decide (key = "") then (key_is_required, ctx)
          else
            match value_string j "scope" "global", requested_ttl j, value_json j "value" JNull with
            | Some scope, Some ttl_secs, Some val =>
                let '(result, store_) :=
                  store now (agent_id msg) key val scope ttl_secs (state_store ctx) in
                if negb (sr_success result) then
                  (JObj (<[ "error" := JStr "failed to store key" ]>
                        (<[ "success" := JBool false ]> ∅)),
                   mkContext store_ (event_bus ctx))
                else
                  let bus :=
                    if decide (sr_scope result = "global")
                    then emit now' STATE_CHANGED (store_event_data key (agent_id msg))
                           (agent_id msg) (event_bus ctx)
                    else event_bus ctx in
                  (JObj (<[ "key" := JStr key ]> (<[ "success" := JBool true ]> ∅)),
                   mkContext store_ bus)
            | _, _, _ => (invalid_request, ctx)
            end
      end
  end.

(** [StateSyscalls::handle_fetch], run at time [now]. *)
Definition handle_fetch (now : Z) (msg : Message) (ctx : Context) : json * Context :=
  match payload msg with
  | None => (invalid_request, ctx)
  | Some j =>
      match value_string j "key" "" with
      | None => (invalid_request, ctx)
      | Some key =>
          if decide (key = "") then (key_is_required, ctx)
          else
            let '(result, store_) := fetch now (agent_id msg) key (state_store ctx) in
            let ctx := mkContext store_ (event_bus ctx) in
            if negb (fr_success result) then
              (JObj (<[ "error" := JStr "failed to fetch key" ]>
                    (<[ "success" := JBool false ]> ∅)), ctx)
            else
              let response : gmap string json :=
                <[ "value" := fr_value result ]>
                (<[ "exists" := JBool (fr_exists result) ]>
                (<[ "success" := JBool true ]> ∅)) in
              (JObj (if fr_exists result
                     then <[ "scope" := JStr (fr_scope result) ]> response
                     else response),
               ctx)
      end
  end.

End StateSyscalls.
(** ** Agent supervisor ([runtime/agent/types.hpp], [runtime/agent/manager.{hpp,cpp}]) *)

Module Supervisor.

Inductive RestartPolicy := NEVER | ALWAYS | ON_FAILURE.

Inductive AgentState :=
  CREATED | STARTING | RUNNING | PAUSED | STOPPING | STOPPED | FAILED.

#[global] Instance RestartPolicy_eq_dec : EqDecision RestartPolicy.
Proof. solve_decision. Defined.

#[global] Instance AgentState_eq_dec : EqDecision AgentState.
Proof. solve_decision. Defined.

(** [uint32_t] arithmetic. *)
Definition uint32_max : Z := 4294967295.
Definition incr32 (x : Z) : Z := (x + 1) mod 4294967296.

(** *** [double] arithmetic

    IEEE-754 binary64 as the Standard Library specifies it: 53 bits of
    precision, every operation rounded to the nearest value, ties to even. *)
Definition double : Type := SpecFloat.spec_float.
Definition prec : Z := 53.
Definition emax : Z := 1024.

(** The conversion of an integer to [double]; exact below 2^53, so for every
    [uint32_t]. *)
Definition double_of_Z (z : Z) : double := SpecFloat.binary_normalize prec emax z 0 false.


(** [x * y] *)
Definition double_mul (x y : double) : double := SpecFloat.SFmul prec emax x y.

(** [x >= y], false when either side is a NaN. *)
Definition double_ge (x y : double) : bool := SpecFloat.SFleb y x.

(** The integer part of a [double], toward zero (0 for a NaN or an infinity). *)
Definition double_trunc (d : double) : Z :=
  match d with
  | SpecFloat.S754_finite s m e =>
      let z := if 0 <=? e then Z.pos m * 2 ^ e else Z.pos m / 2 ^ (- e) in
      if s then - z else z
  | _ => 0
  end.



(** *** Restart configuration and backoff *)

(** The [uint32_t] fields hold values in [0, 2^32). *)
Record RestartConfig := mkRestartConfig {
  policy : RestartPolicy;
  max_restarts : Z;
  restart_window_sec : Z;
  backoff_initial_ms : Z;
  backoff_max_ms : Z;
  backoff_multiplier : double
}.

(** [static_cast<uint32_t>(delay)]: the integer part.  The conversion is
    defined for integer parts in [0, 2^32) only; the model takes the other
    ones modulo 2^32.  (The loop below reaches such a value only when a
    product is negative or not a number.) *)
Definition static_cast_uint32 (delay : double) : Z :=
  double_trunc delay mod 4294967296.

(** The [for] loop of [calculate_backoff_delay] with [n] iterations left. *)
Fixpoint backoff_loop (config : RestartConfig) (n : nat) (delay : double) : Z :=
  match n with
  | O => static_cast_uint32 delay
  | S n' =>
      let delay' := double_mul delay (backoff_multiplier config) in
      if double_ge delay' (double_of_Z (backoff_max_ms config))
      then backoff_max_ms config
      else backoff_loop config n' delay'
  end.

Definition calculate_backoff_delay (config : RestartConfig) (consecutive_failures : Z) : Z :=
  if decide (consecutive_failures = 0) then backoff_initial_ms config
  else backoff_loop config (Z.to_nat consecutive_failures)
         (double_of_Z (backoff_initial_ms config)).


(** The restart part of [AgentConfig]; the launch parameters (script,
    interpreter, socket, limits, isolation flags) play no role in supervision. *)
Record AgentConfig := mkAgentConfig {
  name : string;
  restart : RestartConfig
}.

(** Modelled from the spec: the class [AgentProcess]
    ([runtime/agent/process.hpp], which is not among the sources).  The
    manager reads four things of a process, [id()], [is_running()], [state()]
    and [exit_code()]; an agent "whose underlying process has exited while
    the state is RUNNING" is dead. *)
Record AgentProcess := mkAgentProcess {
  id : N;
  is_running : bool;
  state : AgentState;
  exit_code : Z
}.

Record RestartState := mkRestartState {
  restart_count : Z;
  window_start : Z;
  consecutive_failures : Z;
  escalated : bool
}.

(** A default-constructed [RestartState], as [restart_states_[name]] creates. *)
Definition RestartState_default : RestartState := mkRestartState 0 0 0 false.

Record PendingRestart := mkPendingRestart {
  agent_name : string;
  scheduled_time : Z;
  config : AgentConfig
}.

(** One call of [restart_event_callback_]. *)
Record RestartEvent := mkRestartEvent {
  event_type : string;
  event_agent : string;
  event_restart_count : Z;
  event_exit_code : Z
}.

(** The manager.  [restart_event_callback_] tells whether a callback is
    installed; [emitted] logs the calls made to it, oldest first. *)
Record AgentManager := mkAgentManager {
  agents_by_name_ : gmap string AgentProcess;
  agents_by_id_ : gmap N AgentProcess;
  restart_states_ : gmap string RestartState;
  saved_configs_ : gmap string AgentConfig;
  pending_restarts_ : list PendingRestart;
  restart_event_callback_ : bool;
  emitted : list RestartEvent
}.

Definition milliseconds (n : Z) : Z := n * 1000000.

(** [duration_cast<seconds>(d).count()] of a nanosecond duration. *)
Definition to_seconds (d : Z) : Z := d ÷ 1000000000.

Definition emit_restart_event (m : AgentManager) (ty : string) (name : string)
    (count code : Z) : list RestartEvent :=
  if restart_event_callback_ m
  then (emitted m ++ [mkRestartEvent ty name count code])%list
  else emitted m.

(** [spawn_agent]; [started] is the outcome of [agent->start()]: the running
    process, or [None] when the start fails. *)
Definition spawn_agent (now : Z) (config : AgentConfig) (started : option AgentProcess)
    (m : AgentManager) : option AgentProcess * AgentManager :=
  if decide (is_Some (agents_by_name_ m !! name config)) then (None, m)
  else
    match started with
    | None => (None, m)
    | Some agent =>
        let by_name := <[ name config := agent ]> (agents_by_name_ m) in
        let by_id := <[ id agent := agent ]> (agents_by_id_ m) in
        if decide (policy (restart config) ≠ NEVER) then
          let states :=
            match restart_states_ m !! name config with
            | None => <[ name config := mkRestartState 0 now 0 false ]> (restart_states_ m)
            | Some _ => restart_states_ m
            end in
          (Some agent,
           mkAgentManager by_name by_id states
             (<[ name config := config ]> (saved_configs_ m))
             (pending_restarts_ m) (restart_event_callback_ m) (emitted m))
        else
          (Some agent,
           mkAgentManager by_name by_id (restart_states_ m) (saved_configs_ m)
             (pending_restarts_ m) (restart_event_callback_ m) (emitted m))
    end.

(** The names [reap_and_restart_agents] collects in its first loop. *)
Definition died_unexpectedly (agent : AgentProcess) : bool :=
  negb (is_running agent) && bool_decide (state agent = RUNNING).

Definition dead_agents (m : AgentManager) : list string :=
  (List.filter (λ entry, died_unexpectedly entry.2) (map_to_list (agents_by_name_ m))).*1.

(** The body of the second loop of [reap_and_restart_agents] for one name. *)
Definition handle_dead_agent (now : Z) (name : string) (m : AgentManager) : AgentManager :=
  match agents_by_name_ m !! name with
  | None => m
  | Some agent =>
      let exit_code := exit_code agent in
      let by_id := delete (id agent) (agents_by_id_ m) in
      let by_name := delete name (agents_by_name_ m) in
      match saved_configs_ m !! name with
      | None =>
          mkAgentManager by_name by_id (restart_states_ m) (saved_configs_ m)
            (pending_restarts_ m) (restart_event_callback_ m) (emitted m)
      | Some config =>
          let state := default RestartState_default (restart_states_ m !! name) in
          let should_restart :=
            match policy (restart config) with
            | ALWAYS => true
            | ON_FAILURE => bool_decide (exit_code ≠ 0)
            | NEVER => false
            end in
          if negb should_restart then
            mkAgentManager by_name by_id (delete name (restart_states_ m))
              (delete name (saved_configs_ m))
              (pending_restarts_ m) (restart_event_callback_ m) (emitted m)
          else
            let window_elapsed := to_seconds (now - window_start state) in
            let state :=
              if decide (window_elapsed >= restart_window_sec (restart config))
              then mkRestartState 0 now 0 (escalated state)
              else state in
            if decide (restart_count state >= max_restarts (restart config)) then
              if negb (escalated state) then
                mkAgentManager by_name by_id
                  (<[ name := mkRestartState (restart_count state) (window_start state)
                                (consecutive_failures state) true ]> (restart_states_ m))
                  (saved_configs_ m) (pending_restarts_ m) (restart_event_callback_ m)
                  (emit_restart_event m "AGENT_ESCALATED" name (restart_count state) exit_code)
              else
                mkAgentManager by_name by_id (<[ name := state ]> (restart_states_ m))
                  (saved_configs_ m) (pending_restarts_ m) (restart_event_callback_ m)
                  (emitted m)
            else
              let backoff_ms :=
                calculate_backoff_delay (restart config) (consecutive_failures state) in
              let pending := mkPendingRestart name (now + milliseconds backoff_ms) config in
              let state' :=
                mkRestartState (incr32 (restart_count state)) (window_start state)
                  (incr32 (consecutive_failures state)) (escalated state) in
              mkAgentManager by_name by_id (<[ name := state' ]> (restart_states_ m))
                (saved_configs_ m) (pending_restarts_ m ++ [pending])%list
                (restart_event_callback_ m)
                (emit_restart_event m "AGENT_RESTARTING" name (restart_count state') exit_code)
      end
  end.

(** [reap_and_restart_agents], run at time [now]. *)
Definition reap_and_restart_agents (now : Z) (m : AgentManager) : AgentManager :=
  foldl (λ m name, handle_dead_agent now name m) m (dead_agents m).

(** [process_pending_restarts]; [start] gives the outcome of [agent->start()]
    for each restart that is due. *)
Fixpoint launch_due (now : Z) (start : PendingRestart → option AgentProcess)
    (pendings : list PendingRestart)
    (acc : gmap string AgentProcess * gmap N AgentProcess * list PendingRestart)
    : gmap string AgentProcess * gmap N AgentProcess * list PendingRestart :=
  match pendings with
  | [] => acc
  | pending :: rest =>
      let '(by_name, by_id, still_pending) := acc in
      if decide (now >= scheduled_time pending) then
        match start pending with
        | Some agent =>
            launch_due now start rest
              (<[ agent_name pending := agent ]> by_name, <[ id agent := agent ]> by_id,
               still_pending)
        | None => launch_due now start rest acc
        end
      else launch_due now start rest (by_name, by_id, (still_pending ++ [pending])%list)
  end.

Definition process_pending_restarts (now : Z) (start : PendingRestart → option AgentProcess)
    (m : AgentManager) : AgentManager :=
  match pending_restarts_ m with
  | [] => m
  | pendings =>
      let '(by_name, by_id, still_pending) :=
        launch_due now start pendings (agents_by_name_ m, agents_by_id_ m, []) in
      mkAgentManager by_name by_id (restart_states_ m) (saved_configs_ m)
        still_pending (restart_event_callback_ m) (emitted m)
  end.

(** *** Observing one agent across supervisor ticks *)

(** The process of agent [name] exits with [code] (the operating system's
    move): both indexes share the process object. *)
Definition process_exit (name : string) (code : Z) (m : AgentManager) : AgentManager :=
  match agents_by_name_ m !! name with
  | None => m
  | Some agent =>
      let gone := mkAgentProcess (id agent) false (state agent) code in
      mkAgentManager (<[ name := gone ]> (agents_by_name_ m))
        (<[ id agent := gone ]> (agents_by_id_ m))
        (restart_states_ m) (saved_configs_ m) (pending_restarts_ m)
        (restart_event_callback_ m) (emitted m)
  end.

Definition events_of (name : string) (m : AgentManager) : list RestartEvent :=
  List.filter (λ e, bool_decide (event_agent e = name)) (emitted m).

Definition pending_of (name : string) (m : AgentManager) : list PendingRestart :=
  List.filter (λ p, bool_decide (agent_name p = name)) (pending_restarts_ m).

Definition is_escalation (e : RestartEvent) : bool :=
  bool_decide (event_type e = "AGENT_ESCALATED").

(** All the supervisor reads and writes for one agent. *)
Record Supervision := mkSupervision {
  sv_agent : option AgentProcess;
  sv_state : option RestartState;
  sv_config : option AgentConfig;
  sv_callback : bool;
  sv_events : list RestartEvent;
  sv_pending : list PendingRestart
}.

Definition view (name : string) (m : AgentManager) : Supervision :=
  mkSupervision (agents_by_name_ m !! name) (restart_states_ m !! name)
    (saved_configs_ m !! name) (restart_event_callback_ m)
    (events_of name m) (pending_of name m).

(** The agent [name] has failed: it is registered with the state label
    RUNNING while its process is gone, with exit code [code]. *)
Definition failed_with (name : string) (code : Z) (m : AgentManager) : Prop :=
  ∃ agent, agents_by_name_ m !! name = Some agent
           ∧ died_unexpectedly agent = true ∧ exit_code agent = code.

(** Between two ticks anything may happen to the manager (pending restarts
    are launched, agents are spawned or killed, processes exit) as long as
    the saved configuration and the restart state of [name], the callback
    and the events already sent for [name] are left alone. *)
Definition undisturbed (name : string) (m m' : AgentManager) : Prop :=
  restart_states_ m' !! name = restart_states_ m !! name
  ∧ saved_configs_ m' !! name = saved_configs_ m !! name
  ∧ restart_event_callback_ m' = restart_event_callback_ m
  ∧ events_of name m' = events_of name m.

(** What the tick at time [now] adds for [name]: events sent and restarts
    scheduled. *)
Definition tick_events (name : string) (now : Z) (m : AgentManager) : list RestartEvent :=
  drop (length (events_of name m)) (events_of name (reap_and_restart_agents now m)).

Definition tick_scheduled (name : string) (now : Z) (m : AgentManager) : list PendingRestart :=
  drop (length (pending_of name m)) (pending_of name (reap_and_restart_agents now m)).

(** One failure of the agent, as the supervisor's tick handled it. *)
Record Failure := mkFailure {
  f_time : Z;
  f_code : Z;
  f_events : list RestartEvent;
  f_scheduled : list PendingRestart
}.

(** [failures name m fs m']: starting from [m], the agent [name] fails once
    for each element of [fs], each failure being picked up by a tick; [m'] is
    the manager after the last tick. *)
Inductive failures (name : string) : AgentManager → list Failure → AgentManager → Prop :=
  | failures_nil m : failures name m [] m
  | failures_cons m m1 t code fs m' :
      undisturbed name m m1 →
      failed_with name code m1 →
      failures name (reap_and_restart_agents t m1) fs m' →
      failures name m
        (mkFailure t code (tick_events name t m1) (tick_scheduled name t m1) :: fs) m'.

(** The restart state a failure at time [now] is counted in: when the
    window has elapsed the failure starts a new one, with the counters at 0
    and the [escalated] flag as it was. *)
Definition window_state (now : Z) (config : RestartConfig) (st : RestartState) : RestartState :=
  if decide (to_seconds (now - window_start st) >= restart_window_sec config)
  then mkRestartState 0 now 0 (escalated st)
  else st.

(** The window in force over a run of failures: the one its first failure
    finds or starts. *)
Definition window_in_force (config : RestartConfig) (st : RestartState) (fs : list Failure)
    : RestartState :=
  match fs with
  | [] => st
  | f :: _ => window_state (f_time f) config st
  end.

(** The number of AGENT_ESCALATED events sent over a run of failures. *)
Definition escalation_count (fs : list Failure) : nat :=
  length (List.filter is_escalation (concat (f_events <$> fs))).

(** *** A sample run: one agent, one restart allowed *)

Definition sample_config : AgentConfig :=
  mkAgentConfig "worker" (mkRestartConfig ALWAYS 1 300 100 1000 (double_of_Z 2)).

(** A fresh manager with an event callback installed. *)
Definition sample_manager : AgentManager := mkAgentManager ∅ ∅ ∅ ∅ [] true [].

(** The agent is spawned at time 0. *)
Definition sample_spawned : AgentManager :=
  (spawn_agent 0 sample_config (Some (mkAgentProcess 1 true RUNNING 0)) sample_manager).2.

(** Its process exits with code 1; the tick at 2 s picks the failure up. *)
Definition sample_failed_1 : AgentManager := process_exit "worker" 1 sample_spawned.
Definition sample_reaped_1 : AgentManager := reap_and_restart_agents 2000000000 sample_failed_1.

(** The pending restart is launched at 3 s; the new process exits too, and
    the tick at 4 s picks the second failure up. *)
Definition sample_failed_2 : AgentManager :=
  process_exit "worker" 1
    (process_pending_restarts 3000000000 (λ _, Some (mkAgentProcess 2 true RUNNING 0))
       sample_reaped_1).
Definition sample_reaped_2 : AgentManager := reap_and_restart_agents 4000000000 sample_failed_2.

Definition sample_failures : list Failure :=
  [ mkFailure 2000000000 1 (tick_events "worker" 2000000000 sample_failed_1)
      (tick_scheduled "worker" 2000000000 sample_failed_1);
    mkFailure 4000000000 1 (tick_events "worker" 4000000000 sample_failed_2)
      (tick_scheduled "worker" 4000000000 sample_failed_2) ].

(** *** A run across the end of a window: one restart allowed in 10 s *)

Definition straddle_config : AgentConfig :=
  mkAgentConfig "worker" (mkRestartConfig ALWAYS 1 10 100 1000 (double_of_Z 2)).

(** The agent is spawned at time 0; its process exits, and the tick at 9 s
    picks the failure up. *)
Definition straddle_spawned : AgentManager :=
  (spawn_agent 0 straddle_config (Some (mkAgentProcess 1 true RUNNING 0)) sample_manager).2.
Definition straddle_failed_1 : AgentManager := process_exit "worker" 1 straddle_spawned.
Definition straddle_reaped_1 : AgentManager :=
  reap_and_restart_agents 9000000000 straddle_failed_1.

(** The restart is launched at 10 s; the new process exits, and the tick at
    11 s picks the second failure up, 2 s after the first. *)
Definition straddle_failed_2 : AgentManager :=
  process_exit "worker" 1
    (process_pending_restarts 10000000000 (λ _, Some (mkAgentProcess 2 true RUNNING 0))
       straddle_reaped_1).
Definition straddle_reaped_2 : AgentManager :=
  reap_and_restart_agents 11000000000 straddle_failed_2.

(** The next restart is launched at 11.5 s; the third failure is picked up
    at 12 s. *)
Definition straddle_failed_3 : AgentManager :=
  process_exit "worker" 1
    (process_pending_restarts 11500000000 (λ _, Some (mkAgentProcess 3 true RUNNING 0))
       straddle_reaped_2).
Definition straddle_reaped_3 : AgentManager :=
  reap_and_restart_agents 12000000000 straddle_failed_3.

Definition straddle_failure_1 : Failure :=
  mkFailure 9000000000 1 (tick_events "worker" 9000000000 straddle_failed_1)
    (tick_scheduled "worker" 9000000000 straddle_failed_1).
Definition straddle_failure_2 : Failure :=
  mkFailure 11000000000 1 (tick_events "worker" 11000000000 straddle_failed_2)
    (tick_scheduled "worker" 11000000000 straddle_failed_2).
Definition straddle_failure_3 : Failure :=
  mkFailure 12000000000 1 (tick_events "worker" 12000000000 straddle_failed_3)
    (tick_scheduled "worker" 12000000000 straddle_failed_3).

(** A pending restart that [process_pending_restarts] keeps at time [now]. *)
Definition not_yet_due (now : Z) (pending : PendingRestart) : bool :=
  bool_decide (now < scheduled_time pending).

End Supervisor.

(** ** File syscalls inside a world ([kernel/syscalls/fs.cpp]) *)

Module FileSyscalls.
Import VirtualFs Worlds EventBus.

(** The first step of [handle_read] and [handle_write]: the world whose
    virtual filesystem serves the request, if the sender is in a world whose
    filesystem is enabled and intercepts the requested path.  A request that
    does not parse is not served here (the exception is swallowed); [None]
    sends the request on to the real filesystem, which is not modelled. *)
Definition virtual_target (msg : Message) (e : WorldEngine) : option World :=
  if is_agent_in_world (agent_id msg) e then
    match get_agent_world (agent_id msg) e with
    | Some world_id =>
        match get_world world_id e with
        | Some world =>
            if is_enabled (vfs_ world) then
              match payload msg with
              | Some j =>
                  match value_string j "path" "" with
                  | Some path => if should_intercept path (vfs_ world) then Some world else None
                  | None => None
                  end
              | None => None
              end
            else None
        | None => None
        end
    | None => None
    end
  else None.

(** A world with its filesystem replaced. *)
Definition with_vfs (vfs : VirtualFilesystem) (w : World) : World :=
  mkWorld (id_ w) (name_ w) (description_ w) (config_ w) vfs (network_ w) (chaos_ w)
    (agents_ w) (metrics_ w).

(** The failed responses of a read: no content. *)
Definition read_refused (error : string) : gmap string json :=
  <[ "size" := JInt 0 ]>
  (<[ "content" := JStr "" ]>
  (<[ "error" := JStr error ]>
  (<[ "success" := JBool false ]> ∅))).

(** [handle_read_virtual]: the response body, the world and the counters of
    its chaos engine afterwards.  [now] is the time of [record_syscall]. *)
Definition handle_read_virtual (now : Z) (draws : nat → Q) (msg : Message) (world : World)
    (stats : ChaosStats) : json * World * ChaosStats :=
  match payload msg with
  | None => (JObj (read_refused "invalid request: "), world, stats)
  | Some j =>
      match value_string j "path" "" with
      | None => (JObj (read_refused "invalid request: "), world, stats)
      | Some path =>
          let world := record_syscall now world in
          let '(fail, stats) := should_fail_read draws path (chaos_ world) stats in
          if fail then
            (JObj (<[ "world" := JStr (id_ world) ]>
                     (read_refused "Simulated read failure (chaos)")), world, stats)
          else
            let '(content_opt, vfs) := read path (vfs_ world) in
            let world := with_vfs vfs world in
            match content_opt with
            | None =>
                (JObj (<[ "world" := JStr (id_ world) ]>
                         (read_refused "File not found in virtual filesystem")), world, stats)
            | Some content =>
                (JObj (<[ "virtual" := JBool true ]>
                      (<[ "world" := JStr (id_ world) ]>
                      (<[ "size" := JInt (Z.of_nat (String.length content)) ]>
                      (<[ "content" := JStr content ]>
                      (<[ "success" := JBool true ]> ∅))))),
                 world, stats)
            end
      end
  end.

(** The failed responses of a write: nothing written. *)
Definition write_refused (error : string) : gmap string json :=
  <[ "bytes_written" := JInt 0 ]>
  (<[ "error" := JStr error ]>
  (<[ "success" := JBool false ]> ∅)).

(** [handle_write_virtual]; [now] is the time of [record_syscall], [now']
    the time of the write. *)
Definition handle_write_virtual (now now' : Z) (draws : nat → Q) (msg : Message)
    (world : World) (stats : ChaosStats) : json * World * ChaosStats :=
  match payload msg with
  | None => (JObj (write_refused "invalid request: "), world, stats)
  | Some j =>
      match value_string j "path" "", value_string j "content" "",
            value_string j "mode" "write" with
      | Some path, Some content, Some mode =>
          let world := record_syscall now world in
          let '(fail, stats) := should_fail_write draws path (chaos_ world) stats in
          if fail then
            (JObj (<[ "world" := JStr (id_ world) ]>
                     (write_refused "Simulated write failure (chaos)")), world, stats)
          else
            let '(ok, vfs) :=
              write now' path content (bool_decide (mode = "append")) (vfs_ world) in
            let world := with_vfs vfs world in
            if negb ok then
              (JObj (<[ "world" := JStr (id_ world) ]>
                       (write_refused "Virtual filesystem write denied")), world, stats)
            else
              (JObj (<[ "virtual" := JBool true ]>
                    (<[ "world" := JStr (id_ world) ]>
                    (<[ "bytes_written" := JInt (Z.of_nat (String.length content)) ]>
                    (<[ "success" := JBool true ]> ∅)))),
               world, stats)
      | _, _, _ => (JObj (write_refused "invalid request: "), world, stats)
      end
  end.

End FileSyscalls.
(** * Properties *)

(** ** Strings *)

Section string_facts.

Lemma string_length_app (s1 s2 : string) :
  String.length (s1 +:+ s2) = (String.length s1 + String.length s2)%nat.
Proof.
  induction s1 as [|c s1 IH]; [done |].
  change (S (String.length (s1 +:+ s2)) = S (String.length s1 + String.length s2)).
  by rewrite IH.
Qed.

Lemma string_app_assoc (s1 s2 s3 : string) :
  (s1 +:+ s2) +:+ s3 = s1 +:+ (s2 +:+ s3).
Proof.
  induction s1 as [|c s1 IH]; [done |].
  change (String c ((s1 +:+ s2) +:+ s3) = String c (s1 +:+ (s2 +:+ s3))).
  by rewrite IH.
Qed.

Lemma string_app_inv_tail (s1 s2 t : string) :
  s1 +:+ t = s2 +:+ t → s1 = s2.
Proof.
  revert s2. induction s1 as [|c s1 IH]; intros [|d s2] Heq.
  - done.
  - apply (f_equal String.length) in Heq.
    rewrite !string_length_app in Heq. simpl in Heq. lia.
  - apply (f_equal String.length) in Heq.
    rewrite !string_length_app in Heq. simpl in Heq. lia.
  - change (String c (s1 +:+ t) = String d (s2 +:+ t)) in Heq.
    injection Heq as -> Heq. f_equal. by apply IH.
Qed.

Lemma string_app_ne_tail (s t : string) : s ≠ "" → t ≠ s +:+ t.
Proof.
  intros Hs Heq. apply (f_equal String.length) in Heq.
  rewrite string_length_app in Heq. destruct s; [done | simpl in Heq; lia].
Qed.

End string_facts.

(** ** State store *)

Section state_store.
Import StateStore.

Implicit Types (st : gmap string StoredValue) (a b : N) (k : string).

Lemma make_agent_key_ne_key a k : k ≠ make_agent_key a k.
Proof.
  unfold make_agent_key. rewrite <- !string_app_assoc.
  apply string_app_ne_tail. done.
Qed.

Lemma make_agent_key_inj_agent a b k :
  make_agent_key a k = make_agent_key b k → a = b.
Proof.
  unfold make_agent_key. intros Heq.
  apply (inj (String.append "agent:")) in Heq.
  rewrite <- !string_app_assoc in Heq.
  apply string_app_inv_tail, string_app_inv_tail in Heq.
  by apply (inj pretty) in Heq.
Qed.

Lemma entry_scope_cases sc :
  entry_scope sc = "global" ∨ entry_scope sc = "agent" ∨ entry_scope sc = "session".
Proof.
  unfold entry_scope.
  set (s := if decide (sc = "") then "global" else sc).
  case_decide as Hs; [by left |].
  destruct (decide (s = "global")); [by left |].
  destruct (decide (s = "agent")); [by right; left |].
  destruct (decide (s = "session")); [by right; right |].
  by destruct Hs.
Qed.

Lemma store_spec now a k v sc ttl st :
  k ≠ "" →
  store now a k v sc ttl st =
    (mkStoreResult true k (entry_scope sc),
     <[ store_key_of a k sc :=
          mkStoredValue v (match ttl with Some t => now + seconds t | None => epoch end)
                        a (entry_scope sc) ]> st).
Proof. intros Hk. unfold store, store_key_of. by rewrite decide_False. Qed.

Lemma is_expired_epoch now v : expires_at v = epoch → is_expired now v = false.
Proof. intros He. unfold is_expired. by rewrite decide_True. Qed.

Lemma is_expired_past now v :
  expires_at v ≠ epoch → expires_at v < now → is_expired now v = true.
Proof.
  intros He Hlt. unfold is_expired. rewrite decide_False by done.
  apply bool_decide_eq_true. lia.
Qed.

Lemma can_access_owner a v sc : can_access_key a (mkStoredValue v epoch a (entry_scope sc)) = true.
Proof.
  unfold can_access_key; simpl.
  destruct (entry_scope_cases sc) as [-> | [-> | ->]]; repeat case_decide; naive_solver.
Qed.

Lemma can_access_shared a b v e sc :
  entry_scope sc ≠ "agent" →
  can_access_key b (mkStoredValue v e a (entry_scope sc)) = true.
Proof.
  intros Hne. unfold can_access_key; simpl.
  destruct (entry_scope_cases sc) as [Hs | [Hs | Hs]]; rewrite Hs in *;
    repeat case_decide; naive_solver.
Qed.

Lemma can_access_other_agent a b v e :
  a ≠ b → can_access_key b (mkStoredValue v e a "agent") = false.
Proof.
  intros Hne. unfold can_access_key; simpl. repeat case_decide; naive_solver.
Qed.

(** A live, accessible entry under a tried key ends the loop of [fetch]. *)
Lemma fetch_loop_hit now b key rest st e :
  st !! key = Some e → is_expired now e = false → can_access_key b e = true →
  fetch_loop now b (key :: rest) st = (mkFetchResult true true (value e) (scope e), st).
Proof. intros Hl He Ha. simpl. by rewrite Hl, He, Ha. Qed.

Lemma fetch_loop_expired now b key rest st e :
  st !! key = Some e → is_expired now e = true →
  fetch_loop now b (key :: rest) st = fetch_loop now b rest (delete key st).
Proof. intros Hl He. simpl. by rewrite Hl, He. Qed.

Lemma fetch_loop_miss now b key rest st :
  st !! key = None →
  fetch_loop now b (key :: rest) st = fetch_loop now b rest st.
Proof. intros Hl. simpl. by rewrite Hl. Qed.

Lemma fetch_loop_denied now b key rest st e :
  st !! key = Some e → is_expired now e = false → can_access_key b e = false →
  fetch_loop now b (key :: rest) st = fetch_loop now b rest st.
Proof. intros Hl He Ha. simpl. by rewrite Hl, He, Ha. Qed.

(** A store without TTL is found by its owner, and by everyone when the
    entry is not agent-scoped, at any time. *)
Lemma fetch_permanent now now' a b k v sc st :
  k ≠ "" → b = a ∨ entry_scope sc ≠ "agent" →
  fr_exists (fetch now' b k (store now a k v sc None st).2).1 = true.
Proof.
  intros Hk Hauth. rewrite store_spec by done. simpl.
  unfold fetch. rewrite decide_False by done. unfold store_key_of.
  set (e := mkStoredValue v epoch a (entry_scope sc)).
  assert (He : ∀ t, is_expired t e = false) by (intros t; by apply is_expired_epoch).
  case_decide as Hsc.
  - destruct Hauth as [-> | ?]; [| done].
    assert (Hacc : can_access_key a e = true) by apply can_access_owner.
    pose proof (make_agent_key_ne_key a k) as Hne.
    set (st' := <[make_agent_key a k := e]> st).
    assert (Hl : st' !! make_agent_key a k = Some e) by apply lookup_insert_eq.
    destruct (st' !! k) as [e0|] eqn:Hk0.
    + destruct (is_expired now' e0) eqn:Hexp0.
      * rewrite (fetch_loop_expired _ _ _ _ _ e0) by done.
        rewrite (fetch_loop_hit _ _ _ _ _ e); [done | | done | done].
        by rewrite lookup_delete_ne.
      * destruct (can_access_key a e0) eqn:Hacc0.
        -- by rewrite (fetch_loop_hit _ _ _ _ _ e0).
        -- rewrite (fetch_loop_denied _ _ _ _ _ e0) by done.
           by rewrite (fetch_loop_hit _ _ _ _ _ e).
    + rewrite fetch_loop_miss by done.
      by rewrite (fetch_loop_hit _ _ _ _ _ e).
  - rewrite (fetch_loop_hit _ _ _ _ _ e); [done | apply lookup_insert_eq | done |].
    by apply can_access_shared.
Qed.

(** A store with a TTL whose deadline is already reached is dropped by the
    next fetch of its owner. *)
Lemma fetch_after_deadline now now' a k v sc ttl st :
  k ≠ "" → now + seconds ttl ≠ epoch → now + seconds ttl < now' →
  st !! k = None → st !! make_agent_key a k = None →
  fetch now' a k (store now a k v sc (Some ttl) st).2
    = (mkFetchResult true false JNull "", st).
Proof.
  intros Hk Hep Hlt Hbare Hagent. rewrite store_spec by done. simpl.
  unfold fetch. rewrite decide_False by done. unfold store_key_of.
  set (e := mkStoredValue v (now + seconds ttl) a (entry_scope sc)).
  assert (He : is_expired now' e = true) by (by apply is_expired_past).
  pose proof (make_agent_key_ne_key a k) as Hne.
  case_decide as Hsc.
  - rewrite fetch_loop_miss by (by rewrite lookup_insert_ne).
    rewrite (fetch_loop_expired _ _ _ _ _ e); [| apply lookup_insert_eq | done].
    simpl. by rewrite delete_insert_id.
  - rewrite (fetch_loop_expired _ _ _ _ _ e); [| apply lookup_insert_eq | done].
    rewrite delete_insert_id by done.
    rewrite fetch_loop_miss by done. done.
Qed.

(** An entry whose deadline has passed is never what a fetch of its owner
    returns: the fetch answers what it would answer had the store removed the
    key instead of writing it. *)
Lemma fetch_ignores_expired now now' a k v sc ttl st :
  k ≠ "" → now + seconds ttl ≠ epoch → now + seconds ttl < now' →
  (fetch now' a k (store now a k v sc (Some ttl) st).2).1
    = (fetch now' a k (delete (store_key_of a k sc) st)).1.
Proof.
  intros Hk Hep Hlt. rewrite store_spec by done. simpl.
  unfold fetch. rewrite !decide_False by done. unfold store_key_of.
  set (e := mkStoredValue v (now + seconds ttl) a (entry_scope sc)).
  assert (He : is_expired now' e = true) by (by apply is_expired_past).
  pose proof (make_agent_key_ne_key a k) as Hne.
  assert (k ≠ make_agent_key a k) as Hne' by (by intros Heq; apply Hne).
  case_decide as Hsc.
  - set (ak := make_agent_key a k) in *.
    assert (<[ak := e]> st !! k = st !! k) as Hk1 by (by rewrite lookup_insert_ne).
    assert (delete ak st !! k = st !! k) as Hk2 by (by rewrite lookup_delete_ne).
    assert (∀ s, fetch_loop now' a [ak] (delete ak s)
                 = (mkFetchResult true false JNull "", delete ak s)) as Hgone.
    { intros s. rewrite fetch_loop_miss; [done | apply lookup_delete_eq]. }
    assert (∀ s, s !! ak = Some e →
                 (fetch_loop now' a [ak] s).1 = mkFetchResult true false JNull "") as Hdead.
    { intros s Hs. by rewrite (fetch_loop_expired _ _ _ _ _ e). }
    destruct (st !! k) as [e0|] eqn:Hbare.
    + destruct (is_expired now' e0) eqn:Hexp.
      * rewrite (fetch_loop_expired now' a k [ak] (<[ak := e]> st) e0) by done.
        rewrite (fetch_loop_expired now' a k [ak] (delete ak st) e0) by done.
        rewrite Hdead by (by rewrite lookup_delete_ne, lookup_insert_eq).
        rewrite (delete_delete st). by rewrite Hgone.
      * destruct (can_access_key a e0) eqn:Hacc.
        -- rewrite (fetch_loop_hit now' a k [ak] (<[ak := e]> st) e0) by done.
           by rewrite (fetch_loop_hit now' a k [ak] (delete ak st) e0) by done.
        -- rewrite (fetch_loop_denied now' a k [ak] (<[ak := e]> st) e0) by done.
           rewrite (fetch_loop_denied now' a k [ak] (delete ak st) e0) by done.
           rewrite Hdead by apply lookup_insert_eq. by rewrite Hgone.
    + rewrite (fetch_loop_miss now' a k [ak] (<[ak := e]> st)) by done.
      rewrite (fetch_loop_miss now' a k [ak] (delete ak st)) by done.
      rewrite Hdead by apply lookup_insert_eq. by rewrite Hgone.
  - rewrite (fetch_loop_expired _ _ _ _ _ e); [| apply lookup_insert_eq | done].
    rewrite delete_insert_eq.
    by rewrite (fetch_loop_miss _ _ k) by apply lookup_delete_eq.
Qed.

(** C1 (amended): with a non-empty key, a store without TTL is permanent (a
    fetch by its owner, or by any agent when the entry is not agent-scoped,
    reports exists=true at every time), whereas a store with a present,
    non-positive TTL writes an entry with the deadline [now + ttl].  Unless
    that deadline is exactly the clock's epoch, the entry is expired at every
    later time: a later fetch of the key by its owner never returns it, and
    answers what it would answer had the store removed the key instead; in
    particular, when the store held no entry under the bare key nor under the
    owner's private key, the fetch reports exists=false and erases the entry,
    which leaves the store as it was. *)
Theorem C1_absent_ttl_permanent_nonpositive_ttl_expires now a k v sc st :
  k ≠ "" →
  (∀ now' b, b = a ∨ entry_scope sc ≠ "agent" →
     fr_exists (fetch now' b k (store now a k v sc None st).2).1 = true)
  ∧ (∀ ttl now',
       ttl ≤ 0 → now + seconds ttl ≠ epoch → now < now' →
       let entry := mkStoredValue v (now + seconds ttl) a (entry_scope sc) in
       let st' := (store now a k v sc (Some ttl) st).2 in
       st' !! store_key_of a k sc = Some entry
       ∧ is_expired now' entry = true
       ∧ (fetch now' a k st').1 = (fetch now' a k (delete (store_key_of a k sc) st)).1
       ∧ (st !! k = None → st !! make_agent_key a k = None →
          fetch now' a k st' = (mkFetchResult true false JNull "", st))).
Proof.
  intros Hk. split.
  - intros now' b Hauth. by apply fetch_permanent.
  - intros ttl now' Httl Hep Hlater entry st'. subst entry st'.
    assert (now + seconds ttl < now') as Hlt by (unfold seconds; lia).
    split_and!.
    + rewrite store_spec by done. apply lookup_insert_eq.
    + by apply is_expired_past.
    + by apply fetch_ignores_expired.
    + intros Hbare Hagent. by apply fetch_after_deadline.
Qed.

(** C1, as stated, fails: a global entry stored with ttl = 0 at time 100 is
    reported absent by its owner's fetch at time 101. *)
Lemma C1_counterexample :
  let st := (store 100 1 "t" (JStr "v") "global" (Some 0) ∅).2 in
  can_access_key 1 (mkStoredValue (JStr "v") 100 1 "global") = true
  ∧ fr_exists (fetch 101 1 "t" st).1 = false.
Proof. vm_compute. done. Qed.

Lemma C1_witness :
  fr_exists (fetch 5000 8 "t" (store 100 1 "t" (JStr "v") "global" None ∅).2).1 = true
  ∧ fetch 101 1 "t" (store 100 1 "t" (JStr "v") "agent" (Some (-3)) ∅).2
      = (mkFetchResult true false JNull "", ∅).
Proof.
  destruct (C1_absent_ttl_permanent_nonpositive_ttl_expires
              100 1 "t" (JStr "v") "global" ∅ ltac:(done)) as [Hperm _].
  destruct (C1_absent_ttl_permanent_nonpositive_ttl_expires
              100 1 "t" (JStr "v") "agent" ∅ ltac:(done)) as [_ Hexp].
  split.
  - apply Hperm. right. vm_compute. done.
  - destruct (Hexp (-3) 101) as (_ & _ & _ & Hgone); [lia | vm_compute; done | lia |].
    by apply Hgone.
Defined.

(** C5 (amended): let [a] and [b] be different agents and [k] a key with no
    entry under the bare key nor under [b]'s private key.  After
    [store(a, k, v, "agent")] without TTL, a fetch of [k] by [b] reports
    exists=false; and when [k] is not empty, a fetch by [a] reports
    exists=true with value [v] and scope "agent".  (An empty key is rejected
    by [store], which then writes nothing.) *)
Theorem C5_agent_scope_isolation now now1 now2 a b k v st :
  a ≠ b →
  st !! k = None → st !! make_agent_key b k = None →
  let st' := (store now a k v "agent" None st).2 in
  fr_exists (fetch now1 b k st').1 = false
  ∧ (k ≠ "" →
     fetch now1 b k st' = (mkFetchResult true false JNull "", st')
     ∧ fetch now2 a k st' = (mkFetchResult true true v "agent", st')).
Proof.
  intros Hab Hbare Hb st'. subst st'.
  destruct (decide (k = "")) as [-> | Hk]; [done |].
  rewrite store_spec by done. simpl.
  unfold fetch. rewrite !decide_False by done.
  change (store_key_of a k "agent") with (make_agent_key a k).
  change (entry_scope "agent") with "agent".
  set (e := mkStoredValue v epoch a "agent").
  pose proof (make_agent_key_ne_key a k) as Hne.
  assert (make_agent_key a k ≠ make_agent_key b k) as Hneb
    by (intros Heq; by apply make_agent_key_inj_agent in Heq).
  assert (fetch_loop now1 b [k; make_agent_key b k] (<[make_agent_key a k:=e]> st)
          = (mkFetchResult true false JNull "", <[make_agent_key a k:=e]> st)) as Hfb.
  { rewrite fetch_loop_miss by (by rewrite lookup_insert_ne).
    rewrite fetch_loop_miss by (by rewrite lookup_insert_ne).
    done. }
  split; [by rewrite Hfb |]. intros _. split; [done |].
  rewrite fetch_loop_miss by (by rewrite lookup_insert_ne).
  rewrite (fetch_loop_hit _ _ _ _ _ e); [done | apply lookup_insert_eq | done |].
  unfold can_access_key; simpl. by rewrite decide_True.
Qed.

(** C5, as stated for every key, fails at the empty key: [store] rejects it
    and writes nothing, so the owner's fetch reports exists=false. *)
Lemma C5_counterexample :
  sr_success (store 100 7 "" (JInt 42) "agent" None ∅).1 = false
  ∧ fr_exists (fetch 200 7 "" (store 100 7 "" (JInt 42) "agent" None ∅).2).1 = false.
Proof. vm_compute. done. Qed.

(** Scenario E2 of the specification. *)
Lemma C5_witness :
  let st' := (store 100 7 "x" (JInt 42) "agent" None ∅).2 in
  fetch 200 8 "x" st' = (mkFetchResult true false JNull "", st')
  ∧ fetch 300 7 "x" st' = (mkFetchResult true true (JInt 42) "agent", st').
Proof.
  apply (C5_agent_scope_isolation 100 200 300 7 8 "x" (JInt 42) ∅); done.
Defined.

Lemma keys_fold_names now a q l acc (s : gmap string StoredValue) :
  (foldl (λ acc entry, keys_step now a q entry acc) (acc, s) l).1
    = (acc ++ omap (keys_report now a q) l)%list.
Proof.
  revert acc s. induction l as [|[key v] l IH]; intros acc s; simpl.
  - by rewrite app_nil_r.
  - unfold keys_report at 1; simpl.
    destruct (is_expired now v); [apply IH |].
    destruct (negb (can_access_key a v)); [apply IH |].
    destruct (bool_decide (q = "") || starts_with q key); [| apply IH].
    rewrite IH. by rewrite <- app_assoc.
Qed.

(** What [keys] returns: the reported names of the live, accessible entries
    whose physical key starts with the requested prefix. *)
Lemma keys_spec now a q st n :
  n ∈ (keys now a q st).1 ↔
  ∃ key v, st !! key = Some v ∧ is_expired now v = false
           ∧ can_access_key a v = true
           ∧ (q = "" ∨ starts_with q key = true)
           ∧ n = reported_name key.
Proof.
  unfold keys. rewrite keys_fold_names. simpl. rewrite list_elem_of_omap. split.
  - intros [[key v] [Hin Hrep]]. apply elem_of_map_to_list in Hin.
    unfold keys_report in Hrep; simpl in Hrep.
    destruct (is_expired now v) eqn:?; [done |].
    destruct (can_access_key a v) eqn:?; [| done]. simpl in Hrep.
    destruct (bool_decide (q = "") || starts_with q key) eqn:Hm; [| done].
    exists key, v. repeat split; try done.
    + apply orb_true_iff in Hm as [Hm | Hm]; [left; by apply bool_decide_eq_true in Hm | by right].
    + by injection Hrep.
  - intros (key & v & Hl & Hexp & Hacc & Hq & ->).
    exists (key, v). split; [by apply elem_of_map_to_list |].
    unfold keys_report; simpl. rewrite Hexp, Hacc. simpl.
    destruct Hq as [-> | ->]; [done | by rewrite orb_true_r].
Qed.

(** C4 (evaluation at the failing input): agent 7 owns the live agent-scoped
    entry "x"; its user-visible name starts with the prefix "x", yet
    [keys(7, "x")] is empty, because the prefix is compared with the physical
    key "agent:7:x".  The entry is listed for the prefixes "" and "agent:7:". *)
Theorem C4_keys_filters_on_physical_key :
  let st := (store 100 7 "x" (JInt 42) "agent" None ∅).2 in
  let e := mkStoredValue (JInt 42) epoch 7 "agent" in
  st !! "agent:7:x" = Some e
  ∧ is_expired 200 e = false ∧ can_access_key 7 e = true
  ∧ visible_name "agent:7:x" e = "x" ∧ starts_with "x" "x" = true
  ∧ (keys 200 7 "x" st).1 = []
  ∧ (keys 200 7 "" st).1 = ["x"]
  ∧ (keys 200 7 "agent:7:" st).1 = ["x"].
Proof. vm_compute. done. Qed.

End state_store.
(** ** Supervisor: backoff delay *)

Section backoff.
Import Supervisor.
Import SpecFloat.

(** *** Integers as doubles *)















(** *** The delay *)






End backoff.

(** ** Supervisor: restart limit and escalation *)

Section supervisor.
Import Supervisor.

Implicit Types (m : AgentManager) (name : string).

Lemma events_of_emit m name ty n count code :
  List.filter (λ e, bool_decide (event_agent e = name))
     (emit_restart_event m ty n count code)
  = if restart_event_callback_ m && bool_decide (n = name)
    then (events_of name m ++ [mkRestartEvent ty n count code])%list
    else events_of name m.
Proof.
  unfold emit_restart_event, events_of.
  destruct (restart_event_callback_ m); simpl; [| done].
  rewrite List.filter_app. simpl.
  destruct (bool_decide (n = name)); [done | by rewrite app_nil_r].
Qed.

Lemma pending_of_push (l : list PendingRestart) name p :
  List.filter (λ p, bool_decide (agent_name p = name)) (l ++ [p])
  = if bool_decide (agent_name p = name)
    then (List.filter (λ p, bool_decide (agent_name p = name)) l ++ [p])%list
    else List.filter (λ p, bool_decide (agent_name p = name)) l.
Proof.
  rewrite List.filter_app. simpl.
  destruct (bool_decide (agent_name p = name)); [done | by rewrite app_nil_r].
Qed.

(** Handling another dead agent leaves the view of [name] alone. *)
Lemma handle_dead_agent_other now name n m :
  n ≠ name → view name (handle_dead_agent now n m) = view name m.
Proof.
  intros Hne. unfold handle_dead_agent.
  destruct (agents_by_name_ m !! n) as [agent|]; [| done].
  destruct (saved_configs_ m !! n) as [cfg|].
  2: { unfold view, events_of, pending_of; simpl. by rewrite lookup_delete_ne. }
  repeat (case_match || case_decide);
    unfold view, pending_of; unfold events_of at 1; simpl;
    rewrite ?events_of_emit, ?pending_of_push; simpl;
    rewrite ?(bool_decide_eq_false_2 (n = name)) by done;
    rewrite ?andb_false_r;
    rewrite ?lookup_delete_ne, ?lookup_insert_ne by done; done.
Qed.

Lemma foldl_handle_others now name l m :
  name ∉ l →
  view name (foldl (λ m n, handle_dead_agent now n m) m l) = view name m.
Proof.
  revert m. induction l as [|n l IH]; intros m Hnotin; [done |].
  simpl. rewrite IH by set_solver.
  apply handle_dead_agent_other. set_solver.
Qed.

Lemma NoDup_filter_fst {A} (f : string * A → bool) (l : list (string * A)) :
  NoDup l.*1 → NoDup (List.filter f l).*1.
Proof.
  induction l as [|[k a] l IH]; simpl; [done |].
  rewrite NoDup_cons. intros [Hk Hnd].
  assert (k ∉ (List.filter f l).*1) as Hk'.
  { intros Hin. apply Hk. apply list_elem_of_fmap in Hin as [[k' a'] [-> Hin]].
    apply list_elem_of_In, filter_In in Hin as [Hin _].
    apply list_elem_of_fmap. exists (k', a'). split; [done | by apply list_elem_of_In]. }
  destruct (f (k, a)); simpl; [apply NoDup_cons; split |]; auto.
Qed.

Lemma failed_in_dead_agents name code m :
  failed_with name code m → name ∈ dead_agents m.
Proof.
  intros (agent & Hl & Hdead & _). unfold dead_agents.
  apply list_elem_of_fmap. exists (name, agent). split; [done |].
  apply list_elem_of_In, filter_In. split; [| done].
  apply list_elem_of_In. by apply elem_of_map_to_list.
Qed.

(** A tick handles a failed agent exactly once, in a manager that looks to
    this agent like the one the tick started from. *)
Lemma reap_view name code now m :
  failed_with name code m →
  ∃ m0, view name m0 = view name m
        ∧ view name (reap_and_restart_agents now m)
          = view name (handle_dead_agent now name m0).
Proof.
  intros Hfail. pose proof (failed_in_dead_agents _ _ _ Hfail) as Hin.
  assert (NoDup (dead_agents m)) as Hnd.
  { apply NoDup_filter_fst, NoDup_fst_map_to_list. }
  apply list_elem_of_split in Hin as (l1 & l2 & Hsplit).
  rewrite Hsplit in Hnd. apply NoDup_app in Hnd as (_ & Hl1 & Hnd2).
  apply NoDup_cons in Hnd2 as [Hl2 _].
  assert (name ∉ l1) as Hl1' by (intros Hin; apply (Hl1 _ Hin); by left).
  exists (foldl (λ m n, handle_dead_agent now n m) m l1). split.
  - by apply foldl_handle_others.
  - unfold reap_and_restart_agents. rewrite Hsplit, foldl_app. simpl.
    by apply foldl_handle_others.
Qed.

(** The tick on a failed ALWAYS agent below the restart limit of the window
    the failure is counted in: one restart is scheduled, one AGENT_RESTARTING
    is sent. *)
Lemma handle_dead_agent_restart now name m agent cfg st :
  agents_by_name_ m !! name = Some agent →
  saved_configs_ m !! name = Some cfg →
  restart_states_ m !! name = Some st →
  restart_event_callback_ m = true →
  policy (restart cfg) = ALWAYS →
  let w := window_state now (restart cfg) st in
  restart_count w < max_restarts (restart cfg) →
  view name (handle_dead_agent now name m)
  = mkSupervision None
      (Some (mkRestartState (incr32 (restart_count w)) (window_start w)
               (incr32 (consecutive_failures w)) (escalated w)))
      (Some cfg) true
      (events_of name m ++
         [mkRestartEvent "AGENT_RESTARTING" name (incr32 (restart_count w)) (exit_code agent)])
      (pending_of name m ++
         [mkPendingRestart name
            (now + milliseconds (calculate_backoff_delay (restart cfg) (consecutive_failures w)))
            cfg]).
Proof.
  intros Hagent Hcfg Hst Hcb Hpol w Hcount. subst w. unfold window_state in *.
  unfold handle_dead_agent. rewrite Hagent, Hcfg, Hst, Hpol. simpl.
  destruct (decide (to_seconds (now - window_start st) >= restart_window_sec (restart cfg)));
    simpl in *; rewrite decide_False by lia;
    unfold view, pending_of; unfold events_of at 1; simpl;
    rewrite events_of_emit, pending_of_push, Hcb; simpl;
    rewrite ?bool_decide_eq_true_2 by done;
    by rewrite lookup_delete_eq, lookup_insert_eq, Hcfg.
Qed.

(** The same tick at the restart limit: nothing is scheduled, and
    AGENT_ESCALATED is sent unless it was sent before. *)
Lemma handle_dead_agent_limit now name m agent cfg st :
  agents_by_name_ m !! name = Some agent →
  saved_configs_ m !! name = Some cfg →
  restart_states_ m !! name = Some st →
  restart_event_callback_ m = true →
  policy (restart cfg) = ALWAYS →
  let w := window_state now (restart cfg) st in
  restart_count w >= max_restarts (restart cfg) →
  view name (handle_dead_agent now name m)
  = mkSupervision None
      (Some (mkRestartState (restart_count w) (window_start w) (consecutive_failures w) true))
      (Some cfg) true
      (events_of name m ++
         (if escalated w then []
          else [mkRestartEvent "AGENT_ESCALATED" name (restart_count w) (exit_code agent)]))
      (pending_of name m).
Proof.
  intros Hagent Hcfg Hst Hcb Hpol w Hcount. subst w. unfold window_state in *.
  unfold handle_dead_agent. rewrite Hagent, Hcfg, Hst, Hpol. simpl.
  destruct st as [c ws cf esc]; simpl in *.
  destruct (decide (to_seconds (now - ws) >= restart_window_sec (restart cfg)));
    simpl in *; rewrite decide_True by lia; destruct esc; simpl;
    unfold view, pending_of; unfold events_of at 1; simpl;
    rewrite ?events_of_emit, ?Hcb; simpl;
    rewrite ?bool_decide_eq_true_2 by done;
    by rewrite lookup_delete_eq, lookup_insert_eq, Hcfg, ?app_nil_r.
Qed.

Lemma view_fields name m m0 :
  view name m0 = view name m →
  agents_by_name_ m0 !! name = agents_by_name_ m !! name
  ∧ restart_states_ m0 !! name = restart_states_ m !! name
  ∧ saved_configs_ m0 !! name = saved_configs_ m !! name
  ∧ restart_event_callback_ m0 = restart_event_callback_ m
  ∧ events_of name m0 = events_of name m
  ∧ pending_of name m0 = pending_of name m.
Proof. unfold view. intros [= -> -> -> -> -> ->]. done. Qed.

(** What one tick does for a failed ALWAYS agent, in the window the failure
    is counted in. *)
Lemma tick_effect name code now m cfg st :
  failed_with name code m →
  saved_configs_ m !! name = Some cfg →
  restart_states_ m !! name = Some st →
  restart_event_callback_ m = true →
  policy (restart cfg) = ALWAYS →
  let w := window_state now (restart cfg) st in
  let m' := reap_and_restart_agents now m in
  saved_configs_ m' !! name = Some cfg
  ∧ restart_event_callback_ m' = true
  ∧ events_of name m' = (events_of name m ++ tick_events name now m)%list
  ∧ if decide (restart_count w >= max_restarts (restart cfg)) then
      restart_states_ m' !! name
        = Some (mkRestartState (restart_count w) (window_start w)
                  (consecutive_failures w) true)
      ∧ tick_scheduled name now m = []
      ∧ tick_events name now m
        = (if escalated w then []
           else [mkRestartEvent "AGENT_ESCALATED" name (restart_count w) code])
    else
      restart_states_ m' !! name
        = Some (mkRestartState (incr32 (restart_count w)) (window_start w)
                  (incr32 (consecutive_failures w)) (escalated w))
      ∧ tick_scheduled name now m
        = [mkPendingRestart name
             (now + milliseconds (calculate_backoff_delay (restart cfg) (consecutive_failures w)))
             cfg]
      ∧ tick_events name now m
        = [mkRestartEvent "AGENT_RESTARTING" name (incr32 (restart_count w)) code].
Proof.
  intros Hfail Hcfg Hst Hcb Hpol w m'. subst w m'.
  destruct (reap_view name code now m Hfail) as (m0 & Hv0 & Hv).
  apply view_fields in Hv0 as (Ha0 & Hs0 & Hc0 & Hcb0 & He0 & Hp0).
  destruct Hfail as (agent & Hagent & _ & Hcode).
  rewrite Hagent in Ha0. rewrite Hst in Hs0. rewrite Hcfg in Hc0. rewrite Hcb in Hcb0.
  unfold tick_events, tick_scheduled.
  case_decide as Hlim.
  - rewrite (handle_dead_agent_limit now name m0 agent cfg st) in Hv by done.
    unfold view in Hv. injection Hv as _ -> -> -> -> ->.
    rewrite He0, Hp0, Hcode.
    rewrite drop_app_length, drop_all. done.
  - rewrite (handle_dead_agent_restart now name m0 agent cfg st) in Hv by (done || lia).
    unfold view in Hv. injection Hv as _ -> -> -> -> ->.
    rewrite He0, Hp0, Hcode.
    rewrite !drop_app_length. done.
Qed.

Lemma escalation_count_cons f fs :
  escalation_count (f :: fs)
  = (length (List.filter is_escalation (f_events f)) + escalation_count fs)%nat.
Proof.
  unfold escalation_count. simpl. by rewrite List.filter_app, length_app.
Qed.

(** A new window keeps the [escalated] flag. *)
Lemma window_state_escalated now cfg st :
  escalated (window_state now cfg st) = escalated st.
Proof.
  unfold window_state.
  by destruct (decide (to_seconds (now - window_start st) >= restart_window_sec cfg)).
Qed.

(** A failure inside the window of a state is counted in that state. *)
Lemma window_in_force_inside cfg st fs :
  Forall (λ f, to_seconds (f_time f - window_start st) < restart_window_sec cfg) fs →
  window_in_force cfg st fs = st.
Proof.
  intros Hwin. destruct fs as [|f fs]; [done |].
  apply Forall_cons in Hwin as [Hw _]. simpl. unfold window_state.
  by rewrite decide_False by lia.
Qed.

(** A run of failures of an ALWAYS agent inside the window in force: the
    failures below the restart limit are restarted, the first one at the limit
    escalates unless the agent has escalated before, the later ones are
    dropped. *)
Lemma failures_in_window name cfg m fs m' :
  failures name m fs m' →
  saved_configs_ m !! name = Some cfg →
  policy (restart cfg) = ALWAYS →
  max_restarts (restart cfg) < 4294967296 →
  ∀ st,
  restart_states_ m !! name = Some st →
  restart_event_callback_ m = true →
  let k := max_restarts (restart cfg) in
  let w := window_in_force (restart cfg) st fs in
  let c := restart_count w in
  0 ≤ c ≤ k →
  Forall (λ f, to_seconds (f_time f - window_start w) < restart_window_sec (restart cfg)) fs →
  (∀ i f, fs !! i = Some f →
     (Z.of_nat i < k - c →
        f_events f = [mkRestartEvent "AGENT_RESTARTING" name (c + Z.of_nat i + 1) (f_code f)]
        ∧ length (f_scheduled f) = 1%nat)
     ∧ (Z.of_nat i = k - c →
        f_events f = (if escalated st then []
                      else [mkRestartEvent "AGENT_ESCALATED" name k (f_code f)])
        ∧ f_scheduled f = [])
     ∧ (Z.of_nat i > k - c → f_events f = [] ∧ f_scheduled f = []))
  ∧ escalation_count fs
    = (if escalated st then 0
       else if decide (Z.of_nat (length fs) > k - c)%Z then 1 else 0)%nat
  ∧ events_of name m' = (events_of name m ++ concat (f_events <$> fs))%list.
Proof.
  intros Hrun Hcfg Hpol Hk.
  induction Hrun as [m | m m1 t code fs m' Hund Hfail Hrun IH];
    intros st Hst Hcb k w c Hc Hwin.
  - split_and!; [done | | by rewrite app_nil_r].
    unfold escalation_count. simpl. destruct (escalated st); [done |].
    by rewrite decide_False by (simpl; lia).
  - destruct Hund as (Hs1 & Hc1 & Hcb1 & He1).
    rewrite Hcfg in Hc1. rewrite Hst in Hs1. rewrite Hcb in Hcb1.
    apply Forall_cons in Hwin as [Hw Hwin]. simpl in Hw.
    destruct (tick_effect name code t m1 cfg st Hfail Hc1 Hs1 Hcb1 Hpol)
      as (Hc2 & Hcb2 & He2 & Hcase).
    change (window_state t (restart cfg) st) with w in Hcase.
    assert (escalated w = escalated st) as Hesc.
    { apply window_state_escalated. }
    fold c in Hcase. fold k in Hcase.
    case_decide as Hlim.
    + (* the limit is reached: this failure escalates, unless it has before *)
      assert (c = k) as Hck by lia.
      destruct Hcase as (Hs2 & Hsched & Hev). rewrite Hesc in Hev.
      set (st2 := mkRestartState c (window_start w) (consecutive_failures w) true) in *.
      assert (window_in_force (restart cfg) st2 fs = st2) as Hw2
        by (by apply window_in_force_inside).
      specialize (IH Hc2 st2 Hs2 Hcb2). cbv zeta in IH. rewrite Hw2 in IH.
      destruct (IH ltac:(simpl; lia) Hwin) as (Hpt & Hcount & Hlog).
      simpl in Hpt, Hcount. fold k in Hpt.
      split_and!.
      * intros [|i] f Hi; simpl in Hi.
        -- injection Hi as <-. simpl. rewrite Hev, Hsched, Hck.
           split_and!; intros Hlt; (done || lia).
        -- destruct (Hpt i f Hi) as (H1 & H2 & H3).
           split_and!; intros Hlt; try lia.
           destruct (decide (Z.of_nat i = k - c)) as [Hi0 | Hi0].
           ++ by destruct (H2 Hi0).
           ++ apply H3. lia.
      * rewrite escalation_count_cons. simpl. rewrite Hev, Hcount.
        destruct (escalated st); [done |].
        by rewrite decide_True by lia.
      * rewrite Hlog, He2, He1. simpl. by rewrite app_assoc.
    + (* below the limit: this failure schedules a restart *)
      destruct Hcase as (Hs2 & Hsched & Hev).
      assert (incr32 c = c + 1) as Hincr by (unfold incr32; apply Z.mod_small; lia).
      rewrite Hincr in Hs2, Hev. rewrite Hesc in Hs2.
      set (st2 := mkRestartState (c + 1) (window_start w)
                    (incr32 (consecutive_failures w)) (escalated st)) in *.
      assert (window_in_force (restart cfg) st2 fs = st2) as Hw2
        by (by apply window_in_force_inside).
      specialize (IH Hc2 st2 Hs2 Hcb2). cbv zeta in IH. rewrite Hw2 in IH.
      destruct (IH ltac:(simpl; lia) Hwin) as (Hpt & Hcount & Hlog).
      simpl in Hpt, Hcount. fold k in Hpt, Hcount.
      split_and!.
      * intros [|i] f Hi; simpl in Hi.
        -- injection Hi as <-. simpl. rewrite Hev, Hsched.
           split_and!; intros Hlt; try lia.
           split; [| done]. by rewrite Z.add_0_r.
        -- destruct (Hpt i f Hi) as (H1 & H2 & H3).
           split_and!; intros Hlt.
           ++ destruct H1 as [-> ->]; [lia |]. split; [| done]. do 3 f_equal. lia.
           ++ apply H2. lia.
           ++ apply H3. lia.
      * rewrite escalation_count_cons. simpl. rewrite Hev. simpl. rewrite Hcount.
        destruct (escalated st); [done |].
        repeat case_decide; simpl in *; lia.
      * rewrite Hlog, He2, He1. simpl. by rewrite app_assoc.
Qed.

(** Whatever the times and the counters, a tick on a failed ALWAYS agent
    sends AGENT_ESCALATED only when it sets the [escalated] flag, and never
    clears the flag. *)
Lemma handle_dead_agent_escalation now name m agent cfg st :
  agents_by_name_ m !! name = Some agent →
  saved_configs_ m !! name = Some cfg →
  restart_states_ m !! name = Some st →
  restart_event_callback_ m = true →
  policy (restart cfg) = ALWAYS →
  ∃ st' evs,
    view name (handle_dead_agent now name m)
    = mkSupervision None (Some st') (Some cfg) true (events_of name m ++ evs)
        (sv_pending (view name (handle_dead_agent now name m)))
    ∧ length (List.filter is_escalation evs)
      = (if negb (escalated st) && escalated st' then 1 else 0)%nat
    ∧ (escalated st = true → escalated st' = true).
Proof.
  intros Hagent Hcfg Hst Hcb Hpol.
  unfold handle_dead_agent. rewrite Hagent, Hcfg, Hst, Hpol. simpl.
  set (st1 := if decide (to_seconds (now - window_start st) >= restart_window_sec (restart cfg))
              then mkRestartState 0 now 0 (escalated st) else st).
  assert (escalated st1 = escalated st) as Hesc by (unfold st1; by case_decide).
  destruct (decide (restart_count st1 >= max_restarts (restart cfg))) as [Hlim | Hlim].
  - destruct (escalated st1) eqn:Hesc1; simpl.
    + exists st1, []. unfold view, pending_of, events_of; simpl.
      rewrite lookup_delete_eq, lookup_insert_eq, Hcfg, Hcb, app_nil_r.
      rewrite Hesc1, <- Hesc. by destruct (escalated st1).
    + eexists _, [_]. unfold view, pending_of; unfold events_of at 1; simpl.
      rewrite events_of_emit, Hcb. simpl. rewrite ?bool_decide_eq_true_2 by done.
      rewrite lookup_delete_eq, lookup_insert_eq, Hcfg.
      split; [reflexivity |]. simpl. rewrite <- Hesc. done.
  - eexists _, [_]. unfold view, pending_of; unfold events_of at 1; simpl.
    rewrite events_of_emit, Hcb. simpl. rewrite ?bool_decide_eq_true_2 by done.
    rewrite lookup_delete_eq, lookup_insert_eq, Hcfg.
    split; [reflexivity |]. simpl. rewrite Hesc. by destruct (escalated st).
Qed.

Lemma tick_escalation name code now m cfg st :
  failed_with name code m →
  saved_configs_ m !! name = Some cfg →
  restart_states_ m !! name = Some st →
  restart_event_callback_ m = true →
  policy (restart cfg) = ALWAYS →
  let m' := reap_and_restart_agents now m in
  ∃ st',
    restart_states_ m' !! name = Some st'
    ∧ saved_configs_ m' !! name = Some cfg
    ∧ restart_event_callback_ m' = true
    ∧ length (List.filter is_escalation (tick_events name now m))
      = (if negb (escalated st) && escalated st' then 1 else 0)%nat
    ∧ (escalated st = true → escalated st' = true).
Proof.
  intros Hfail Hcfg Hst Hcb Hpol m'. subst m'.
  destruct (reap_view name code now m Hfail) as (m0 & Hv0 & Hv).
  apply view_fields in Hv0 as (Ha0 & Hs0 & Hc0 & Hcb0 & He0 & Hp0).
  destruct Hfail as (agent & Hagent & _ & Hcode).
  rewrite Hagent in Ha0. rewrite Hst in Hs0. rewrite Hcfg in Hc0. rewrite Hcb in Hcb0.
  destruct (handle_dead_agent_escalation now name m0 agent cfg st Ha0 Hc0 Hs0 Hcb0 Hpol)
    as (st' & evs & Hview & Hlen & Hmono).
  rewrite Hview in Hv. unfold view in Hv. injection Hv as _ Hs Hc Hcb' He _.
  exists st'. unfold tick_events.
  rewrite Hs, Hc, Hcb', He, He0, drop_app_length. done.
Qed.

(** Over any run of failures of an ALWAYS agent, whatever their times,
    AGENT_ESCALATED is sent at most once, and never again once the agent has
    escalated. *)
Lemma escalation_at_most_once name cfg m fs m' :
  failures name m fs m' →
  saved_configs_ m !! name = Some cfg →
  policy (restart cfg) = ALWAYS →
  restart_event_callback_ m = true →
  ∀ st, restart_states_ m !! name = Some st →
  (escalation_count fs ≤ 1)%nat
  ∧ (escalated st = true → escalation_count fs = 0%nat).
Proof.
  intros Hrun Hcfg Hpol.
  induction Hrun as [m | m m1 t code fs m' Hund Hfail Hrun IH]; intros Hcb st Hst.
  - unfold escalation_count. simpl. split; [lia | done].
  - destruct Hund as (Hs1 & Hc1 & Hcb1 & He1).
    rewrite Hcfg in Hc1. rewrite Hst in Hs1. rewrite Hcb in Hcb1.
    destruct (tick_escalation name code t m1 cfg st Hfail Hc1 Hs1 Hcb1 Hpol)
      as (st' & Hs2 & Hc2 & Hcb2 & Hlen & Hmono).
    destruct (IH Hc2 Hcb2 st' Hs2) as [Hle Hzero].
    rewrite escalation_count_cons. simpl. rewrite Hlen.
    destruct (escalated st) eqn:Hesc; simpl.
    + rewrite (Hzero (Hmono eq_refl)). split; [lia | done].
    + split; [| done]. destruct (escalated st') eqn:Hesc'; [| lia].
      rewrite (Hzero eq_refl). lia.
Qed.

(** What happens between ticks in the manager's own operations leaves the
    supervision of every agent undisturbed. *)
Lemma undisturbed_refl name m : undisturbed name m m.
Proof. by repeat split. Qed.

Lemma undisturbed_trans name m1 m2 m3 :
  undisturbed name m1 m2 → undisturbed name m2 m3 → undisturbed name m1 m3.
Proof.
  intros (Hs & Hc & Hcb & He) (Hs' & Hc' & Hcb' & He').
  repeat split; congruence.
Qed.

Lemma process_exit_undisturbed name n code m :
  undisturbed name m (process_exit n code m).
Proof.
  unfold process_exit. destruct (agents_by_name_ m !! n); by repeat split.
Qed.

Lemma process_pending_restarts_undisturbed name now start m :
  undisturbed name m (process_pending_restarts now start m).
Proof.
  unfold process_pending_restarts.
  destruct (pending_restarts_ m) as [|p l]; [by repeat split |].
  destruct (launch_due now start (p :: l) (agents_by_name_ m, agents_by_id_ m, []))
    as [[by_name by_id] still_pending].
  by repeat split.
Qed.

(** C6 (amended): an agent with policy ALWAYS, [max_restarts = k] and window
    [W], in any restart state, with an event callback installed.  Over any
    run of its failures AGENT_ESCALATED is sent at most once, and not at all
    when the agent has escalated before: the flag is never cleared, not by a
    new window either.  When the failures of the run all lie inside the
    window in force (the one the first failure finds, or starts when it comes
    [W] seconds or more after the start of the last one), with [c] restarts
    counted in it: each of the first [k - c] failures schedules one restart
    and sends AGENT_RESTARTING; the next failure schedules nothing and sends
    AGENT_ESCALATED, unless the agent has escalated before, when it sends
    nothing; every later failure schedules nothing and sends nothing.  So
    AGENT_ESCALATED is sent exactly once when the agent had not escalated and
    the run has more than [k - c] failures, and not at all otherwise. *)
Theorem C6_escalation_exactly_once name cfg st m fs m' :
  saved_configs_ m !! name = Some cfg →
  policy (restart cfg) = ALWAYS →
  0 ≤ max_restarts (restart cfg) < 4294967296 →
  restart_states_ m !! name = Some st →
  restart_event_callback_ m = true →
  failures name m fs m' →
  ((escalation_count fs ≤ 1)%nat ∧ (escalated st = true → escalation_count fs = 0%nat))
  ∧ (let k := max_restarts (restart cfg) in
     let w := window_in_force (restart cfg) st fs in
     let c := restart_count w in
     0 ≤ c ≤ k →
     Forall (λ f, to_seconds (f_time f - window_start w) < restart_window_sec (restart cfg))
       fs →
     (∀ i f, fs !! i = Some f → Z.of_nat i < k - c →
        f_events f = [mkRestartEvent "AGENT_RESTARTING" name (c + Z.of_nat i + 1) (f_code f)]
        ∧ length (f_scheduled f) = 1%nat)
     ∧ (∀ i f, fs !! i = Some f → Z.of_nat i = k - c →
          f_events f = (if escalated st then []
                        else [mkRestartEvent "AGENT_ESCALATED" name k (f_code f)]))
     ∧ (∀ i f, fs !! i = Some f → Z.of_nat i > k - c → f_events f = [])
     ∧ (∀ i f, fs !! i = Some f → Z.of_nat i >= k - c → f_scheduled f = [])
     ∧ escalation_count fs
       = (if escalated st then 0
          else if decide (Z.of_nat (length fs) > k - c)%Z then 1 else 0)%nat
     ∧ events_of name m' = (events_of name m ++ concat (f_events <$> fs))%list).
Proof.
  intros Hcfg Hpol Hk Hst Hcb Hrun. split.
  - by apply (escalation_at_most_once name cfg m fs m').
  - intros k w c Hc Hwin.
    destruct (failures_in_window name cfg m fs m' Hrun Hcfg Hpol ltac:(lia)
                st Hst Hcb Hc Hwin) as (Hpt & Hcount & Hlog).
    fold k w c in Hpt, Hcount.
    split_and!; [| | | | done | done].
    + intros i f Hi Hlt. by destruct (Hpt i f Hi) as (H1 & _ & _); apply H1.
    + intros i f Hi Heq. destruct (Hpt i f Hi) as (_ & H2 & _). by destruct (H2 Heq).
    + intros i f Hi Hgt. destruct (Hpt i f Hi) as (_ & _ & H3). by destruct (H3 Hgt).
    + intros i f Hi Hge. destruct (Hpt i f Hi) as (_ & H2 & H3).
      destruct (decide (Z.of_nat i = k - c)) as [Heq | Hne].
      * by destruct (H2 Heq).
      * destruct H3 as [_ ->]; [lia | done].
Qed.

Lemma sample_run : failures "worker" sample_spawned sample_failures sample_reaped_2.
Proof.
  unfold sample_failures.
  apply (failures_cons "worker" sample_spawned sample_failed_1).
  { apply process_exit_undisturbed. }
  { eexists. repeat split; vm_compute; reflexivity. }
  apply (failures_cons "worker" sample_reaped_1 sample_failed_2).
  { eapply undisturbed_trans;
      [apply process_pending_restarts_undisturbed | apply process_exit_undisturbed]. }
  { eexists. repeat split; vm_compute; reflexivity. }
  apply failures_nil.
Defined.

(** The first two failures of the run across the end of the window, from the
    spawn on; and the last two, from the first tick on. *)
Lemma straddle_run_from_spawn :
  failures "worker" straddle_spawned [straddle_failure_1; straddle_failure_2] straddle_reaped_2.
Proof.
  apply (failures_cons "worker" straddle_spawned straddle_failed_1).
  { apply process_exit_undisturbed. }
  { eexists. repeat split; vm_compute; reflexivity. }
  apply (failures_cons "worker" straddle_reaped_1 straddle_failed_2).
  { eapply undisturbed_trans;
      [apply process_pending_restarts_undisturbed | apply process_exit_undisturbed]. }
  { eexists. repeat split; vm_compute; reflexivity. }
  apply failures_nil.
Defined.

Lemma straddle_run_from_first_tick :
  failures "worker" straddle_reaped_1 [straddle_failure_2; straddle_failure_3] straddle_reaped_3.
Proof.
  apply (failures_cons "worker" straddle_reaped_1 straddle_failed_2).
  { eapply undisturbed_trans;
      [apply process_pending_restarts_undisturbed | apply process_exit_undisturbed]. }
  { eexists. repeat split; vm_compute; reflexivity. }
  apply (failures_cons "worker" straddle_reaped_2 straddle_failed_3).
  { eapply undisturbed_trans;
      [apply process_pending_restarts_undisturbed | apply process_exit_undisturbed]. }
  { eexists. repeat split; vm_compute; reflexivity. }
  apply failures_nil.
Defined.

(** C6, as stated, fails: the window is fixed, not sliding.  With
    [max_restarts = 1] and a window of 10 s started at the spawn, the agent
    fails at 9 s and again at 11 s, twice within 2 s; the second failure
    starts a new window, so both failures are restarted and no
    AGENT_ESCALATED is sent. *)
Lemma C6_counterexample :
  failures "worker" straddle_spawned [straddle_failure_1; straddle_failure_2] straddle_reaped_2
  ∧ restart straddle_config = mkRestartConfig ALWAYS 1 10 100 1000 (double_of_Z 2)
  ∧ f_time <$> [straddle_failure_1; straddle_failure_2] = [9000000000; 11000000000]
  ∧ escalation_count [straddle_failure_1; straddle_failure_2] = 0%nat
  ∧ events_of "worker" straddle_reaped_2
    = [ mkRestartEvent "AGENT_RESTARTING" "worker" 1 1;
        mkRestartEvent "AGENT_RESTARTING" "worker" 1 1 ].
Proof.
  split; [exact straddle_run_from_spawn |].
  split_and!; vm_compute; reflexivity.
Qed.

(** In the sample run the agent escalates at its second failure; in the run
    across the end of the window the failure at 11 s starts a new window, and
    the failure at 12 s, the second of that window, escalates. *)
Lemma C6_witness :
  (escalation_count sample_failures = 1%nat
   ∧ events_of "worker" sample_reaped_2
     = [ mkRestartEvent "AGENT_RESTARTING" "worker" 1 1;
         mkRestartEvent "AGENT_ESCALATED" "worker" 1 1 ])
  ∧ escalation_count [straddle_failure_2; straddle_failure_3] = 1%nat.
Proof.
  split.
  - destruct (C6_escalation_exactly_once "worker" sample_config (mkRestartState 0 0 0 false)
                sample_spawned sample_failures sample_reaped_2)
      as (_ & Hwindow);
      [vm_compute; reflexivity | reflexivity | simpl; lia | vm_compute; reflexivity
      | reflexivity | exact sample_run |].
    destruct Hwindow as (_ & _ & _ & _ & Hcount & Hlog).
    + vm_compute. split; discriminate.
    + repeat constructor; vm_compute; reflexivity.
    + split; [rewrite Hcount; vm_compute; reflexivity |].
      rewrite Hlog. vm_compute. reflexivity.
  - destruct (C6_escalation_exactly_once "worker" straddle_config
                (mkRestartState 1 0 1 false)
                straddle_reaped_1 [straddle_failure_2; straddle_failure_3] straddle_reaped_3)
      as (_ & Hwindow);
      [vm_compute; reflexivity | reflexivity | simpl; lia | vm_compute; reflexivity
      | reflexivity | exact straddle_run_from_first_tick |].
    destruct Hwindow as (_ & _ & _ & _ & Hcount & _).
    + vm_compute. split; discriminate.
    + repeat constructor; vm_compute; reflexivity.
    + rewrite Hcount. vm_compute. reflexivity.
Defined.

End supervisor.

(** ** Event bus *)

Section event_bus.
Import EventBus.

Implicit Types (bus : EventBus) (s : N).

Lemma emit_fold_queue (ty : KernelEventType) (ev : KernelEvent)
    (l : list (N * gset KernelEventType)) (queues : gmap N (list KernelEvent)) s :
  NoDup l.*1 →
  default [] (foldl (λ queues (entry : N * gset KernelEventType),
                       if decide (ty ∈ entry.2) then push_event entry.1 ev queues else queues)
                    queues l !! s)
  = if decide (ty ∈ default ∅ ((list_to_map l : gmap N (gset KernelEventType)) !! s))
    then (default [] (queues !! s) ++ [ev])%list
    else default [] (queues !! s).
Proof.
  revert queues. induction l as [|[a subs] l IH]; intros queues Hnd; simpl.
  - rewrite lookup_empty. simpl. by rewrite decide_False by set_solver.
  - apply NoDup_cons in Hnd as [Ha Hnd]. rewrite IH by done.
    destruct (decide (s = a)) as [-> | Hne].
    + rewrite lookup_insert_eq. simpl.
      rewrite (not_elem_of_list_to_map_1 _ a) by done. simpl.
      rewrite (decide_False (P := ty ∈ ∅)) by set_solver.
      destruct (decide (ty ∈ subs)); [| done].
      unfold push_event. by rewrite lookup_insert_eq.
    + rewrite lookup_insert_ne by done.
      assert (∀ q, (if decide (ty ∈ subs) then push_event a ev q else q) !! s = q !! s) as ->.
      { intros q. destruct (decide (ty ∈ subs)); [| done].
        unfold push_event. by rewrite lookup_insert_ne. }
      done.
Qed.

(** [emit] appends the event to the queue of every subscriber of its type
    and to no other queue. *)
Lemma emit_queue_of now ty d src bus s :
  queue_of s (emit now ty d src bus)
  = if decide (ty ∈ subscriptions_of s bus)
    then (queue_of s bus ++ [mkKernelEvent ty d now src])%list
    else queue_of s bus.
Proof.
  unfold queue_of, subscriptions_of, emit. simpl.
  rewrite emit_fold_queue by apply NoDup_fst_map_to_list.
  by rewrite list_to_map_to_list.
Qed.

Lemma emit_subscriptions now ty d src bus :
  subscriptions_ (emit now ty d src bus) = subscriptions_ bus.
Proof. done. Qed.

(** The data of an emitted event carries the requested name. *)
Lemma emit_data_custom_type event_name event_data d :
  event_name ≠ "CUSTOM" →
  emit_data event_name event_data = Some d →
  at_key d "custom_type" = JStr event_name.
Proof.
  intros Hne. unfold emit_data. rewrite decide_True by done.
  destruct event_data; simpl; intros Hd; try discriminate Hd;
    injection Hd as <-; simpl.
  - by rewrite lookup_singleton_eq.
  - by rewrite lookup_insert_eq.
Qed.

Lemma emit_data_well_formed j event_name event_data :
  well_formed_emit j event_name event_data →
  is_Some (emit_data event_name event_data).
Proof.
  intros (_ & _ & Hdata). unfold emit_data. case_decide as Hn; [| by eexists].
  destruct (Hdata Hn) as [-> | Hobj]; [by eexists |].
  by destruct event_data.
Qed.

(** Whatever the request, [handle_emit] touches only the queues of the
    subscribers of CUSTOM, and no subscription. *)
Lemma handle_emit_frame now msg bus s :
  CUSTOM ∉ subscriptions_of s bus →
  queue_of s (handle_emit now msg bus).2 = queue_of s bus
  ∧ subscriptions_ (handle_emit now msg bus).2 = subscriptions_ bus.
Proof.
  intros Hsub. unfold handle_emit.
  destruct (payload msg) as [j|]; [| done].
  destruct (value_string j "event" "CUSTOM") as [event_name|]; [| done].
  destruct (value_json j "data" JNull) as [event_data|]; [| done].
  destruct (emit_data event_name event_data) as [d|]; [| done].
  simpl. rewrite emit_queue_of. by rewrite decide_False.
Qed.

(** C9: for a well-formed SYS_EMIT request naming the event [event_name] with
    data [event_data], [handle_emit] emits one event of type CUSTOM from the
    sender, whatever the name (also the name of a kernel event type); unless
    the name is "CUSTOM", the event data holds it under "custom_type"; the
    event is appended to the queue of every agent subscribed to CUSTOM and to
    no other queue.  So an agent whose subscriptions do not contain CUSTOM
    receives nothing from any SYS_EMIT request, well-formed or not. *)
Theorem C9_emit_is_always_custom now msg bus j event_name event_data :
  payload msg = Some j →
  well_formed_emit j event_name event_data →
  (∃ d,
     emit_data event_name event_data = Some d
     ∧ (event_name ≠ "CUSTOM" → at_key d "custom_type" = JStr event_name)
     ∧ (event_name = "CUSTOM" → d = event_data)
     ∧ (handle_emit now msg bus).2 = emit now CUSTOM d (agent_id msg) bus
     ∧ ∀ s, queue_of s (handle_emit now msg bus).2
            = if decide (CUSTOM ∈ subscriptions_of s bus)
              then (queue_of s bus ++ [mkKernelEvent CUSTOM d now (agent_id msg)])%list
              else queue_of s bus)
  ∧ (∀ msg' s, CUSTOM ∉ subscriptions_of s bus →
       queue_of s (handle_emit now msg' bus).2 = queue_of s bus).
Proof.
  intros Hpayload Hwf. split.
  - destruct (emit_data_well_formed _ _ _ Hwf) as [d Hd].
    destruct Hwf as (Hname & Hdata & _).
    exists d. split_and!; [done | | | |].
    + intros Hne. by apply (emit_data_custom_type event_name event_data).
    + intros ->. unfold emit_data in Hd. rewrite decide_False in Hd by naive_solver.
      by injection Hd.
    + unfold handle_emit. by rewrite Hpayload, Hname, Hdata, Hd.
    + intros s. unfold handle_emit. rewrite Hpayload, Hname, Hdata, Hd. simpl.
      apply emit_queue_of.
  - intros msg' s Hsub. by apply handle_emit_frame.
Qed.

(** A request named after a kernel event type reaches the CUSTOM subscriber
    only, as a CUSTOM event tagged "AGENT_EXITED". *)
Lemma C9_witness :
  let bus := subscribe 2 [AGENT_EXITED] (subscribe 1 [CUSTOM] (mkEventBus ∅ ∅)) in
  let j := JObj (<[ "event" := JStr "AGENT_EXITED" ]> ∅) in
  let d := JObj {[ "custom_type" := JStr "AGENT_EXITED" ]} in
  let bus' := (handle_emit 5 (mkMessage 9 (Some j)) bus).2 in
  queue_of 1 bus' = [mkKernelEvent CUSTOM d 5 9] ∧ queue_of 2 bus' = [].
Proof.
  intros bus j d bus'.
  destruct (C9_emit_is_always_custom 5 (mkMessage 9 (Some j)) bus j "AGENT_EXITED" JNull)
    as [(d' & Hd & _ & _ & _ & Hq) Hframe].
  - reflexivity.
  - split_and!; [reflexivity | reflexivity | by left].
  - injection Hd as <-. split.
    + subst bus'. rewrite Hq. reflexivity.
    + subst bus'. apply Hframe. vm_compute. intros H; inversion H.
Defined.

End event_bus.

(** ** Virtual filesystem *)

Section virtual_fs.
Import VirtualFs.

Implicit Types (vfs : VirtualFilesystem) (path : string).

Lemma write_denied_refuses now path content append vfs :
  write_denied path vfs → write now path content append vfs = (false, vfs).
Proof.
  unfold write_denied, write. intros [(file & Hl & Hr) | (Hl & Hpat & Hm)].
  - rewrite Hl. by rewrite bool_decide_eq_true_2.
  - rewrite Hl, Hm. simpl. by rewrite bool_decide_eq_false_2.
Qed.

Lemma write_allowed_writes now path content append vfs :
  ¬ write_denied path vfs →
  write now path content append vfs
  = (true,
     mkVirtualFilesystem
       (<[ normalize_path path :=
             written_file now content append (files_ vfs !! normalize_path path) ]> (files_ vfs))
       (readonly_patterns_ vfs) (writable_patterns_ vfs) (intercept_patterns_ vfs)
       (read_count_ vfs) (add64 (write_count_ vfs) 1)
       (bytes_read_ vfs) (add64 (bytes_written_ vfs) (size_of content))).
Proof.
  unfold write_denied, write, written_file. intros Hok.
  destruct (files_ vfs !! normalize_path path) as [file|] eqn:Hl.
  - rewrite bool_decide_eq_false_2 by (intros Hr; apply Hok; left; by exists file).
    by rewrite (bool_decide_eq_false_2 (Some file = None)), andb_false_r.
  - destruct (matches_any (normalize_path path) (writable_patterns_ vfs)) eqn:Hm; [done |].
    destruct (decide (writable_patterns_ vfs = [])) as [Hnil | Hnil].
    + by rewrite (bool_decide_eq_true_2 _ Hnil).
    + destruct Hok. right. done.
Qed.

Lemma write_denied_dec path vfs : write_denied path vfs ∨ ¬ write_denied path vfs.
Proof.
  unfold write_denied.
  destruct (files_ vfs !! normalize_path path) as [file|] eqn:Hl.
  - destruct (decide (mode file = "r")) as [Hr | Hr].
    + left. left. by exists file.
    + right. intros [(file' & [= <-] & Hr') | (? & _)]; done.
  - destruct (decide (writable_patterns_ vfs = [])) as [Hnil | Hnil].
    + right. intros [(file' & ? & _) | (_ & ? & _)]; done.
    + destruct (matches_any (normalize_path path) (writable_patterns_ vfs)) eqn:Hm.
      * right. intros [(file' & ? & _) | (_ & _ & ?)]; done.
      * left. by right.
Qed.

(** C3 (amended): [write(p, c, append)] is denied (it returns false and
    leaves the filesystem as it was) exactly when the normalized target
    exists with mode "r", or the target does not exist and writable_patterns
    is non-empty and the normalized path matches none of them.  In every other
    case it returns true and the target holds the content [c] (a new file,
    with mode "rw"), or, for an existing file, [c] in place of or appended to
    the old content; no other file changes. *)
Theorem C3_write_denied_iff now path content append vfs :
  ((write now path content append vfs).1 = false ↔ write_denied path vfs)
  ∧ (write_denied path vfs → (write now path content append vfs).2 = vfs)
  ∧ (¬ write_denied path vfs →
       let vfs' := (write now path content append vfs).2 in
       files_ vfs' !! normalize_path path
         = Some (written_file now content append (files_ vfs !! normalize_path path))
       ∧ (∀ p, p ≠ normalize_path path → files_ vfs' !! p = files_ vfs !! p)
       ∧ writable_patterns_ vfs' = writable_patterns_ vfs).
Proof.
  split_and!.
  - split.
    + intros Hres. destruct (write_denied_dec path vfs) as [|Hok]; [done |].
      by rewrite write_allowed_writes in Hres.
    + intros Hden. by rewrite write_denied_refuses.
  - intros Hden. by rewrite write_denied_refuses.
  - intros Hok vfs'. subst vfs'. rewrite write_allowed_writes by done. simpl.
    split_and!; [apply lookup_insert_eq | | done].
    intros p Hp. by rewrite lookup_insert_ne.
Qed.

(** C3, as stated, fails: an existing read-write file outside the writable
    patterns is updated, although the patterns are non-empty and its path
    matches none of them. *)
Lemma C3_counterexample :
  let vfs := mkVirtualFilesystem {[ "/etc/x" := mkVirtualFile "old" "rw" 0 0 ]}
               [] ["/data/*"] [] 0 0 0 0 in
  spec_write_denied "/etc/x" vfs
  ∧ (write 5 "/etc/x" "new" false vfs).1 = true
  ∧ (read "/etc/x" (write 5 "/etc/x" "new" false vfs).2).1 = Some "new".
Proof.
  split; [| by vm_compute].
  right. split; [done | by vm_compute].
Qed.

(** A new file under a writable pattern is created; appending to it
    extends its content. *)
Lemma C3_witness :
  let vfs := mkVirtualFilesystem ∅ [] ["/data/*"] [] 0 0 0 0 in
  let vfs1 := (write 5 "/data/log" "a" false vfs).2 in
  let vfs2 := (write 6 "data//log" "b" true vfs1).2 in
  files_ vfs1 !! "/data/log" = Some (mkVirtualFile "a" "rw" 5 5)
  ∧ files_ vfs2 !! "/data/log" = Some (mkVirtualFile "ab" "rw" 5 6)
  ∧ (write 7 "/etc/passwd" "x" false vfs2).2 = vfs2.
Proof.
  intros vfs vfs1 vfs2.
  assert (¬ write_denied "/data/log" vfs) as H1.
  { intros [(file & Hl & _) | (_ & _ & Hm)]; [by vm_compute in Hl | by vm_compute in Hm]. }
  assert (¬ write_denied "data//log" vfs1) as H2.
  { intros [(file & Hl & Hr) | (Hl & _)]; [| by vm_compute in Hl].
    vm_compute in Hl. injection Hl as <-. by vm_compute in Hr. }
  assert (write_denied "/etc/passwd" vfs2) as H3.
  { right. split_and!; [by vm_compute | done | by vm_compute]. }
  destruct (C3_write_denied_iff 5 "/data/log" "a" false vfs) as (_ & _ & Hw1).
  destruct (C3_write_denied_iff 6 "data//log" "b" true vfs1) as (_ & _ & Hw2).
  destruct (C3_write_denied_iff 7 "/etc/passwd" "x" false vfs2) as (_ & Hw3 & _).
  split_and!.
  - exact (proj1 (Hw1 H1)).
  - destruct (Hw2 H2) as [Hfile _]. fold vfs2 in Hfile.
    change (normalize_path "data//log") with "/data/log" in Hfile.
    rewrite Hfile. by vm_compute.
  - exact (Hw3 H3).
Defined.

End virtual_fs.

(** ** World engine: destruction and membership *)

Section worlds.
Import VirtualFs Worlds.

Implicit Types (e : WorldEngine) (w : string) (a : N).

Lemma foldl_delete_lookup (l : list N) (m : gmap N string) a :
  foldl (λ acc agent_id, delete agent_id acc) m l !! a
  = if decide (a ∈ l) then None else m !! a.
Proof.
  revert m. induction l as [|x l IH]; intros m; simpl.
  - destruct (decide (a ∈ [])); [set_solver | done].
  - rewrite IH. destruct (decide (a = x)) as [-> | Hne].
    + rewrite lookup_delete_eq.
      destruct (decide (x ∈ x :: l)); [| set_solver]. by destruct (decide (x ∈ l)).
    + rewrite lookup_delete_ne by done.
      destruct (decide (a ∈ l)), (decide (a ∈ x :: l)); set_solver.
Qed.

Lemma elem_of_sorted_elements (s : gset N) a :
  a ∈ merge_sort N.le (elements s) ↔ a ∈ s.
Proof. by rewrite merge_sort_Permutation, elem_of_elements. Qed.

(** A forced or unopposed destruction removes the world and the entries of
    its members, and nothing else. *)
Lemma destroy_world_succeeds w force e world :
  worlds_ e !! w = Some world →
  force = true ∨ agent_count world = 0%nat →
  (destroy_world w force e).1 = true
  ∧ worlds_ (destroy_world w force e).2 = delete w (worlds_ e)
  ∧ next_world_num_ (destroy_world w force e).2 = next_world_num_ e
  ∧ ∀ a, agent_to_world_ (destroy_world w force e).2 !! a
         = if decide (a ∈ agents_ world) then None else agent_to_world_ e !! a.
Proof.
  intros Hw Hok. unfold destroy_world. rewrite Hw.
  assert (negb force && bool_decide (0 < agent_count world)%nat = false) as ->.
  { destruct Hok as [-> | ->]; [done |]. by rewrite andb_false_r. }
  simpl. split_and!; try done.
  intros a. rewrite foldl_delete_lookup.
  pose proof (elem_of_sorted_elements (agents_ world) a) as Hiff.
  destruct (decide (a ∈ agents_ world)), (decide (a ∈ merge_sort N.le (elements (agents_ world))));
    naive_solver.
Qed.

(** C7: for the id [w] of an existing world, [destroy_world(w, false)]
    refuses (returns false) if and only if the world has members, and a
    refusal leaves the engine unchanged; [destroy_world(w, true)] always
    succeeds: it removes the world and erases the entry of every member in
    the agent-to-world map, leaving the entries of all other agents. *)
Theorem C7_destroy_world w e world :
  worlds_ e !! w = Some world →
  ((destroy_world w false e).1 = false ↔ (0 < agent_count world)%nat)
  ∧ ((destroy_world w false e).1 = false → (destroy_world w false e).2 = e)
  ∧ (destroy_world w true e).1 = true
  ∧ worlds_ (destroy_world w true e).2 = delete w (worlds_ e)
  ∧ (∀ a, a ∈ agents_ world → agent_to_world_ (destroy_world w true e).2 !! a = None)
  ∧ (∀ a, a ∉ agents_ world →
       agent_to_world_ (destroy_world w true e).2 !! a = agent_to_world_ e !! a).
Proof.
  intros Hw.
  destruct (destroy_world_succeeds w true e world Hw (or_introl eq_refl))
    as (Hres & Hworlds & _ & Hmap).
  split_and!; try done.
  - unfold destroy_world. rewrite Hw. simpl.
    case_bool_decide; simpl; split; (done || lia).
  - unfold destroy_world. rewrite Hw. simpl. by case_bool_decide.
  - intros a Ha. by rewrite Hmap, decide_True.
  - intros a Ha. by rewrite Hmap, decide_False.
Qed.

Lemma C7_witness :
  let e0 := (create_world 0 "lab" (JObj ∅) empty_engine).2 in
  let e := (join_world 1 7 "lab-0001" e0).2 in
  (destroy_world "lab-0001" false e0).1 = true
  ∧ (destroy_world "lab-0001" false e).1 = false
  ∧ (destroy_world "lab-0001" true e).1 = true
  ∧ agent_to_world_ (destroy_world "lab-0001" true e).2 !! 7%N = None.
Proof.
  intros e0 e.
  assert (∃ world, worlds_ e !! "lab-0001" = Some world ∧ 7%N ∈ agents_ world)
    as (world & Hw & H7).
  { eexists. split; [vm_compute; reflexivity |]. set_solver. }
  destruct (C7_destroy_world "lab-0001" e world Hw) as (Hiff & _ & Hforce & _ & Hin & _).
  split_and!.
  - by vm_compute.
  - apply Hiff. unfold agent_count.
    destruct (decide (size (agents_ world) = 0%nat)) as [Hz | Hz]; [| lia].
    apply size_empty_inv in Hz. set_solver.
  - exact Hforce.
  - by apply Hin.
Defined.

(** *** World ids are never reused *)

Lemma has_dash_app (s1 s2 : string) :
  has_dash (s1 +:+ s2) = has_dash s1 || has_dash s2.
Proof.
  induction s1 as [|c s1 IH]; [done |].
  change (has_dash (String c (s1 +:+ s2)) = has_dash (String c s1) || has_dash s2).
  simpl. by rewrite IH, orb_assoc.
Qed.

Lemma after_last_dash_app (s d : string) :
  has_dash d = false → after_last_dash (s +:+ "-" +:+ d) = d.
Proof.
  intros Hd. induction s as [|c s IH].
  - change (after_last_dash (String "-" d) = d). simpl. by rewrite Hd.
  - change (after_last_dash (String c (s +:+ "-" +:+ d)) = d). simpl.
    rewrite has_dash_app. change (has_dash ("-" +:+ d)) with (true || has_dash d).
    simpl. rewrite orb_true_r. exact IH.
Qed.

Lemma has_dash_zeros (n : nat) : has_dash (zeros n) = false.
Proof. induction n as [|n IH]; [done | exact IH]. Qed.

Lemma has_dash_pretty_N_go (x : N) (s : string) :
  has_dash s = false → has_dash (pretty_N_go x s) = false.
Proof.
  revert s. induction (N.lt_wf_0 x) as [x _ IH]; intros s Hs.
  destruct (decide (x = 0)%N) as [-> | Hx]; [by rewrite pretty_N_go_0 |].
  rewrite pretty_N_go_step by lia. apply IH.
  - apply N.div_lt; lia.
  - simpl. rewrite Hs. unfold pretty_N_char. by repeat case_match.
Qed.

Lemma has_dash_pretty (n : N) : has_dash (pretty n) = false.
Proof.
  unfold pretty, pretty_N. case_decide; [done |]. by apply has_dash_pretty_N_go.
Qed.

Lemma has_dash_pad4 (n : N) : has_dash (pad4 n) = false.
Proof. unfold pad4. by rewrite has_dash_app, has_dash_zeros, has_dash_pretty. Qed.

Lemma digits_value_acc (acc : N) (s : string) :
  digits_value acc s = (acc * 10 ^ N.of_nat (String.length s) + digits_value 0 s)%N.
Proof.
  revert acc. induction s as [|c s IH]; intros acc; simpl digits_value.
  - simpl. lia.
  - rewrite IH, (IH (10 * 0 + digit_value c)%N).
    change (String.length (String c s)) with (S (String.length s)).
    rewrite Nat2N.inj_succ, N.pow_succ_r'. lia.
Qed.

Lemma digits_value_zeros (n : nat) (s : string) :
  digits_value 0 (zeros n +:+ s) = digits_value 0 s.
Proof. induction n as [|n IH]; [done | exact IH]. Qed.

Lemma digit_value_pretty_N_char (d : N) :
  (d < 10)%N → digit_value (pretty_N_char d) = d.
Proof.
  intros Hd.
  assert (d = 0 ∨ d = 1 ∨ d = 2 ∨ d = 3 ∨ d = 4 ∨ d = 5 ∨ d = 6 ∨ d = 7 ∨ d = 8 ∨ d = 9)%N
    as Hcases by lia.
  repeat (destruct Hcases as [-> | Hcases]; [done |]). by subst.
Qed.

Lemma digits_value_pretty_N_go (x : N) (s : string) :
  digits_value 0 (pretty_N_go x s)
  = (x * 10 ^ N.of_nat (String.length s) + digits_value 0 s)%N.
Proof.
  revert s. induction (N.lt_wf_0 x) as [x _ IH]; intros s.
  destruct (decide (x = 0)%N) as [-> | Hx]; [by rewrite pretty_N_go_0 |].
  rewrite pretty_N_go_step by lia. rewrite IH by (apply N.div_lt; lia).
  simpl digits_value. rewrite digits_value_acc.
  rewrite digit_value_pretty_N_char by (apply N.mod_lt; lia).
  change (String.length (String (pretty_N_char (x `mod` 10)) s)) with (S (String.length s)).
  rewrite Nat2N.inj_succ, N.pow_succ_r'.
  pose proof (N.div_mod x 10 ltac:(lia)) as Hdm.
  set (p := (10 ^ N.of_nat (String.length s))%N) in *.
  set (q := (x `div` 10)%N) in *. set (r := (x `mod` 10)%N) in *.
  replace (x * p)%N with ((10 * q + r) * p)%N by (by rewrite <- Hdm).
  ring.
Qed.

Lemma digits_value_pretty (n : N) : digits_value 0 (pretty n) = n.
Proof.
  unfold pretty, pretty_N. case_decide as Hn; [by subst |].
  rewrite digits_value_pretty_N_go. simpl. lia.
Qed.

(** The counter can be read back from a generated id. *)
Lemma id_number_generated (name : string) (n : N) :
  id_number (safe_name name +:+ "-" +:+ pad4 n) = n.
Proof.
  unfold id_number. rewrite after_last_dash_app by apply has_dash_pad4.
  unfold pad4. by rewrite digits_value_zeros, digits_value_pretty.
Qed.

(** *** The membership invariant *)

Lemma world_configure_agents now config world world' :
  world_configure now config world = Some world' →
  agents_ world' = agents_ world.
Proof.
  unfold world_configure. intros Hcfg.
  repeat (match type of Hcfg with
          | (mbind _ ?x) = Some _ => destruct x eqn:?; simpl in Hcfg; [| discriminate Hcfg]
          end).
  by injection Hcfg as <-.
Qed.

Lemma engine_inv_weaken k e : engine_inv k e → engine_inv (S k) e.
Proof. intros (Hm & Hids & Hn). split_and!; (done || lia). Qed.

Lemma engine_inv_empty : engine_inv 0 empty_engine.
Proof.
  unfold engine_inv, membership_consistent, ids_below_counter. simpl.
  split_and!; try done; intros *; by rewrite lookup_empty.
Qed.

Lemma create_world_inv now name config k e :
  (N.of_nat k + 2 < 18446744073709551616)%N →
  engine_inv k e → engine_inv (S k) (create_world now name config e).2.
Proof.
  intros Hk (Hm & Hids & Hn). unfold create_world, generate_world_id.
  assert (((next_world_num_ e + 1) mod 18446744073709551616 = next_world_num_ e + 1)%N)
    as Hnext by (apply N.mod_small; lia).
  set (id := safe_name name +:+ "-" +:+ pad4 (next_world_num_ e)).
  assert (worlds_ e !! id = None) as Hfresh.
  { destruct (worlds_ e !! id) as [world|] eqn:Hl; [| done].
    apply Hids in Hl. unfold id in Hl. rewrite id_number_generated in Hl. lia. }
  destruct (world_configure now config (new_world now id)) as [world|] eqn:Hcfg; simpl.
  - apply world_configure_agents in Hcfg. simpl in Hcfg.
    destruct Hm as [Hm1 Hm2]. split; [split | split]; simpl.
    + intros a wid Ha. destruct (Hm1 a wid Ha) as (world' & Hw & Hin).
      exists world'. split; [| done]. rewrite lookup_insert_ne; [done |]. congruence.
    + intros wid world' a Hw Hin.
      destruct (decide (id = wid)) as [<- | Hne].
      * rewrite lookup_insert_eq in Hw. injection Hw as <-. rewrite Hcfg in Hin. set_solver.
      * rewrite lookup_insert_ne in Hw by done. by apply (Hm2 wid world').
    + intros wid world' Hw. simpl in *. rewrite Hnext.
      destruct (decide (id = wid)) as [<- | Hne].
      * unfold id. rewrite id_number_generated. lia.
      * rewrite lookup_insert_ne in Hw by done. apply Hids in Hw. lia.
    + lia.
  - split; [done | split]; simpl; [| lia].
    intros wid world' Hw. simpl in *. apply Hids in Hw. lia.
Qed.

Lemma destroy_world_inv w force k e :
  engine_inv k e → engine_inv k (destroy_world w force e).2.
Proof.
  intros Hinv. pose proof Hinv as ([Hm1 Hm2] & Hids & Hn).
  destruct (worlds_ e !! w) as [world|] eqn:Hw.
  2: { unfold destroy_world. by rewrite Hw. }
  destruct (decide (force = true ∨ agent_count world = 0%nat)) as [Hok | Hno].
  - destruct (destroy_world_succeeds w force e world Hw Hok) as (_ & Hworlds & Hnum & Hmap).
    split; [split | split].
    + intros a wid Ha. rewrite Hmap in Ha. case_decide as Hin; [done |].
      destruct (Hm1 a wid Ha) as (world' & Hw' & Hin').
      exists world'. split; [| done]. rewrite Hworlds, lookup_delete_ne; [done |].
      intros <-. congruence.
    + intros wid world' a Hw' Hin'. rewrite Hworlds in Hw'.
      apply lookup_delete_Some in Hw' as [Hne Hw'].
      rewrite Hmap. pose proof (Hm2 wid world' a Hw' Hin') as Ha.
      case_decide as Hin; [| done].
      pose proof (Hm2 w world a Hw Hin). congruence.
    + intros wid world' Hw'. simpl in *. rewrite Hworlds in Hw'. rewrite Hnum.
      apply lookup_delete_Some in Hw' as [_ Hw']. by apply (Hids wid world').
    + by rewrite Hnum.
  - unfold destroy_world. rewrite Hw.
    destruct force; [by destruct Hno; left |]. simpl.
    rewrite bool_decide_eq_true_2; [done |].
    destruct (agent_count world); [by destruct Hno; right | lia].
Qed.

Lemma join_world_inv now a w k e :
  engine_inv k e → engine_inv k (join_world now a w e).2.
Proof.
  intros Hinv. pose proof Hinv as ([Hm1 Hm2] & Hids & Hn). unfold join_world.
  destruct (agent_to_world_ e !! a) as [w0|] eqn:Ha; [done |].
  destruct (worlds_ e !! w) as [world|] eqn:Hw; [| done]. simpl.
  split; [split | split]; simpl; [| | | done].
  - intros a' wid Ha'. destruct (decide (a = a')) as [<- | Hne].
    + rewrite lookup_insert_eq in Ha'. injection Ha' as <-.
      exists (add_agent now a world). rewrite lookup_insert_eq. split; [done |].
      simpl. set_solver.
    + rewrite lookup_insert_ne in Ha' by done.
      destruct (Hm1 a' wid Ha') as (world' & Hw' & Hin').
      destruct (decide (w = wid)) as [<- | Hnew].
      * exists (add_agent now a world). rewrite lookup_insert_eq. split; [done |].
        simpl. assert (world' = world) as -> by congruence. set_solver.
      * exists world'. by rewrite lookup_insert_ne.
  - intros wid world' a' Hw' Hin'. destruct (decide (w = wid)) as [<- | Hnew].
    + rewrite lookup_insert_eq in Hw'. injection Hw' as <-. simpl in Hin'.
      destruct (decide (a = a')) as [<- | Hne]; [by rewrite lookup_insert_eq |].
      rewrite lookup_insert_ne by done. apply (Hm2 w world); [done | set_solver].
    + rewrite lookup_insert_ne in Hw' by done.
      pose proof (Hm2 wid world' a' Hw' Hin') as Ha'.
      rewrite lookup_insert_ne; [done |]. intros <-. congruence.
  - intros wid world' Hw'. simpl in *. destruct (decide (w = wid)) as [<- | Hnew].
    + by apply (Hids w world).
    + rewrite lookup_insert_ne in Hw' by done. by apply (Hids wid world').
Qed.

Lemma leave_world_inv now a k e :
  engine_inv k e → engine_inv k (leave_world now a e).2.
Proof.
  intros Hinv. pose proof Hinv as ([Hm1 Hm2] & Hids & Hn). unfold leave_world.
  destruct (agent_to_world_ e !! a) as [w|] eqn:Ha; [| done].
  destruct (Hm1 a w Ha) as (world & Hw & Hin). rewrite Hw. simpl.
  split; [split | split]; simpl; [| | | done].
  - intros a' wid Ha'. apply lookup_delete_Some in Ha' as [Hne Ha'].
    destruct (Hm1 a' wid Ha') as (world' & Hw' & Hin').
    destruct (decide (w = wid)) as [<- | Hnew].
    + exists (remove_agent now a world). rewrite lookup_insert_eq. split; [done |].
      simpl. assert (world' = world) as -> by congruence. set_solver.
    + exists world'. by rewrite lookup_insert_ne.
  - intros wid world' a' Hw' Hin'. destruct (decide (w = wid)) as [<- | Hnew].
    + rewrite lookup_insert_eq in Hw'. injection Hw' as <-. simpl in Hin'.
      rewrite lookup_delete_ne by set_solver. apply (Hm2 w world); [done | set_solver].
    + rewrite lookup_insert_ne in Hw' by done.
      pose proof (Hm2 wid world' a' Hw' Hin') as Ha'.
      rewrite lookup_delete_ne; [done |]. intros <-. congruence.
  - intros wid world' Hw'. simpl in *. destruct (decide (w = wid)) as [<- | Hnew].
    + by apply (Hids w world).
    + rewrite lookup_insert_ne in Hw' by done. by apply (Hids wid world').
Qed.

Lemma apply_op_inv op k e :
  (N.of_nat k + 2 < 18446744073709551616)%N →
  engine_inv k e → engine_inv (S k) (apply_op e op).
Proof.
  intros Hk Hinv. destruct op; simpl.
  - by apply create_world_inv.
  - by apply engine_inv_weaken, destroy_world_inv.
  - by apply engine_inv_weaken, join_world_inv.
  - by apply engine_inv_weaken, leave_world_inv.
Qed.

Lemma run_ops_inv ops :
  (N.of_nat (length ops) + 1 < 18446744073709551616)%N →
  engine_inv (length ops) (run_ops ops empty_engine).
Proof.
  induction ops as [|op ops IH] using rev_ind; intros Hlen.
  - apply engine_inv_empty.
  - rewrite length_app in *. simpl in *. unfold run_ops. rewrite foldl_app. simpl.
    replace (length ops + 1)%nat with (S (length ops)) by lia.
    apply apply_op_inv; [lia |]. apply IH. lia.
Qed.

Lemma join_world_refused now a w e :
  is_Some (agent_to_world_ e !! a) ∨ worlds_ e !! w = None →
  join_world now a w e = (false, e).
Proof.
  unfold join_world. intros [[w0 ->] | Hw]; [done |].
  rewrite Hw. by destruct (agent_to_world_ e !! a).
Qed.

(** C10: after any sequence of create_world, join_world, leave_world and
    destroy_world operations on a fresh engine (fewer than 2^64 - 1 of them,
    so that the 64-bit id counter has not wrapped), an agent has at most one
    entry in the agent-to-world map; that entry names an existing world that
    has the agent as a member; every member of a world is mapped to this
    world; so no agent is a member of two worlds.  And join_world returns
    false without changing the engine when the agent is already in a world or
    the target world does not exist. *)
Theorem C10_membership_invariant (ops : list WorldOp) :
  (N.of_nat (length ops) + 1 < 18446744073709551616)%N →
  let e := run_ops ops empty_engine in
  (∀ a w1 w2, agent_to_world_ e !! a = Some w1 → agent_to_world_ e !! a = Some w2 → w1 = w2)
  ∧ (∀ a w, agent_to_world_ e !! a = Some w →
       ∃ world, worlds_ e !! w = Some world ∧ a ∈ agents_ world)
  ∧ (∀ w world a, worlds_ e !! w = Some world → a ∈ agents_ world →
       agent_to_world_ e !! a = Some w)
  ∧ (∀ a w1 w2 world1 world2,
       worlds_ e !! w1 = Some world1 → worlds_ e !! w2 = Some world2 →
       a ∈ agents_ world1 → a ∈ agents_ world2 → w1 = w2)
  ∧ (∀ now a w e',
       is_Some (agent_to_world_ e' !! a) ∨ worlds_ e' !! w = None →
       join_world now a w e' = (false, e')).
Proof.
  intros Hlen e. destruct (run_ops_inv ops Hlen) as ([Hm1 Hm2] & _ & _).
  fold e in Hm1, Hm2. split_and!.
  - congruence.
  - exact Hm1.
  - exact Hm2.
  - intros a w1 w2 world1 world2 Hw1 Hw2 Hin1 Hin2.
    pose proof (Hm2 _ _ _ Hw1 Hin1). pose proof (Hm2 _ _ _ Hw2 Hin2). congruence.
  - intros now a w e'. apply join_world_refused.
Qed.

Lemma C10_witness :
  let ops := [ OpCreate 0 "lab" (JObj ∅); OpCreate 1 "lab" (JObj ∅);
               OpJoin 2 7 "lab-0001"; OpJoin 3 7 "lab-0002";
               OpLeave 4 7; OpJoin 5 7 "lab-0002"; OpDestroy "lab-0001" false ] in
  let e := run_ops ops empty_engine in
  agent_to_world_ e !! 7%N = Some "lab-0002"
  ∧ ∃ world, worlds_ e !! "lab-0002" = Some world ∧ 7%N ∈ agents_ world.
Proof.
  intros ops e.
  destruct (C10_membership_invariant ops) as (_ & Hm & _).
  - simpl. lia.
  - assert (agent_to_world_ e !! 7%N = Some "lab-0002") as H7 by (by vm_compute).
    split; [done |]. by apply Hm.
Defined.

End worlds.

(** ** World snapshots *)

Section snapshot.
Import VirtualFs Worlds.

(** Looking keys up in objects built by assignments. *)
Ltac map_lookup :=
  repeat first
    [ rewrite lookup_insert_eq
    | rewrite lookup_insert_ne by done
    | rewrite lookup_empty ].

Lemma foldl_insert_lookup {A B} (f : A → B) (l : list (string * A))
    (acc : gmap string B) (k : string) :
  NoDup l.*1 →
  foldl (λ acc (entry : string * A), <[ entry.1 := f entry.2 ]> acc) acc l !! k
  = match (list_to_map l : gmap string A) !! k with
    | Some a => Some (f a)
    | None => acc !! k
    end.
Proof.
  revert acc. induction l as [|[k' a] l IH]; intros acc Hnd; simpl.
  - by rewrite lookup_empty.
  - apply NoDup_cons in Hnd as [Hk' Hnd]. rewrite IH by done.
    destruct (decide (k' = k)) as [-> | Hne].
    + rewrite lookup_insert_eq. rewrite (not_elem_of_list_to_map_1 _ k) by done.
      by rewrite lookup_insert_eq.
    + rewrite !lookup_insert_ne by done. done.
Qed.

Lemma foldl_insert_lookup_id {B} (l : list (string * B)) (acc : gmap string B) (k : string) :
  NoDup l.*1 →
  foldl (λ acc (entry : string * B), <[ entry.1 := entry.2 ]> acc) acc l !! k
  = match (list_to_map l : gmap string B) !! k with
    | Some b => Some b
    | None => acc !! k
    end.
Proof. exact (foldl_insert_lookup id l acc k). Qed.

Lemma foldl_insert_map_to_list {A B} (f : A → B) (m : gmap string A) :
  foldl (λ acc (entry : string * A), <[ entry.1 := f entry.2 ]> acc) ∅ (map_to_list m)
  = f <$> m.
Proof.
  apply map_eq. intros k.
  rewrite foldl_insert_lookup by apply NoDup_fst_map_to_list.
  rewrite list_to_map_to_list, lookup_fmap, lookup_empty.
  by destruct (m !! k).
Qed.

Lemma entries_of_Permutation (m : gmap string json) : entries_of m ≡ₚ map_to_list m.
Proof. apply merge_sort_Permutation. Qed.

(** Rebuilding a map from the entries of an object. *)
Lemma foldl_insert_entries {B} (f : json → B) (m : gmap string json) :
  foldl (λ acc (entry : string * B), <[ entry.1 := entry.2 ]> acc) ∅
        ((λ entry : string * json, (entry.1, f entry.2)) <$> entries_of m)
  = f <$> m.
Proof.
  apply map_eq. intros k.
  assert (NoDup ((λ entry : string * json, (entry.1, f entry.2)) <$> entries_of m).*1) as Hnd.
  { rewrite <- list_fmap_compose.
    change (NoDup (entries_of m).*1).
    rewrite entries_of_Permutation. apply NoDup_fst_map_to_list. }
  rewrite foldl_insert_lookup_id by done.
  rewrite lookup_empty, lookup_fmap.
  destruct (m !! k) as [v|] eqn:Hk.
  - erewrite (elem_of_list_to_map_1 _ k (f v)); [done | done |].
    apply list_elem_of_fmap. exists (k, v). split; [done |].
    rewrite entries_of_Permutation. by apply elem_of_map_to_list.
  - rewrite (not_elem_of_list_to_map_1 _ k); [done |].
    rewrite <- list_fmap_compose. change (k ∉ (entries_of m).*1).
    rewrite entries_of_Permutation. intros Hin.
    apply list_elem_of_fmap in Hin as [[k' v'] [-> Hin]].
    apply elem_of_map_to_list in Hin. simpl in *. congruence.
Qed.

Lemma mapM_total {A B} (f : A → option B) (g : A → B) (l : list A) :
  Forall (λ x, f x = Some (g x)) l → mapM f l = Some (g <$> l).
Proof.
  induction 1 as [|x l Hx _ IH]; [done |].
  simpl. by rewrite Hx, IH.
Qed.

Lemma get_strings_of_strings (l : list string) : get_strings (of_strings l) = Some l.
Proof.
  unfold get_strings, of_strings. simpl.
  rewrite (mapM_total _ (λ j, default "" (get_string j))).
  - rewrite <- list_fmap_compose. f_equal. by rewrite <- (list_fmap_id l) at 2.
  - apply Forall_fmap, Forall_true. done.
Qed.

Lemma file_from_json_to_json now file :
  file_from_json now (file_to_json file) = Some (restored_file now file).
Proof. unfold file_from_json, file_to_json, value_string, value_with. by map_lookup. Qed.

(** [from_json] rebuilds from [to_json] the files (with new time stamps)
    and the three pattern lists. *)
Lemma from_json_to_json now vfs vfs0 :
  from_json now (to_json vfs) vfs0
  = Some (mkVirtualFilesystem (restored_file now <$> files_ vfs)
            (readonly_patterns_ vfs) (writable_patterns_ vfs) (intercept_patterns_ vfs)
            (read_count_ vfs0) (write_count_ vfs0) (bytes_read_ vfs0) (bytes_written_ vfs0)).
Proof.
  unfold from_json, to_json, patterns_from_json, contains, at_key.
  rewrite foldl_insert_map_to_list. map_lookup. simpl.
  rewrite !get_strings_of_strings. simpl.
  rewrite (mapM_total _ (λ entry : string * json,
             (entry.1, default (mkVirtualFile "" "" 0 0) (file_from_json now entry.2)))).
  2: { apply Forall_forall. intros [k j] Hin.
       rewrite entries_of_Permutation in Hin. apply elem_of_map_to_list in Hin.
       rewrite lookup_fmap in Hin. destruct (files_ vfs !! k) as [file|]; [| done].
       injection Hin as <-. simpl. by rewrite file_from_json_to_json. }
  simpl.
  rewrite (foldl_insert_entries
             (λ j, default (mkVirtualFile "" "" 0 0) (file_from_json now j))).
  rewrite <- map_fmap_compose. do 2 f_equal.
Qed.

Lemma filter_Permutation {A} (f : A → bool) (l1 l2 : list A) :
  l1 ≡ₚ l2 → List.filter f l1 ≡ₚ List.filter f l2.
Proof.
  induction 1 as [| x l1 l2 _ IH | x y l | l1 l2 l3 _ IH1 _ IH2]; simpl.
  - done.
  - destruct (f x); [by constructor | done].
  - destruct (f x), (f y); try done. apply perm_swap.
  - by etrans.
Qed.

(** Filesystems with the same contents, modes and patterns answer alike. *)
Lemma restored_agrees now vfs vfs' :
  files_ vfs' = restored_file now <$> files_ vfs →
  readonly_patterns_ vfs' = readonly_patterns_ vfs →
  writable_patterns_ vfs' = writable_patterns_ vfs →
  intercept_patterns_ vfs' = intercept_patterns_ vfs →
  (∀ p, (read p vfs').1 = (read p vfs).1)
  ∧ (∀ pattern, list_ pattern vfs' = list_ pattern vfs)
  ∧ (∀ p, is_writable p vfs' = is_writable p vfs)
  ∧ (∀ p, is_readable p vfs' = is_readable p vfs)
  ∧ (∀ p, should_intercept p vfs' = should_intercept p vfs).
Proof.
  intros Hfiles Hro Hrw Hint. split_and!.
  - intros p. unfold read. rewrite Hfiles, lookup_fmap.
    by destruct (files_ vfs !! normalize_path p).
  - intros pattern. unfold list_. rewrite Hfiles.
    apply (Sorted_unique String.le).
    + apply Sorted_merge_sort. apply _.
    + apply Sorted_merge_sort. apply _.
    + rewrite !merge_sort_Permutation.
      assert ((map_to_list (restored_file now <$> files_ vfs)).*1 ≡ₚ (map_to_list (files_ vfs)).*1)
        as Hperm.
      { rewrite map_to_list_fmap, <- list_fmap_compose.
        assert ((fst ∘ prod_map id (restored_file now)) <$> map_to_list (files_ vfs)
                = (map_to_list (files_ vfs)).*1) as ->; [| done].
        apply list_fmap_ext. by intros ? []. }
      by apply filter_Permutation.
  - intros p. unfold is_writable. rewrite Hfiles, Hrw, lookup_fmap.
    by destruct (files_ vfs !! normalize_path p).
  - intros p. unfold is_readable. rewrite Hfiles, Hro, Hrw, lookup_fmap.
    by destruct (files_ vfs !! normalize_path p).
  - intros p. unfold should_intercept. rewrite Hfiles, Hint, lookup_fmap.
    by destruct (files_ vfs !! normalize_path p).
Qed.

(** The other parts of a snapshot are read back without an exception. *)

Lemma headers_from_strings (h acc : gmap string string) :
  is_Some (headers_from (JObj (JStr <$> h)) acc).
Proof.
  unfold headers_from. simpl.
  destruct (mapM (λ entry : string * json, v ← get_string entry.2; Some (entry.1, v))
                 (entries_of (JStr <$> h))) as [entries|] eqn:Hentries; [by eexists |].
  exfalso. assert (is_Some (None : option (list (string * string)))) as [? ?]; [| done].
  rewrite <- Hentries. apply mapM_is_Some, Forall_forall. intros [k j] Hin.
  rewrite entries_of_Permutation in Hin. apply elem_of_map_to_list in Hin.
  rewrite lookup_fmap in Hin. destruct (h !! k); [| done]. injection Hin as <-. by eexists.
Qed.

Lemma restored_response_to_json resp :
  is_Some (restored_response (response_to_json resp)).
Proof.
  unfold restored_response, response_to_json, value_int, value_string, value_with,
    contains, at_key.
  map_lookup. simpl.
  destruct (headers_from_strings (headers resp) ∅) as [h ->]. by eexists.
Qed.

Lemma mapM_entries_is_Some {A B} (m : gmap string A) (to : A → json)
    (from : json → option B) :
  (∀ a, is_Some (from (to a))) →
  is_Some (mapM (λ entry : string * json, b ← from entry.2; Some (entry.1, b))
                (entries_of (to <$> m))).
Proof.
  intros Hfrom. apply mapM_is_Some, Forall_forall. intros [k j] Hin.
  rewrite entries_of_Permutation in Hin. apply elem_of_map_to_list in Hin.
  rewrite lookup_fmap in Hin. destruct (m !! k) as [a|]; [| done]. injection Hin as <-.
  simpl. destruct (Hfrom a) as [b ->]. by eexists.
Qed.

Lemma network_from_json_to_json n n0 :
  is_Some (network_from_json (network_to_json n) n0).
Proof.
  unfold network_from_json, network_to_json, value_string, value_bool, value_with,
    contains, at_key.
  rewrite foldl_insert_map_to_list.
  destruct (mapM_entries_is_Some (mocks_ n) response_to_json restored_response
              restored_response_to_json) as [entries Hentries].
  destruct (default_response_ n); map_lookup; simpl;
    rewrite Hentries, get_strings_of_strings; by eexists.
Qed.

Lemma restored_rule_to_json rule : is_Some (restored_rule (rule_to_json rule)).
Proof.
  unfold restored_rule, rule_to_json, value_string, value_double, value_with.
  map_lookup. by eexists.
Qed.

Lemma chaos_from_json_to_json c c0 :
  is_Some (chaos_from_json (chaos_to_json c) c0).
Proof.
  unfold chaos_from_json, chaos_to_json, latency_from, value_bool, value_double, value_int,
    value_with, contains, at_key.
  map_lookup. simpl. map_lookup. simpl.
  rewrite get_strings_of_strings.
  destruct (mapM restored_rule (rule_to_json <$> rules_ c)) as [rules|] eqn:Hrules;
    [by eexists |].
  exfalso. assert (is_Some (None : option (list ChaosRule))) as [? ?]; [| done].
  rewrite <- Hrules. apply mapM_is_Some, Forall_fmap, Forall_true.
  intros rule. apply restored_rule_to_json.
Qed.

Lemma agents_from_json (agents : list N) :
  is_Some (mapM get_uint32 ((λ a, JInt (Z.of_N a)) <$> agents)).
Proof. apply mapM_is_Some, Forall_fmap, Forall_true. intros a. by eexists. Qed.

(** Restoring a world from its snapshot succeeds and rebuilds the files
    and the patterns of its filesystem. *)
Lemma world_from_snapshot now wall_ms world w0 :
  ∃ world',
    world_from_json now
      (match world_to_json world with
       | JObj m => JObj (<[ "snapshot_time" := JInt wall_ms ]> m)
       | j => j
       end) w0 = Some world'
    ∧ files_ (vfs_ world') = restored_file now <$> files_ (vfs_ world)
    ∧ readonly_patterns_ (vfs_ world') = readonly_patterns_ (vfs_ world)
    ∧ writable_patterns_ (vfs_ world') = writable_patterns_ (vfs_ world)
    ∧ intercept_patterns_ (vfs_ world') = intercept_patterns_ (vfs_ world).
Proof.
  unfold world_to_json, world_from_json, value_string, value_with, contains, at_key.
  map_lookup. simpl. map_lookup. simpl.
  rewrite from_json_to_json. simpl.
  destruct (network_from_json_to_json (network_ world) (network_ w0)) as [network ->].
  destruct (chaos_from_json_to_json (chaos_ world) (chaos_ w0)) as [chaos ->].
  destruct (agents_from_json (merge_sort N.le (elements (agents_ world)))) as [agents ->].
  simpl.
  eexists. split; [reflexivity |]. done.
Qed.

(** C8: restoring the snapshot of a world, under an id that is not in use,
    succeeds and yields a world whose filesystem agrees with the original on
    [read] for every path, on [list] for every pattern, and on [is_writable],
    [is_readable] and [should_intercept] for every path. *)
Theorem C8_snapshot_restore_vfs e w world wall_ms now new_world_id :
  worlds_ e !! w = Some world →
  worlds_ e !! restore_id world new_world_id e = None →
  ∃ snapshot e' world',
    snapshot_world wall_ms w e = Some snapshot
    ∧ restore_world now snapshot new_world_id e
      = (Returned (Some (restore_id world new_world_id e)), e')
    ∧ worlds_ e' !! restore_id world new_world_id e = Some world'
    ∧ (∀ p, (read p (vfs_ world')).1 = (read p (vfs_ world)).1)
    ∧ (∀ pattern, list_ pattern (vfs_ world') = list_ pattern (vfs_ world))
    ∧ (∀ p, is_writable p (vfs_ world') = is_writable p (vfs_ world))
    ∧ (∀ p, is_readable p (vfs_ world') = is_readable p (vfs_ world))
    ∧ (∀ p, should_intercept p (vfs_ world') = should_intercept p (vfs_ world)).
Proof.
  intros Hw Hfree. unfold snapshot_world. rewrite Hw.
  set (snapshot := match world_to_json world with
                   | JObj m => JObj (<[ "snapshot_time" := JInt wall_ms ]> m)
                   | j => j
                   end).
  assert (value_string snapshot "name" "restored" = Some (name_ world)) as Hname.
  { unfold snapshot, world_to_json, value_string, value_with. by map_lookup. }
  exists snapshot. unfold restore_world. rewrite Hname.
  assert ((if decide (new_world_id = "")
           then Some (generate_world_id (name_ world) e)
           else Some (new_world_id, e))
          = Some (restore_id world new_world_id e,
                  if decide (new_world_id = "")
                  then (generate_world_id (name_ world) e).2 else e)) as ->.
  { unfold restore_id. by case_decide. }
  set (e1 := if decide (new_world_id = "")
             then (generate_world_id (name_ world) e).2 else e).
  assert (worlds_ e1 = worlds_ e) as Hworlds by (unfold e1; by case_decide).
  rewrite decide_False by (rewrite Hworlds, Hfree; by intros [? ?]).
  destruct (world_from_snapshot now wall_ms world
              (new_world now (restore_id world new_world_id e)))
    as (world' & Hrestore & Hfiles & Hro & Hrw & Hint).
  fold snapshot in Hrestore. rewrite Hrestore.
  eexists _, world'. split_and!; [done | done | | | | | |];
    try apply (restored_agrees now (vfs_ world) (vfs_ world') Hfiles Hro Hrw Hint).
  simpl. apply lookup_insert_eq.
Qed.

(** Scenario E5's world, snapshot with a member and restored as "copy". *)
Lemma C8_witness :
  let config :=
    JObj {[ "virtual_filesystem" :=
              JObj (<[ "initial_files" := JObj {[ "/etc/hosts" := JStr "127.0.0.1 x" ]} ]>
                   {[ "intercept_patterns" := of_strings ["/**"] ]}) ]} in
  let e := (join_world 1 7 "lab-0001" (create_world 0 "lab" config empty_engine).2).2 in
  ∃ snapshot e' world',
    snapshot_world 99 "lab-0001" e = Some snapshot
    ∧ restore_world 5 snapshot "copy" e = (Returned (Some "copy"), e')
    ∧ worlds_ e' !! "copy" = Some world'
    ∧ (read "/etc/hosts" (vfs_ world')).1 = Some "127.0.0.1 x"
    ∧ should_intercept "/tmp/x" (vfs_ world') = true.
Proof.
  intros config e.
  assert (∃ world, worlds_ e !! "lab-0001" = Some world
                   ∧ (read "/etc/hosts" (vfs_ world)).1 = Some "127.0.0.1 x"
                   ∧ should_intercept "/tmp/x" (vfs_ world) = true)
    as (world & Hw & Hread & Hint).
  { eexists. split; [vm_compute; reflexivity |]. split; vm_compute; reflexivity. }
  destruct (C8_snapshot_restore_vfs e "lab-0001" world 99 5 "copy" Hw)
    as (snapshot & e' & world' & Hsnap & Hres & Hw' & Hr & _ & _ & _ & Hi).
  - vm_compute. reflexivity.
  - exists snapshot, e', world'.
    split; [exact Hsnap |]. split; [exact Hres |]. split; [exact Hw' |].
    split; [rewrite Hr; exact Hread | rewrite Hi; exact Hint].
Defined.

End snapshot.

(** ** State store: expiry, lookup order, deletion *)

Section state_store_more.
Import StateStore.

Implicit Types (st : gmap string StoredValue) (a b : N) (k : string).

(** An entry stored with a TTL under a scope other than "agent" is returned
    to every agent up to and including its deadline [now + ttl] seconds.  The
    first fetch after the deadline erases it, unless the deadline is exactly
    the clock's epoch, which [is_expired] reads as no expiry; that fetch
    reports exists=false when the fetching agent holds no private entry under
    the key. *)
Theorem store_ttl_deadline now now' a b k v sc ttl st :
  k ≠ "" → entry_scope sc ≠ "agent" →
  let st' := (store now a k v sc (Some ttl) st).2 in
  (now' ≤ now + seconds ttl →
     fetch now' b k st' = (mkFetchResult true true v (entry_scope sc), st'))
  ∧ (now + seconds ttl < now' → now + seconds ttl ≠ epoch →
     (fetch now' b k st').2 !! k = None
     ∧ (st !! make_agent_key b k = None →
        fetch now' b k st' = (mkFetchResult true false JNull "", delete k st))).
Proof.
  intros Hk Hsc st'. subst st'. rewrite store_spec by done. simpl.
  unfold store_key_of. rewrite decide_False by done.
  set (e := mkStoredValue v (now + seconds ttl) a (entry_scope sc)).
  pose proof (make_agent_key_ne_key b k) as Hne.
  assert (k ≠ make_agent_key b k) as Hne' by (by intros Heq; apply Hne).
  unfold fetch. rewrite decide_False by done. split.
  - intros Hle.
    rewrite (fetch_loop_hit _ _ _ _ _ e); [done | apply lookup_insert_eq | |].
    + unfold is_expired. simpl. case_decide; [done |].
      apply bool_decide_eq_false. lia.
    + by apply can_access_shared.
  - intros Hlt Hep.
    rewrite (fetch_loop_expired _ _ _ _ _ e);
      [| apply lookup_insert_eq | by apply is_expired_past].
    rewrite delete_insert_eq. split.
    + cbn [fetch_loop].
      destruct (delete k st !! make_agent_key b k) as [e0|]; [| apply lookup_delete_eq].
      destruct (is_expired now' e0).
      * cbn [snd]. rewrite lookup_delete_ne by done. apply lookup_delete_eq.
      * destruct (negb (can_access_key b e0)); apply lookup_delete_eq.
    + intros Hpriv. rewrite fetch_loop_miss; [done |].
      by rewrite lookup_delete_ne.
Qed.

Lemma store_ttl_deadline_witness :
  let st' := (store 100 1 "job" (JInt 7) "session" (Some 2) ∅).2 in
  fetch 2000000100 2 "job" st' = (mkFetchResult true true (JInt 7) "session", st')
  ∧ fetch 2000000101 2 "job" st' = (mkFetchResult true false JNull "", ∅).
Proof.
  destruct (store_ttl_deadline 100 2000000100 1 2 "job" (JInt 7) "session" 2 ∅)
    as [Hlive _]; [done | by vm_compute |].
  destruct (store_ttl_deadline 100 2000000101 1 2 "job" (JInt 7) "session" 2 ∅)
    as [_ Hdead]; [done | by vm_compute |].
  split.
  - apply Hlive. by vm_compute.
  - destruct Hdead as [_ Hgone]; [by vm_compute | by vm_compute |].
    rewrite Hgone; [by rewrite delete_empty | done].
Defined.

(** The private entries of an agent live in the same table as the shared
    ones, under the key "agent:<id>:<key>", and [fetch] tries the bare key
    first.  So while a live entry the caller may read sits under the bare key
    [k], an agent-scoped store of [k] by the caller is not what its fetch
    returns; and a store by another agent [b] under the physical key of
    [a]'s private entry replaces that entry ([store] does not look at what it
    replaces), so that the next fetch of [k] by [a] returns [b]'s value. *)
Theorem private_entries_share_the_key_space now now1 now2 now' a b k v v' ttl e st :
  k ≠ "" →
  (st !! k = Some e → is_expired now' e = false → can_access_key a e = true →
     let st' := (store now a k v "agent" ttl st).2 in
     st' !! make_agent_key a k
       = Some (mkStoredValue v (match ttl with Some t => now + seconds t | None => epoch end)
                 a "agent")
     ∧ fetch now' a k st' = (mkFetchResult true true (value e) (scope e), st'))
  ∧ (st !! k = None →
     let st1 := (store now1 a k v "agent" None st).2 in
     let st2 := (store now2 b (make_agent_key a k) v' "global" None st1).2 in
     fetch now' a k st2 = (mkFetchResult true true v' "global", st2)).
Proof.
  intros Hk. pose proof (make_agent_key_ne_key a k) as Hk'. split.
  - intros Hl Hexp Hacc st'. subst st'. rewrite store_spec by done. simpl.
    change (store_key_of a k "agent") with (make_agent_key a k).
    change (entry_scope "agent") with "agent".
    split; [apply lookup_insert_eq |].
    unfold fetch. rewrite decide_False by done.
    apply fetch_loop_hit; [| done | done].
    by rewrite lookup_insert_ne.
  - intros Hbare st1 st2. subst st1 st2.
    assert (make_agent_key a k ≠ "") as Hne by done.
    rewrite (store_spec now2) by done. rewrite (store_spec now1) by done. cbn [snd].
    change (store_key_of a k "agent") with (make_agent_key a k).
    change (store_key_of b (make_agent_key a k) "global") with (make_agent_key a k).
    change (entry_scope "global") with "global".
    unfold fetch. rewrite decide_False by done.
    rewrite fetch_loop_miss by (by rewrite !lookup_insert_ne).
    by rewrite (fetch_loop_hit _ _ _ _ _ (mkStoredValue v' epoch b "global"));
      [| apply lookup_insert_eq | |].
Qed.

Lemma private_entries_share_the_key_space_witness :
  (let st := {[ "cfg" := mkStoredValue (JStr "shared") epoch 1 "global" ]} in
   let st' := (store 5 2 "cfg" (JStr "mine") "agent" None st).2 in
   fetch 9 2 "cfg" st' = (mkFetchResult true true (JStr "shared") "global", st'))
  ∧ (let st1 := (store 1 7 "x" (JInt 42) "agent" None ∅).2 in
     let st2 := (store 2 8 "agent:7:x" (JInt 0) "global" None st1).2 in
     fetch 3 7 "x" st2 = (mkFetchResult true true (JInt 0) "global", st2)).
Proof.
  split.
  - destruct (private_entries_share_the_key_space 5 1 2 9 2 8 "cfg" (JStr "mine") JNull None
                (mkStoredValue (JStr "shared") epoch 1 "global")
                {[ "cfg" := mkStoredValue (JStr "shared") epoch 1 "global" ]})
      as [Hshadow _]; [done |].
    apply Hshadow; reflexivity.
  - destruct (private_entries_share_the_key_space 1 1 2 3 7 8 "x" (JInt 42) (JInt 0) None
                (mkStoredValue JNull epoch 0 "") ∅) as [_ Hreplace]; [done |].
    apply Hreplace. reflexivity.
Defined.

(** The loop of [erase] removes at most one entry, one of the two keys it
    tries, and only an entry the caller owns or a global one. *)
Lemma erase_loop_spec a l st :
  (erase_loop a l st = (mkDeleteResult true false, st)
   ∧ ∀ k0 e, k0 ∈ l → st !! k0 = Some e → owner_agent_id e ≠ a ∧ scope e ≠ "global")
  ∨ (∃ k0 e, k0 ∈ l ∧ st !! k0 = Some e
             ∧ (owner_agent_id e = a ∨ scope e = "global")
             ∧ erase_loop a l st = (mkDeleteResult true true, delete k0 st)).
Proof.
  induction l as [|k0 l IH]; simpl.
  - left. split; [done |]. intros k0 e Hin. by apply elem_of_nil in Hin.
  - destruct (st !! k0) as [e|] eqn:Hl.
    + case_decide as Hown.
      * right. exists k0, e. split_and!; [left | done | done | done].
      * destruct IH as [[Heq Hall] | (k1 & e1 & Hin & Hl1 & Hown1 & Heq)].
        -- left. split; [done |]. intros k1 e1 Hin Hl1.
           apply elem_of_cons in Hin as [-> | Hin]; [| by eapply Hall].
           rewrite Hl in Hl1. injection Hl1 as <-. split; intros ?; apply Hown; auto.
        -- right. exists k1, e1. split_and!; [by right | done | done | done].
    + destruct IH as [[Heq Hall] | (k1 & e1 & Hin & Hl1 & Hown1 & Heq)].
      * left. split; [done |]. intros k1 e1 Hin Hl1.
        apply elem_of_cons in Hin as [-> | Hin]; [congruence | by eapply Hall].
      * right. exists k1, e1. split_and!; [by right | done | done | done].
Qed.

(** [erase] never removes an entry that the caller does not own and that is
    not global, whatever key is asked for; it removes at most one entry; and
    it reports deleted=true exactly when it removed one. *)
Theorem erase_only_own_or_global a k st :
  (∀ k' e, st !! k' = Some e → owner_agent_id e ≠ a → scope e ≠ "global" →
     (erase a k st).2 !! k' = Some e)
  ∧ ((erase a k st).2 = st ∧ dr_deleted (erase a k st).1 = false
     ∨ ∃ k0 e, k0 ∈ [k; make_agent_key a k] ∧ st !! k0 = Some e
               ∧ (owner_agent_id e = a ∨ scope e = "global")
               ∧ erase a k st = (mkDeleteResult true true, delete k0 st)).
Proof.
  unfold erase. case_decide as Hk.
  - split; [done | by left].
  - destruct (erase_loop_spec a [k; make_agent_key a k] st)
      as [[Heq _] | (k0 & e0 & Hin & Hl0 & Hown & Heq)]; rewrite Heq; simpl.
    + split; [done | by left].
    + split; [| right; by exists k0, e0].
      intros k' e Hl Ho Hs. rewrite lookup_delete_ne; [done |].
      intros <-. rewrite Hl0 in Hl. injection Hl as ->. by destruct Hown.
Qed.

Lemma erase_only_own_or_global_witness :
  let st := {[ "plan" := mkStoredValue (JInt 1) epoch 1 "session" ]} in
  (erase 2 "plan" st).2 !! "plan" = Some (mkStoredValue (JInt 1) epoch 1 "session").
Proof.
  intros st.
  destruct (erase_only_own_or_global 2 "plan" st) as [Hkeep _].
  apply Hkeep; done.
Defined.

(** The table after the loop of [keys]: the entries that have expired are
    gone, every other entry is as before. *)
Lemma keys_fold_store now a q l acc (s : gmap string StoredValue) :
  (foldl (λ acc entry, keys_step now a q entry acc) (acc, s) l).2
    = foldl (λ s (entry : string * StoredValue),
               if is_expired now entry.2 then delete entry.1 s else s) s l.
Proof.
  revert acc s. induction l as [|[key v] l IH]; intros acc s; simpl; [done |].
  destruct (is_expired now v); [apply IH |].
  destruct (negb (can_access_key a v)); [apply IH |].
  destruct (bool_decide (q = "") || starts_with q key); apply IH.
Qed.

Lemma fold_expired_lookup now (l : list (string * StoredValue)) (s : gmap string StoredValue) key :
  foldl (λ s (entry : string * StoredValue),
           if is_expired now entry.2 then delete entry.1 s else s) s l !! key
  = if existsb (λ entry : string * StoredValue,
                  bool_decide (entry.1 = key) && is_expired now entry.2) l
    then None else s !! key.
Proof.
  revert s. induction l as [|[key0 v] l IH]; intros s; simpl; [done |].
  rewrite IH. destruct (existsb _ l); [by rewrite orb_true_r |].
  rewrite orb_false_r. case_bool_decide as Hkey; simpl.
  - subst key0. destruct (is_expired now v); [apply lookup_delete_eq | done].
  - destruct (is_expired now v); [by apply lookup_delete_ne | done].
Qed.

(** [keys] collects garbage on its way: afterwards exactly the expired
    entries are gone from the table, whoever owns them and whatever the
    prefix; and every name it returns is the reported name of a live entry
    the caller may read. *)
Theorem keys_removes_expired now a q st :
  (∀ key, (keys now a q st).2 !! key
          = match st !! key with
            | Some v => if is_expired now v then None else Some v
            | None => None
            end)
  ∧ (∀ n, n ∈ (keys now a q st).1 →
       ∃ key v, st !! key = Some v ∧ is_expired now v = false
                ∧ can_access_key a v = true ∧ n = reported_name key).
Proof.
  split.
  - intros key. unfold keys. rewrite keys_fold_store, fold_expired_lookup.
    destruct (existsb _ _) eqn:Hex.
    + apply existsb_exists in Hex as ([key0 v] & Hin & Hb).
      apply andb_true_iff in Hb as [Hkey Hexp]. apply bool_decide_eq_true in Hkey.
      simpl in *. subst key0. apply list_elem_of_In, elem_of_map_to_list in Hin.
      by rewrite Hin, Hexp.
    + destruct (st !! key) as [v|] eqn:Hl; [| done].
      destruct (is_expired now v) eqn:Hexp; [| done].
      exfalso. apply not_true_iff_false in Hex. apply Hex.
      apply existsb_exists. exists (key, v). split.
      * by apply list_elem_of_In, elem_of_map_to_list.
      * simpl. rewrite Hexp. by rewrite bool_decide_eq_true_2.
  - intros n Hn. apply keys_spec in Hn as (key & v & ? & ? & ? & _ & ?).
    by exists key, v.
Qed.

Lemma keys_removes_expired_witness :
  let st : gmap string StoredValue :=
    <[ "old" := mkStoredValue (JInt 1) 50 1 "global" ]>
      {[ "agent:2:mine" := mkStoredValue (JInt 2) epoch 2 "agent" ]} in
  (keys 100 1 "" st).2 !! "old" = None
  ∧ (keys 100 1 "" st).2 !! "agent:2:mine" = Some (mkStoredValue (JInt 2) epoch 2 "agent")
  ∧ "mine" ∉ (keys 100 1 "" st).1.
Proof.
  intros st. destruct (keys_removes_expired 100 1 "" st) as [Hstore Hnames].
  split; [by rewrite Hstore |]. split; [by rewrite Hstore |].
  intros Hin. destruct (Hnames "mine" Hin) as (key & v & Hl & Hexp & Hacc & _).
  unfold st in Hl. apply lookup_insert_Some in Hl as [[<- <-] | [_ Hl]]; [done |].
  apply lookup_singleton_Some in Hl as [<- <-]. done.
Defined.

End state_store_more.
(** ** Event bus: subscriptions, delivery order, the event syscalls *)

Section event_bus_more.
Import EventBus.

Implicit Types (bus : EventBus) (s : N).

Lemma unknown_event_name_is_custom str :
  (∀ t, str ≠ kernel_event_type_to_string t) → kernel_event_type_from_string str = CUSTOM.
Proof.
  intros Hno. unfold kernel_event_type_from_string.
  repeat case_decide; try done; subst str.
  - by destruct (Hno AGENT_SPAWNED).
  - by destruct (Hno AGENT_EXITED).
  - by destruct (Hno AGENT_PAUSED).
  - by destruct (Hno AGENT_RESUMED).
  - by destruct (Hno AGENT_RESTARTING).
  - by destruct (Hno AGENT_ESCALATED).
  - by destruct (Hno MESSAGE_RECEIVED).
  - by destruct (Hno STATE_CHANGED).
  - by destruct (Hno SYSCALL_BLOCKED).
  - by destruct (Hno RESOURCE_WARNING).
Qed.

Lemma foldl_insert_types (types : list KernelEventType) (subs : gset KernelEventType) :
  foldl (λ acc t, {[ t ]} ∪ acc) subs types = subs ∪ list_to_set types.
Proof.
  revert subs. induction types as [|t types IH]; intros subs; simpl.
  - set_solver.
  - rewrite IH. set_solver.
Qed.

Lemma foldl_erase_types (types : list KernelEventType) (subs : gset KernelEventType) :
  foldl (λ acc t, acc ∖ {[ t ]}) subs types = subs ∖ list_to_set types.
Proof.
  revert subs. induction types as [|t types IH]; intros subs; simpl.
  - set_solver.
  - rewrite IH. set_solver.
Qed.

Lemma subscribe_subscriptions_of s s' types bus :
  subscriptions_of s' (subscribe s types bus)
  = if decide (s' = s) then subscriptions_of s bus ∪ list_to_set types
    else subscriptions_of s' bus.
Proof.
  unfold subscriptions_of, subscribe. simpl. case_decide as Heq.
  - subst s'. rewrite lookup_insert_eq. simpl. apply foldl_insert_types.
  - by rewrite lookup_insert_ne.
Qed.

Lemma unsubscribe_subscriptions_of s s' types all bus :
  subscriptions_of s' (unsubscribe s types all bus)
  = if decide (s' = s)
    then (if all then ∅ else subscriptions_of s bus ∖ list_to_set types)
    else subscriptions_of s' bus.
Proof.
  unfold subscriptions_of, unsubscribe. destruct all; simpl.
  - case_decide as Heq; [subst s'; by rewrite lookup_delete_eq | by rewrite lookup_delete_ne].
  - destruct (subscriptions_ bus !! s) as [subs|] eqn:Hl; simpl.
    + case_decide as Heq.
      * subst s'. rewrite lookup_insert_eq. simpl. apply foldl_erase_types.
      * by rewrite lookup_insert_ne.
    + case_decide as Heq; [| done]. subst s'. rewrite Hl. simpl. set_solver.
Qed.

(** [subscribe] adds the listed types to the caller's subscriptions,
    [unsubscribe] removes the listed types, or all of them; neither changes
    the subscriptions of another agent, nor any queue: events queued before
    an unsubscribe stay queued. *)
Theorem subscriptions_add_and_remove s types all bus :
  subscriptions_of s (subscribe s types bus) = subscriptions_of s bus ∪ list_to_set types
  ∧ subscriptions_of s (unsubscribe s types all bus)
    = (if all then ∅ else subscriptions_of s bus ∖ list_to_set types)
  ∧ (∀ s', s' ≠ s →
       subscriptions_of s' (subscribe s types bus) = subscriptions_of s' bus
       ∧ subscriptions_of s' (unsubscribe s types all bus) = subscriptions_of s' bus)
  ∧ queues_ (subscribe s types bus) = queues_ bus
  ∧ queues_ (unsubscribe s types all bus) = queues_ bus.
Proof.
  split_and!.
  - rewrite subscribe_subscriptions_of. by rewrite decide_True.
  - rewrite unsubscribe_subscriptions_of. by rewrite decide_True.
  - intros s' Hne. rewrite subscribe_subscriptions_of, unsubscribe_subscriptions_of.
    by rewrite !decide_False.
  - done.
  - unfold unsubscribe. destruct all; [done |].
    by destruct (subscriptions_ bus !! s).
Qed.

Lemma subscriptions_add_and_remove_witness :
  subscriptions_of 2 (subscribe 1 [CUSTOM] (mkEventBus ∅ ∅)) = ∅.
Proof.
  destruct (subscriptions_add_and_remove 1 [CUSTOM] false (mkEventBus ∅ ∅))
    as (_ & _ & Hother & _).
  destruct (Hother 2%N) as [Hsub _]; [done |]. rewrite Hsub. reflexivity.
Defined.

Lemma poll_queue_of s s' n bus :
  queue_of s' (poll s n bus).2
  = if decide (s' = s) then drop (Z.to_nat n) (queue_of s bus) else queue_of s' bus.
Proof.
  unfold queue_of, poll. destruct (queues_ bus !! s) as [queue|] eqn:Hl; simpl.
  - case_decide as Heq.
    + subst s'. by rewrite lookup_insert_eq.
    + by rewrite lookup_insert_ne.
  - case_decide as Heq; [| done]. subst s'. rewrite Hl. simpl. by rewrite drop_nil.
Qed.

Lemma poll_events s n bus :
  (poll s n bus).1 = JArr (event_to_json <$> take (Z.to_nat n) (queue_of s bus)).
Proof.
  unfold queue_of, poll. destruct (queues_ bus !! s) as [queue|]; simpl; [done |].
  by rewrite take_nil.
Qed.

(** [poll] hands out the oldest events first and drops what it hands out:
    it returns the first [max_events] events of the caller's queue (none when
    [max_events] is not positive) and leaves the rest; two polls in a row
    return what one poll for the sum would; no other queue and no
    subscription changes. *)
Theorem poll_is_first_in_first_out s n m bus :
  (poll s n bus).1 = JArr (event_to_json <$> take (Z.to_nat n) (queue_of s bus))
  ∧ queue_of s (poll s n bus).2 = drop (Z.to_nat n) (queue_of s bus)
  ∧ (0 ≤ n → 0 ≤ m →
       (elements_of (poll s n bus).1 ++ elements_of (poll s m (poll s n bus).2).1)%list
         = elements_of (poll s (n + m) bus).1
       ∧ queue_of s (poll s m (poll s n bus).2).2 = queue_of s (poll s (n + m) bus).2)
  ∧ (∀ s', s' ≠ s → queue_of s' (poll s n bus).2 = queue_of s' bus)
  ∧ subscriptions_ (poll s n bus).2 = subscriptions_ bus.
Proof.
  split_and!.
  - apply poll_events.
  - rewrite poll_queue_of. by rewrite decide_True.
  - intros Hn Hm. rewrite !poll_events, !poll_queue_of, !decide_True by done. simpl.
    rewrite Z2Nat.inj_add by done. split.
    + rewrite <- fmap_app. f_equal. by rewrite take_take_drop.
    + by rewrite drop_drop.
  - intros s' Hne. rewrite poll_queue_of. by rewrite decide_False.
  - unfold poll. by destruct (queues_ bus !! s).
Qed.

Lemma poll_is_first_in_first_out_witness :
  let e1 := mkKernelEvent CUSTOM JNull 1 7 in
  let e2 := mkKernelEvent CUSTOM JNull 2 7 in
  let e3 := mkKernelEvent CUSTOM JNull 3 7 in
  let bus := mkEventBus ∅ {[ 1%N := [e1; e2; e3] ]} in
  (elements_of (poll 1 1 bus).1 ++ elements_of (poll 1 1 (poll 1 1 bus).2).1)%list
    = elements_of (poll 1 (1 + 1) bus).1
  ∧ queue_of 1 (poll 1 1 (poll 1 1 bus).2).2 = queue_of 1 (poll 1 (1 + 1) bus).2.
Proof.
  intros e1 e2 e3 bus.
  destruct (poll_is_first_in_first_out 1 1 1 bus) as (_ & _ & Hsum & _).
  apply Hsum; lia.
Defined.

(** An agent that subscribes to a type and has nothing queued receives the
    next event of that type: the poll that follows returns it, with its type
    name, data, source and time stamp in milliseconds, and empties the queue. *)
Theorem subscribed_event_is_polled now ty d src s types n bus :
  ty ∈ types → 0 < n → queue_of s bus = [] →
  let bus' := emit now ty d src (subscribe s types bus) in
  (poll s n bus').1 = JArr [event_to_json (mkKernelEvent ty d now src)]
  ∧ queue_of s (poll s n bus').2 = [].
Proof.
  intros Hty Hn Hq bus'. subst bus'.
  assert (queue_of s (emit now ty d src (subscribe s types bus))
          = [mkKernelEvent ty d now src]) as Hqueue.
  { rewrite emit_queue_of, subscribe_subscriptions_of.
    rewrite (decide_True (P := s = s)) by done.
    rewrite decide_True by set_solver.
    unfold queue_of in *. simpl. by rewrite Hq. }
  rewrite poll_events, poll_queue_of, decide_True, Hqueue by done.
  destruct (Z.to_nat n) as [|k] eqn:Hk; [lia |]. simpl.
  by rewrite take_nil, drop_nil.
Qed.

Lemma subscribed_event_is_polled_witness :
  let bus' := emit 5000000 STATE_CHANGED (JStr "x") 3
                (subscribe 1 [AGENT_EXITED; STATE_CHANGED] (mkEventBus ∅ ∅)) in
  (poll 1 100 bus').1
    = JArr [event_to_json (mkKernelEvent STATE_CHANGED (JStr "x") 5000000 3)]
  ∧ queue_of 1 (poll 1 100 bus').2 = [].
Proof.
  apply (subscribed_event_is_polled 5000000 STATE_CHANGED (JStr "x") 3 1
           [AGENT_EXITED; STATE_CHANGED] 100 (mkEventBus ∅ ∅)).
  - set_solver.
  - lia.
  - reflexivity.
Defined.



(** The event syscalls end to end.  An agent with nothing queued whose
    SYS_SUBSCRIBE request lists "CUSTOM", or a name that is not the name of a
    kernel event type, receives the event of the next well-formed SYS_EMIT
    request: its SYS_POLL_EVENTS request with a positive "max" (or none: 100)
    is answered with that one event, of type "CUSTOM", with the emitter as
    source, under a count of 1, and leaves its queue empty. *)
Theorem emitted_event_reaches_subscriber now sub em pl bus js names name je
    event_name event_data jp max_events :
  payload sub = Some js → requested_events js = Some names → name ∈ names →
  (name = "CUSTOM" ∨ ∀ t, name ≠ kernel_event_type_to_string t) →
  payload em = Some je → well_formed_emit je event_name event_data →
  agent_id pl = agent_id sub → payload pl = Some jp →
  value_int jp "max" 100 = Some max_events → 0 < max_events →
  queue_of (agent_id sub) bus = [] →
  let bus1 := (handle_subscribe sub bus).2 in
  let bus2 := (handle_emit now em bus1).2 in
  ∃ d, emit_data event_name event_data = Some d
    ∧ (handle_poll_events pl bus2).1
      = JObj (<[ "count" := JInt 1 ]>
             (<[ "events" := JArr [event_to_json (mkKernelEvent CUSTOM d now (agent_id em))] ]>
             (<[ "success" := JBool true ]> ∅)))
    ∧ queue_of (agent_id sub) (handle_poll_events pl bus2).2 = [].
Proof.
  intros Hsub Hreq Hin Hname Hem Hwf Hid Hpl Hmax Hpos Hq bus1 bus2.
  destruct (emit_data_well_formed _ _ _ Hwf) as [d Hd].
  exists d. split; [done |].
  assert (CUSTOM ∈ subscriptions_of (agent_id sub) bus1) as Hcustom.
  { subst bus1. unfold handle_subscribe. rewrite Hsub, Hreq.
    destruct names as [|name0 names']; [by apply elem_of_nil in Hin |].
    cbv beta iota. cbn [fst snd].
    rewrite subscribe_subscriptions_of, decide_True by done.
    apply elem_of_union_r, elem_of_list_to_set, list_elem_of_fmap.
    exists name. split; [| done].
    destruct Hname as [-> | Hno]; [done |].
    symmetry. by apply unknown_event_name_is_custom. }
  assert (queue_of (agent_id sub) bus1 = []) as Hq1.
  { subst bus1. unfold handle_subscribe. rewrite Hsub, Hreq.
    by destruct names. }
  assert (queue_of (agent_id sub) bus2 = [mkKernelEvent CUSTOM d now (agent_id em)]) as Hq2.
  { subst bus2. unfold handle_emit. destruct Hwf as (Hev & Hdata & _).
    rewrite Hem, Hev, Hdata, Hd. cbn [fst snd].
    rewrite emit_queue_of, decide_True by done. by rewrite Hq1. }
  unfold handle_poll_events. rewrite Hpl, Hmax, Hid.
  pose proof (poll_events (agent_id sub) max_events bus2) as Hevents.
  pose proof (poll_queue_of (agent_id sub) (agent_id sub) max_events bus2) as Hqueue.
  rewrite decide_True in Hqueue by done.
  destruct (poll (agent_id sub) max_events bus2) as [events_array bus'].
  cbn [fst snd] in *. subst events_array. rewrite Hqueue, Hq2.
  destruct (Z.to_nat max_events) as [|k] eqn:Hk; [lia |]. simpl.
  by rewrite take_nil, drop_nil.
Qed.

Lemma emitted_event_reaches_subscriber_witness :
  let sub := mkMessage 1 (Some (JObj {[ "event" := JStr "build.done" ]})) in
  let em := mkMessage 2 (Some (JObj (<[ "event" := JStr "build.done" ]>
                                    {[ "data" := JObj {[ "ok" := JBool true ]} ]}))) in
  let pl := mkMessage 1 (Some (JObj ∅)) in
  let bus1 := (handle_subscribe sub (mkEventBus ∅ ∅)).2 in
  let bus2 := (handle_emit 7000000 em bus1).2 in
  (handle_poll_events pl bus2).1
  = JObj (<[ "count" := JInt 1 ]>
         (<[ "events" :=
               JArr [JObj (<[ "timestamp" := JInt 7 ]>
                          (<[ "source_agent_id" := JInt 2 ]>
                          (<[ "data" := JObj (<[ "custom_type" := JStr "build.done" ]>
                                             {[ "ok" := JBool true ]}) ]>
                          (<[ "type" := JStr "CUSTOM" ]> ∅))))] ]>
         (<[ "success" := JBool true ]> ∅))).
Proof.
  intros sub em pl bus1 bus2.
  destruct (emitted_event_reaches_subscriber 7000000 sub em pl (mkEventBus ∅ ∅)
              (JObj {[ "event" := JStr "build.done" ]}) ["build.done"] "build.done"
              (JObj (<[ "event" := JStr "build.done" ]>
                       {[ "data" := JObj {[ "ok" := JBool true ]} ]}))
              "build.done" (JObj {[ "ok" := JBool true ]}) (JObj ∅) 100)
    as (d & Hd & Hresp & _).
  - reflexivity.
  - reflexivity.
  - set_solver.
  - right. intros []; discriminate.
  - reflexivity.
  - split_and!; [reflexivity | reflexivity | by right].
  - reflexivity.
  - reflexivity.
  - reflexivity.
  - lia.
  - reflexivity.
  - injection Hd as <-. exact Hresp.
Defined.

End event_bus_more.
(** ** Virtual filesystem: paths, patterns, removal, listing *)

Section virtual_fs_more.
Import VirtualFs.

Implicit Types (vfs : VirtualFilesystem) (path : string).

Lemma is_writable_not_denied path vfs :
  is_writable path vfs = true → ¬ write_denied path vfs.
Proof.
  unfold is_writable, write_denied. intros Hw [(file & Hl & Hr) | (Hl & Hpat & Hm)].
  - rewrite Hl in Hw. by rewrite bool_decide_eq_true_2 in Hw.
  - rewrite Hl in Hw. rewrite bool_decide_eq_false_2 in Hw by done. congruence.
Qed.

(** [is_writable] answers what [write] would do: it is true exactly when a
    write to the path succeeds, whatever the content and the append flag. *)
Theorem is_writable_predicts_write now path content append vfs :
  (write now path content append vfs).1 = is_writable path vfs.
Proof.
  unfold write, is_writable.
  destruct (files_ vfs !! normalize_path path) as [file|] eqn:Hl.
  - destruct (bool_decide (mode file = "r")); [done |]. cbn [negb].
    destruct (negb _ && bool_decide (Some file = None) && _) eqn:Hden; [| done].
    apply andb_true_iff in Hden as [Hden _]. apply andb_true_iff in Hden as [_ Hden].
    by apply bool_decide_eq_true in Hden.
  - rewrite (bool_decide_eq_true_2 (None = None)) by done.
    destruct (matches_any _ _); [by destruct (bool_decide _) |].
    by destruct (bool_decide (writable_patterns_ vfs = [])).
Qed.

(** [remove] succeeds exactly when the normalized path holds a file whose
    mode is not "r"; then that file is gone and nothing else changes; when it
    fails the filesystem is as before. *)
Theorem remove_succeeds_iff path vfs :
  let p := normalize_path path in
  let r := remove path vfs in
  (r.1 = true ↔ ∃ file, files_ vfs !! p = Some file ∧ mode file ≠ "r")
  ∧ (r.1 = true →
       files_ r.2 = delete p (files_ vfs)
       ∧ readonly_patterns_ r.2 = readonly_patterns_ vfs
       ∧ writable_patterns_ r.2 = writable_patterns_ vfs
       ∧ intercept_patterns_ r.2 = intercept_patterns_ vfs
       ∧ exists_ path r.2 = false)
  ∧ (r.1 = false → r.2 = vfs).
Proof.
  intros p r. subst p r. unfold remove, exists_.
  destruct (files_ vfs !! normalize_path path) as [file|] eqn:Hl.
  - case_decide as Hr; simpl.
    + split_and!; [| done | done].
      split; [done |]. intros (file' & [= <-] & Hne). done.
    + split_and!; [| | done].
      * split; [| done]. intros _. by exists file.
      * intros _. split_and!; try done.
        apply bool_decide_eq_false. rewrite lookup_delete_eq. by intros [? ?].
  - simpl. split_and!; [| done | done].
    split; [done |]. by intros (file' & ? & _).
Qed.

Lemma remove_succeeds_iff_witness :
  let vfs := mkVirtualFilesystem {[ "/a" := mkVirtualFile "x" "rw" 0 0 ]} [] [] [] 0 0 0 0 in
  files_ (remove "a/./" vfs).2 = delete "/a" (files_ vfs)
  ∧ exists_ "a/./" (remove "a/./" vfs).2 = false.
Proof.
  intros vfs.
  destruct (remove_succeeds_iff "a/./" vfs) as (_ & Hgone & _).
  destruct Hgone as (Hfiles & _ & _ & _ & Hex); [reflexivity |].
  split; [exact Hfiles | exact Hex].
Defined.

Lemma apply_fs_op_readonly vfs op p file :
  files_ vfs !! p = Some file → mode file = "r" →
  files_ (apply_fs_op vfs op) !! p = Some file.
Proof.
  intros Hl Hr. destruct op as [path | now path content append | path]; simpl.
  - unfold read. by destruct (files_ vfs !! normalize_path path).
  - unfold write.
    destruct (files_ vfs !! normalize_path path) as [file'|] eqn:Hl'.
    + destruct (bool_decide (mode file' = "r")) eqn:Hr'; [done |].
      apply bool_decide_eq_false in Hr'.
      destruct (negb _ && bool_decide (Some file' = None) && _); [done |]. simpl.
      rewrite lookup_insert_ne; [done |]. intros <-. congruence.
    + destruct (negb _ && bool_decide (None = None) && _); [done |]. simpl.
      rewrite lookup_insert_ne; [done |]. intros <-. congruence.
  - unfold remove.
    destruct (files_ vfs !! normalize_path path) as [file'|] eqn:Hl'; [| done].
    case_decide as Hr'; [done |]. simpl.
    rewrite lookup_delete_ne; [done |]. intros <-. congruence.
Qed.

(** A file with mode "r" cannot be changed through the file operations:
    after any sequence of reads, writes and removes, of any paths, it is
    stored with the same content, mode and time stamps. *)
Theorem readonly_file_is_immutable ops vfs p file :
  files_ vfs !! p = Some file → mode file = "r" →
  files_ (foldl apply_fs_op vfs ops) !! p = Some file.
Proof.
  revert vfs. induction ops as [|op ops IH]; intros vfs Hl Hr; simpl; [done |].
  apply IH; [| done]. by apply apply_fs_op_readonly.
Qed.

Lemma readonly_file_is_immutable_witness :
  let vfs := mkVirtualFilesystem {[ "/etc/hosts" := mkVirtualFile "h" "r" 0 0 ]}
               [] [] [] 0 0 0 0 in
  files_ (foldl apply_fs_op vfs
            [FsWrite 5 "/etc/hosts" "x" false; FsRemove "etc/hosts"; FsWrite 6 "/tmp/y" "y" true])
    !! "/etc/hosts" = Some (mkVirtualFile "h" "r" 0 0).
Proof.
  intros vfs. apply (readonly_file_is_immutable _ vfs "/etc/hosts"); reflexivity.
Defined.

(** [list] returns, in ascending order and without repetition, exactly the
    stored paths that the pattern selects: all of them for "*" and "/**",
    those the glob matches otherwise. *)
Theorem list_selects_sorted pattern vfs :
  (∀ p, p ∈ list_ pattern vfs ↔
        is_Some (files_ vfs !! p)
        ∧ (pattern = "*" ∨ pattern = "/**" ∨ matches_pattern p pattern = true))
  ∧ Sorted String.le (list_ pattern vfs)
  ∧ NoDup (list_ pattern vfs).
Proof.
  unfold list_.
  set (f := λ path : string, bool_decide (pattern = "*") || bool_decide (pattern = "/**")
                             || matches_pattern path pattern).
  assert (∀ p, f p = true ↔ pattern = "*" ∨ pattern = "/**" ∨ matches_pattern p pattern = true)
    as Hf.
  { intros p. unfold f. rewrite !orb_true_iff, !bool_decide_eq_true. tauto. }
  split_and!.
  - intros p. rewrite merge_sort_Permutation.
    rewrite list_elem_of_In, filter_In, <- list_elem_of_In, Hf.
    rewrite list_elem_of_fmap. split.
    + intros [([p' file] & -> & Hin) Hsel]. apply elem_of_map_to_list in Hin.
      split; [by eexists | done].
    + intros [[file Hl] Hsel]. split; [| done].
      exists (p, file). split; [done | by apply elem_of_map_to_list].
  - apply Sorted_merge_sort. apply _.
  - rewrite merge_sort_Permutation. apply NoDup_ListNoDup, List.NoDup_filter, NoDup_ListNoDup.
    apply NoDup_fst_map_to_list.
Qed.

(** *** Canonical paths *)

Lemma string_app_nil_r (s : string) : s +:+ "" = s.
Proof.
  induction s as [|c s IH]; [done |].
  change (String c (s +:+ "") = String c s). by rewrite IH.
Qed.

Lemma all_chars_app ok (s1 s2 : string) :
  all_chars ok (s1 +:+ s2) = all_chars ok s1 && all_chars ok s2.
Proof.
  induction s1 as [|c s1 IH]; [done |].
  change (ok c && all_chars ok (s1 +:+ s2) = ok c && all_chars ok s1 && all_chars ok s2).
  rewrite IH. by rewrite andb_assoc.
Qed.

(** A segment without "/" is read in one piece. *)
Lemma split_slash_app (p rest cur : string) :
  all_chars is_non_slash p = true →
  split_slash (p +:+ rest) cur = split_slash rest (cur +:+ p).
Proof.
  revert cur. induction p as [|c p IH]; intros cur Hp.
  - by rewrite string_app_nil_r.
  - simpl in Hp. apply andb_true_iff in Hp as [Hc Hp].
    apply negb_true_iff, bool_decide_eq_false in Hc.
    change (split_slash (String c (p +:+ rest)) cur = split_slash rest (cur +:+ String c p)).
    simpl. rewrite decide_False by done. rewrite IH by done.
    by rewrite string_app_assoc.
Qed.

Lemma split_slash_join (parts : list string) (cur : string) :
  Forall (λ p, all_chars is_non_slash p = true) parts →
  split_slash (join_parts parts) cur
  = match parts with
    | [] => [cur]
    | p :: rest => (cur +:+ p) :: rest
    end.
Proof.
  revert cur. induction parts as [|p parts IH]; intros cur Hparts; [done |].
  apply Forall_cons in Hparts as [Hp Hparts].
  destruct parts as [|q parts].
  - simpl. rewrite <- (string_app_nil_r p) at 1. by rewrite split_slash_app.
  - change (join_parts (p :: q :: parts)) with (p +:+ String "/" (join_parts (q :: parts))).
    rewrite split_slash_app by done.
    change (split_slash (String "/" (join_parts (q :: parts))) (cur +:+ p))
      with ((cur +:+ p) :: split_slash (join_parts (q :: parts)) "").
    by rewrite (IH "" Hparts).
Qed.

Lemma foldl_push_clean (acc parts : list string) :
  Forall clean_part parts → foldl push_part acc parts = (acc ++ parts)%list.
Proof.
  revert acc. induction parts as [|p parts IH]; intros acc Hparts; simpl.
  - by rewrite app_nil_r.
  - apply Forall_cons in Hparts as [(Hne & Hdot & Hdots & _) Hparts].
    rewrite IH by done. unfold push_part.
    rewrite decide_False by (intros [|]; done). rewrite decide_False by done.
    by rewrite <- app_assoc.
Qed.

Lemma split_slash_all_chars ok (path cur : string) :
  all_chars ok path = true → all_chars ok cur = true →
  Forall (λ p, all_chars ok p = true) (split_slash path cur).
Proof.
  revert cur. induction path as [|c path IH]; intros cur Hpath Hcur; simpl.
  - by constructor.
  - simpl in Hpath. apply andb_true_iff in Hpath as [Hc Hpath]. case_decide.
    + constructor; [done |]. by apply IH.
    + apply IH; [done |]. rewrite all_chars_app, Hcur. simpl. by rewrite Hc.
Qed.

Lemma split_slash_no_slash (path cur : string) :
  all_chars is_non_slash cur = true →
  Forall (λ p, all_chars is_non_slash p = true) (split_slash path cur).
Proof.
  revert cur. induction path as [|c path IH]; intros cur Hcur; simpl.
  - by constructor.
  - case_decide as Hc.
    + constructor; [done |]. by apply IH.
    + apply IH. rewrite all_chars_app, Hcur. simpl.
      unfold is_non_slash. by rewrite bool_decide_eq_false_2.
Qed.

Lemma Forall_removelast {A} (P : A → Prop) (l : list A) :
  Forall P l → Forall P (removelast l).
Proof.
  induction 1 as [|x l Hx Hl IH]; simpl; [done |].
  destruct l; [done |]. by constructor.
Qed.

Lemma foldl_push_part_Forall (P : string → Prop) (acc segments : list string) :
  Forall P acc → Forall P segments → Forall P (foldl push_part acc segments).
Proof.
  revert acc. induction segments as [|p segments IH]; intros acc Hacc Hsegs; simpl; [done |].
  apply Forall_cons in Hsegs as [Hp Hsegs]. apply IH; [| done].
  unfold push_part. case_decide; [done |].
  case_decide; [by apply Forall_removelast |].
  apply Forall_app. split; [done | by constructor].
Qed.

Lemma foldl_push_part_clean (acc segments : list string) :
  Forall clean_part acc →
  Forall (λ p, all_chars is_non_slash p = true) segments →
  Forall clean_part (foldl push_part acc segments).
Proof.
  revert acc. induction segments as [|p segments IH]; intros acc Hacc Hsegs; simpl; [done |].
  apply Forall_cons in Hsegs as [Hp Hsegs]. apply IH; [| done].
  unfold push_part. case_decide as Hempty; [done |].
  case_decide as Hdots; [by apply Forall_removelast |].
  apply Forall_app. split; [done |]. constructor; [| done].
  split_and!; [| | done | done]; intros ->; apply Hempty; auto.
Qed.

Lemma normalize_path_parts path :
  ∃ parts, normalize_path path = String "/" (join_parts parts) ∧ Forall clean_part parts
           ∧ (path ≠ "" → parts = foldl push_part [] (split_slash path "")).
Proof.
  unfold normalize_path. case_decide as Hpath.
  - exists []. split_and!; [done | constructor | done].
  - exists (foldl push_part [] (split_slash path "")). split_and!; [done | | done].
    apply foldl_push_part_clean; [constructor |]. by apply split_slash_no_slash.
Qed.

Lemma normalize_canonical (parts : list string) :
  Forall clean_part parts →
  normalize_path (String "/" (join_parts parts)) = String "/" (join_parts parts).
Proof.
  intros Hparts. unfold normalize_path. rewrite decide_False by done.
  change ("/" +:+ ?s) with (String "/" s). f_equal. f_equal.
  change (split_slash (String "/" (join_parts parts)) "")
    with ("" :: split_slash (join_parts parts) "").
  rewrite split_slash_join by (eapply Forall_impl; [done |]; by intros ? (_ & _ & _ & ?)).
  destruct parts as [|p parts]; [done |].
  change (foldl push_part [] ("" :: ("" +:+ p) :: parts))
    with (foldl push_part [] (p :: parts)).
  by rewrite foldl_push_clean.
Qed.

(** A normalized path is "/" followed by segments joined with "/", none of
    which is empty, "." or ".." (a ".." at the root is dropped, so the path
    never leaves the root); normalizing it again changes nothing. *)
Theorem normalize_path_is_canonical path :
  (∃ parts, normalize_path path = String "/" (join_parts parts) ∧ Forall clean_part parts)
  ∧ normalize_path (normalize_path path) = normalize_path path.
Proof.
  destruct (normalize_path_parts path) as (parts & Heq & Hclean & _).
  split; [by exists parts |].
  rewrite Heq. by apply normalize_canonical.
Qed.

(** *** Patterns *)

Lemma glob_to_regex_literal (c : ascii) (rest : string) :
  c ≠ "*"%char → c ≠ "?"%char →
  glob_to_regex (String c rest) = Lit c :: glob_to_regex rest.
Proof.
  intros Hstar Hq.
  destruct c as [[] [] [] [] [] [] [] []]; try reflexivity; by destruct rest.
Qed.

Lemma literal_pattern path pattern :
  is_literal pattern = true →
  matches_pattern path pattern = bool_decide (lower path = lower pattern).
Proof.
  unfold matches_pattern. revert path.
  induction pattern as [|c pattern IH]; intros path Hlit.
  - destruct path; [done |]. symmetry. apply bool_decide_eq_false. simpl. discriminate.
  - simpl in Hlit. apply andb_true_iff in Hlit as [Hc Hlit].
    apply andb_true_iff in Hc as [Hstar Hq].
    apply negb_true_iff, bool_decide_eq_false in Hstar, Hq.
    rewrite glob_to_regex_literal by done.
    destruct path as [|d path].
    { symmetry. apply bool_decide_eq_false. simpl. discriminate. }
    change (eq_nocase c d && regex_match (glob_to_regex pattern) path
            = bool_decide (String (to_lower d) (lower path)
                           = String (to_lower c) (lower pattern))).
    rewrite IH by done. unfold eq_nocase.
    repeat case_bool_decide; simpl; congruence.
Qed.

Lemma star_match_any_to_end (s : string) :
  star_match is_any_char (regex_match []) s = one_line s.
Proof.
  induction s as [|c s IH]; [done |].
  change (regex_match [] (String c s)
          || is_any_char c && star_match is_any_char (regex_match []) s
          = is_any_char c && one_line s).
  rewrite IH.
  assert (regex_match [] (String c s) = false) as -> by (by apply bool_decide_eq_false).
  done.
Qed.

Lemma double_star_on_normalized path :
  matches_pattern (normalize_path path) "/**" = one_line (normalize_path path)
  ∧ (one_line path = true → matches_pattern (normalize_path path) "/**" = true).
Proof.
  destruct (normalize_path_parts path) as (parts & Heq & Hclean & Hparts).
  assert (matches_pattern (normalize_path path) "/**" = one_line (normalize_path path)) as Hall.
  { rewrite Heq.
    change (matches_pattern (String "/" (join_parts parts)) "/**")
      with (eq_nocase "/" "/" && star_match is_any_char (regex_match []) (join_parts parts)).
    rewrite star_match_any_to_end. reflexivity. }
  rewrite Heq in *. split; [done |].
  intros Hline. rewrite Hall.
  destruct (decide (path = "")) as [-> | Hne].
  { unfold normalize_path in Heq. simpl in Heq. by rewrite <- Heq. }
  change (one_line (String "/" (join_parts parts))) with (one_line (join_parts parts)).
  assert (Forall (λ p, all_chars is_any_char p = true) parts) as Hlines.
  { rewrite (Hparts Hne). apply foldl_push_part_Forall; [constructor |].
    by apply split_slash_all_chars. }
  clear -Hlines. unfold one_line.
  induction Hlines as [|p parts Hp _ IH]; [done |].
  destruct parts as [|q parts]; [done |].
  change (join_parts (p :: q :: parts)) with (p +:+ String "/" (join_parts (q :: parts))).
  rewrite all_chars_app, Hp. simpl. exact IH.
Qed.

(** How [matches_pattern] reads patterns.  A pattern without "*" and "?"
    matches the paths equal to it up to the case of letters, and no other.
    On normalized paths the pattern "*" matches nothing, since "*" does not
    match across "/" and every normalized path starts with "/"; the pattern
    "/**" matches every normalized path that holds no line terminator, and no
    other. *)
Theorem matches_pattern_literal_and_star path pattern :
  (is_literal pattern = true →
     matches_pattern path pattern = bool_decide (lower path = lower pattern))
  ∧ matches_pattern (normalize_path path) "*" = false
  ∧ matches_pattern (normalize_path path) "/**" = one_line (normalize_path path)
  ∧ (one_line path = true → matches_pattern (normalize_path path) "/**" = true).
Proof.
  destruct (normalize_path_parts path) as (parts & Heq & _).
  destruct (double_star_on_normalized path) as [Hall Hline].
  split_and!; [apply literal_pattern | | done | done].
  by rewrite Heq.
Qed.

Lemma matches_pattern_literal_and_star_witness :
  matches_pattern "/Data/Report.TXT" "/data/report.txt" = true
  ∧ matches_pattern (normalize_path "data/../etc/./hosts") "/**" = true.
Proof.
  split.
  - destruct (matches_pattern_literal_and_star "/Data/Report.TXT" "/data/report.txt")
      as (Hliteral & _).
    rewrite Hliteral by reflexivity. reflexivity.
  - destruct (matches_pattern_literal_and_star "data/../etc/./hosts" "") as (_ & _ & _ & Hall).
    apply Hall. reflexivity.
Defined.

(** *** Configuration *)

Lemma foldl_insert_fresh {B} (l : list (string * B)) (acc : gmap string B) (k : string) :
  k ∉ l.*1 →
  foldl (λ acc (entry : string * B), <[ entry.1 := entry.2 ]> acc) acc l !! k = acc !! k.
Proof.
  revert acc. induction l as [|[k0 v0] l IH]; intros acc Hk; simpl; [done |].
  apply not_elem_of_cons in Hk as [Hne Hk]. rewrite IH by done.
  by rewrite lookup_insert_ne.
Qed.

(** An entry whose key is assigned one value only is found under its key,
    wherever it stands in the sequence of assignments. *)
Lemma foldl_insert_unique {B} (l : list (string * B)) (acc : gmap string B) (k : string) (v : B) :
  (k, v) ∈ l → (∀ v', (k, v') ∈ l → v' = v) →
  foldl (λ acc (entry : string * B), <[ entry.1 := entry.2 ]> acc) acc l !! k = Some v.
Proof.
  revert acc. induction l as [|[k0 v0] l IH]; intros acc Hin Huniq; simpl.
  - by apply elem_of_nil in Hin.
  - destruct (decide (k ∈ l.*1)) as [Hl | Hl].
    + apply list_elem_of_fmap in Hl as ([k' v'] & Hk' & Hin'). simpl in Hk'. subst k'.
      assert (v' = v) as -> by (apply Huniq; by right).
      apply IH; [done |]. intros v' Hv'. apply Huniq. by right.
    + apply elem_of_cons in Hin as [[= <- <-] | Hin].
      * rewrite foldl_insert_fresh by done. apply lookup_insert_eq.
      * destruct Hl. apply list_elem_of_fmap. by exists (k, v).
Qed.

Lemma configure_files now config vfs vfs' :
  configure now config vfs = Some vfs' →
  (if contains config "initial_files" && is_object (at_key config "initial_files") then
     entries ← mapM (λ entry : string * json,
                       file ← initial_file now entry.2;
                       Some (normalize_path entry.1, file))
                    (items (at_key config "initial_files"));
     Some (foldl (λ acc (entry : string * VirtualFile), <[ entry.1 := entry.2 ]> acc)
                 (files_ vfs) entries)
   else Some (files_ vfs)) = Some (files_ vfs')
  ∧ (contains config "intercept_patterns" && is_array (at_key config "intercept_patterns")
       = false →
     (files_ vfs' ≠ ∅ ∨ readonly_patterns_ vfs' ≠ [] ∨ writable_patterns_ vfs' ≠ []) →
     intercept_patterns_ vfs' = (intercept_patterns_ vfs ++ ["/**"])%list).
Proof.
  unfold configure. intros Hcfg.
  destruct (if contains config "initial_files" && _ then _ else _) as [files|];
    [| discriminate Hcfg].
  destruct (more_patterns config "readonly_patterns") as [readonly|]; [| discriminate Hcfg].
  destruct (more_patterns config "writable_patterns") as [writable|]; [| discriminate Hcfg].
  simpl in Hcfg.
  destruct (contains config "intercept_patterns" && is_array (at_key config "intercept_patterns")).
  - destruct (get_strings _) as [more|]; [| discriminate Hcfg].
    injection Hcfg as <-. by split.
  - destruct (negb (bool_decide (files = ∅)) || _ || _) eqn:Hany;
      injection Hcfg as <-; (split; [done |]); intros _ Hsome; simpl in *; [done |].
    apply orb_false_iff in Hany as [Hany Hw]. apply orb_false_iff in Hany as [Hf Hr].
    apply negb_false_iff, bool_decide_eq_true in Hf, Hr, Hw. tauto.
Qed.

(** An initial file of a configuration is stored under its normalized path
    (provided no other initial file has the same normalized path): it is
    read back with the configured content, its path is intercepted, and it is
    writable unless its mode is "r". *)
Theorem configure_serves_initial_files now config fm vfs vfs' path file_config :
  contains config "initial_files" = true → at_key config "initial_files" = JObj fm →
  configure now config vfs = Some vfs' →
  fm !! path = Some file_config →
  (∀ path', is_Some (fm !! path') → normalize_path path' = normalize_path path → path' = path) →
  ∃ file, initial_file now file_config = Some file
          ∧ files_ vfs' !! normalize_path path = Some file
          ∧ (read path vfs').1 = Some (content file)
          ∧ should_intercept path vfs' = true
          ∧ is_writable path vfs' = negb (bool_decide (mode file = "r")).
Proof.
  intros Hcont Hat Hcfg Hpath Huniq.
  apply configure_files in Hcfg as [Hfiles _].
  rewrite Hcont, Hat in Hfiles. simpl in Hfiles.
  destruct (mapM _ (entries_of fm)) as [entries|] eqn:Hentries; [| discriminate Hfiles].
  injection Hfiles as Hfiles. apply mapM_Some in Hentries.
  assert ((path, file_config) ∈ entries_of fm) as Hin.
  { rewrite entries_of_Permutation. by apply elem_of_map_to_list. }
  assert (∃ file, initial_file now file_config = Some file
                  ∧ (normalize_path path, file) ∈ entries) as (file & Hfile & Hin').
  { clear -Hentries Hin.
    induction Hentries as [|[p cfg] entry l k Hentry _ IH]; [by apply elem_of_nil in Hin |].
    apply elem_of_cons in Hin as [[= <- <-] | Hin].
    - simpl in Hentry. destruct (initial_file now file_config) as [file|]; [| done].
      injection Hentry as <-. exists file. split; [done | left].
    - destruct (IH Hin) as (file & ? & ?). exists file. split; [done | by right]. }
  assert (files_ vfs' !! normalize_path path = Some file) as Hl.
  { rewrite <- Hfiles. apply foldl_insert_unique; [done |].
    intros file' Hin''.
    assert (∃ p cfg, (p, cfg) ∈ entries_of fm ∧ normalize_path p = normalize_path path
                     ∧ initial_file now cfg = Some file') as (p & cfg & Hp & Hnorm & Hcfg').
    { clear -Hentries Hin''.
      induction Hentries as [|[p cfg] entry l k Hentry _ IH]; [by apply elem_of_nil in Hin'' |].
      apply elem_of_cons in Hin'' as [<- | Hin''].
      - simpl in Hentry. destruct (initial_file now cfg) as [f|] eqn:Hf; [| done].
        injection Hentry as Hnorm ->. exists p, cfg. split_and!; [left | done | done].
      - destruct (IH Hin'') as (p' & cfg' & ? & ? & ?).
        exists p', cfg'. split_and!; [by right | done | done]. }
    rewrite entries_of_Permutation in Hp. apply elem_of_map_to_list in Hp.
    assert (p = path) as -> by (apply Huniq; [by eexists | done]).
    congruence. }
  exists file. unfold read, should_intercept, is_writable. rewrite Hl. done.
Qed.

Lemma configure_serves_initial_files_witness :
  let fm : gmap string json :=
    <[ "/etc/motd" := JObj (<[ "mode" := JStr "r" ]> {[ "content" := JStr "hello" ]}) ]>
      {[ "data//in.txt" := JStr "1 2 3" ]} in
  let config := JObj {[ "initial_files" := JObj fm ]} in
  ∃ vfs', configure 7 config empty_vfs = Some vfs'
          ∧ (read "/data/in.txt" vfs').1 = Some "1 2 3"
          ∧ is_writable "/data/in.txt" vfs' = true.
Proof.
  intros fm config.
  destruct (configure 7 config empty_vfs) as [vfs'|] eqn:Hcfg; [| by vm_compute in Hcfg].
  exists vfs'. split; [done |].
  destruct (configure_serves_initial_files 7 config fm empty_vfs vfs' "data//in.txt"
              (JStr "1 2 3")) as (file & Hfile & _ & Hread & _ & Hw);
    [reflexivity | reflexivity | exact Hcfg | reflexivity | |].
  - intros path' [cfg Hl] Hnorm. subst fm.
    apply lookup_insert_Some in Hl as [[<- _] | [_ Hl]]; [by vm_compute in Hnorm |].
    by apply lookup_singleton_Some in Hl as [<- _].
  - injection Hfile as <-. split; [exact Hread | exact Hw].
Defined.

End virtual_fs_more.
(** ** Worlds: the network mock, the chaos engine, world ids, restored worlds *)

Section worlds_more.
Import VirtualFs Worlds.

(** *** Network mock *)

Lemma url_to_regex_prefix (u prefix rest : string) :
  has_star prefix = false → lower u = lower prefix →
  regex_match (url_to_regex (prefix +:+ "*")) (u +:+ rest) = one_line rest.
Proof.
  revert u. induction prefix as [|c prefix IH]; intros u Hstar Hlow.
  - destruct u; [| discriminate Hlow]. apply star_match_any_to_end.
  - destruct u as [|d u]; [discriminate Hlow |].
    simpl in Hstar. apply orb_false_iff in Hstar as [Hc Hstar].
    apply bool_decide_eq_false in Hc.
    simpl in Hlow. injection Hlow as Hd Hlow.
    change (regex_match ((if decide (c = "*"%char) then AnyStar else Lit c)
                         :: url_to_regex (prefix +:+ "*")) (String d (u +:+ rest))
            = one_line rest).
    rewrite decide_False by done. simpl.
    rewrite IH by done. unfold eq_nocase. by rewrite bool_decide_eq_true_2.
Qed.

Lemma has_star_app (s1 s2 : string) : has_star (s1 +:+ s2) = has_star s1 || has_star s2.
Proof.
  induction s1 as [|c s1 IH]; [done |].
  change (bool_decide (c = "*"%char) || has_star (s1 +:+ s2)
          = bool_decide (c = "*"%char) || has_star s1 || has_star s2).
  rewrite IH. by rewrite orb_assoc.
Qed.

(** A URL pattern without "*" matches the one URL equal to it, letter case
    included; a pattern that ends in its only "*" matches every URL that
    starts with the text before the "*", whatever the case of its letters,
    and goes on without a line terminator. *)
Theorem matches_url_exact_or_prefix :
  (∀ url pattern, has_star pattern = false →
     matches_url url pattern = bool_decide (url = pattern))
  ∧ (∀ u prefix rest, has_star prefix = false → lower u = lower prefix →
       matches_url (u +:+ rest) (prefix +:+ "*") = one_line rest).
Proof.
  split.
  - intros url pattern Hstar. unfold matches_url. by rewrite Hstar.
  - intros u prefix rest Hstar Hlow. unfold matches_url.
    rewrite has_star_app, Hstar. simpl. by apply url_to_regex_prefix.
Qed.

Lemma matches_url_exact_or_prefix_witness :
  matches_url "HTTPS://API.example.com/v1" "https://api.example.com/v1" = false
  ∧ matches_url ("HTTPS://API.example.com/" +:+ "v1") ("https://api.example.com/" +:+ "*") = true.
Proof.
  destruct matches_url_exact_or_prefix as [Hexact Hprefix]. split.
  - rewrite Hexact by reflexivity. reflexivity.
  - rewrite Hprefix by reflexivity. reflexivity.
Defined.

Lemma find_mock_none url (mocks : gmap string MockResponse) :
  (∀ pattern, is_Some (mocks !! pattern) → matches_url url pattern = false) →
  List.find (λ entry : string * MockResponse, matches_url url entry.1) (map_to_list mocks) = None.
Proof.
  intros Hnone.
  destruct (List.find _ _) as [[pattern response]|] eqn:Hfind; [| done].
  apply List.find_some in Hfind as [Hin Hm]. simpl in Hm.
  apply list_elem_of_In, elem_of_map_to_list in Hin.
  rewrite Hnone in Hm; [done | by eexists].
Qed.

(** How [get_response] decides.  In passthrough mode nothing is mocked and
    nothing is counted.  Otherwise a mock stored under the URL itself is the
    answer; else a mock whose pattern matches the URL; else the request
    passes through when its domain is on the allow list, even if
    fail_unmatched is set; else it fails with status 503 when fail_unmatched
    is set; else it gets the default response, or passes through when there
    is none.  A mock added for a URL is what the next lookup of that URL
    returns. *)
Theorem get_response_precedence url method n stats :
  (mode_ n = "passthrough" → get_response url method n stats = (None, stats))
  ∧ (mode_ n ≠ "passthrough" →
     (∀ response, mocks_ n !! url = Some response →
        get_response url method n stats = (Some response, count_intercepted stats))
     ∧ (mocks_ n !! url = None →
        (∃ pattern response,
           mocks_ n !! pattern = Some response ∧ matches_url url pattern = true
           ∧ get_response url method n stats = (Some response, count_intercepted stats))
        ∨ ((∀ pattern, is_Some (mocks_ n !! pattern) → matches_url url pattern = false)
           ∧ get_response url method n stats
             = if domain_allowed (extract_domain url) n
               then (None, count_passed_through stats)
               else if fail_unmatched_ n then (Some unmatched_response, count_failed stats)
               else match default_response_ n with
                    | Some response => (Some response, count_intercepted stats)
                    | None => (None, count_passed_through stats)
                    end))
     ∧ (∀ response,
          get_response url method (add_mock url response n) stats
          = (Some response, count_intercepted stats))).
Proof.
  unfold get_response. split.
  - intros Hmode. by rewrite decide_True.
  - intros Hmode. rewrite decide_False by done. split_and!.
    + by intros response ->.
    + intros ->.
      destruct (List.find _ _) as [[pattern response]|] eqn:Hfind.
      * left. apply List.find_some in Hfind as [Hin Hm]. simpl in Hm.
        apply list_elem_of_In, elem_of_map_to_list in Hin.
        by exists pattern, response.
      * right. split; [| done].
        intros pattern [response Hl].
        apply (List.find_none _ _ Hfind (pattern, response)).
        by apply list_elem_of_In, elem_of_map_to_list.
    + intros response. simpl. rewrite decide_False by done.
      by rewrite lookup_insert_eq.
Qed.

Lemma get_response_precedence_witness :
  let n := mkNetworkMock "mock" {[ "https://api.test/*" := mkMockResponse 200 "ok" ∅ 0 ]}
             None ["cdn.test"] true [] in
  let stats := mkNetworkStats 0 0 0 in
  get_response "https://cdn.test/lib.js" "GET" n stats = (None, mkNetworkStats 0 1 0)
  ∧ get_response "https://other.test/" "GET" n stats
    = (Some unmatched_response, mkNetworkStats 0 0 1).
Proof.
  intros n stats.
  destruct (get_response_precedence "https://cdn.test/lib.js" "GET" n stats) as [_ H1].
  destruct H1 as (_ & H1 & _); [done |].
  destruct (get_response_precedence "https://other.test/" "GET" n stats) as [_ H2].
  destruct H2 as (_ & H2 & _); [done |].
  split.
  - destruct H1 as [(pattern & response & Hl & Hm & _) | [_ ->]]; [reflexivity | | reflexivity].
    unfold n in Hl. simpl in Hl.
    apply lookup_singleton_Some in Hl as [<- _]. by vm_compute in Hm.
  - destruct H2 as [(pattern & response & Hl & Hm & _) | [_ ->]]; [reflexivity | | reflexivity].
    unfold n in Hl. simpl in Hl.
    apply lookup_singleton_Some in Hl as [<- _]. by vm_compute in Hm.
Defined.

(** *** Domains *)

Lemma index_skip (h r x : string) (k : nat) :
  String.index (String.length h + k) x (h +:+ r)
  = (λ n, String.length h + n)%nat <$> String.index k x r.
Proof.
  induction h as [|c h IH].
  - change (String.index k x r = (λ n, n) <$> String.index k x r).
    by destruct (String.index k x r).
  - change (String.index (S (String.length h + k)) x (String c (h +:+ r))
            = (λ n, S (String.length h) + n)%nat <$> String.index k x r).
    simpl. rewrite IH. by destruct (String.index k x r).
Qed.

Lemma index_cons_ne (c a : ascii) (x s : string) :
  a ≠ c →
  String.index 0 (String c x) (String a s) = S <$> String.index 0 (String c x) s.
Proof.
  intros Hne. simpl. destruct (Ascii.ascii_dec c a) as [-> | _]; [done |].
  by destruct (String.index 0 (String c x) s).
Qed.

(** The first occurrence of a character lies behind a text that is free of it. *)
Lemma index_char_app (c : ascii) (h r : string) :
  all_chars (is_not c) h = true →
  String.index 0 (String c "") (h +:+ r)
  = (λ n, String.length h + n)%nat <$> String.index 0 (String c "") r.
Proof.
  intros Hh. induction h as [|a h IH].
  - change (String.index 0 (String c "") r = (λ n, n) <$> String.index 0 (String c "") r).
    by destruct (String.index 0 (String c "") r).
  - simpl in Hh. apply andb_true_iff in Hh as [Ha Hh].
    apply negb_true_iff, bool_decide_eq_false in Ha.
    change (String.index 0 (String c "") (String a (h +:+ r))
            = (λ n, S (String.length h) + n)%nat <$> String.index 0 (String c "") r).
    rewrite index_cons_ne by done.
    rewrite (IH Hh). by destruct (String.index 0 (String c "") r).
Qed.

Lemma index_char_none (c : ascii) (h : string) :
  all_chars (is_not c) h = true → String.index 0 (String c "") h = None.
Proof.
  intros Hh. rewrite <- (string_app_nil_r h). by rewrite index_char_app.
Qed.

Lemma index_char_head (c : ascii) (r : string) :
  String.index 0 (String c "") (String c r) = Some 0%nat.
Proof.
  simpl. destruct (Ascii.ascii_dec c c); [| done]. by destruct r.
Qed.

Lemma index_scheme (scheme r : string) :
  all_chars (is_not ":") scheme = true →
  String.index 0 "://" (scheme +:+ "://" +:+ r) = Some (String.length scheme).
Proof.
  intros Hs. induction scheme as [|a scheme IH].
  - change (String.index 0 "://" (String ":" (String "/" (String "/" r))) = Some 0%nat).
    by destruct r.
  - simpl in Hs. apply andb_true_iff in Hs as [Ha Hs].
    apply negb_true_iff, bool_decide_eq_false in Ha.
    change (String.index 0 "://" (String a (scheme +:+ "://" +:+ r))
            = Some (S (String.length scheme))).
    rewrite index_cons_ne by done.
    by rewrite (IH Hs).
Qed.

Lemma substring_skip (h r : string) (k m : nat) :
  String.substring (String.length h + k) m (h +:+ r) = String.substring k m r.
Proof. induction h as [|c h IH]; [done | exact IH]. Qed.

Lemma substring_head (h r : string) (m : nat) :
  String.substring 0 (String.length h + m) (h +:+ r) = h +:+ String.substring 0 m r.
Proof.
  induction h as [|c h IH]; [done |].
  change (String c (String.substring 0 (String.length h + m) (h +:+ r))
          = String c (h +:+ String.substring 0 m r)).
  by rewrite IH.
Qed.

Lemma substring_zero (r : string) : String.substring 0 0 r = "".
Proof. by destruct r. Qed.

(** What is cut off a domain: nothing, or a port that starts with ":". *)
Lemma domain_without_port (host d : string) :
  all_chars (is_not ":") host = true →
  d = "" ∨ (∃ d', d = String ":" d') →
  match String.index 0 ":" (host +:+ d) with
  | Some port_pos => String.substring 0 port_pos (host +:+ d)
  | None => host +:+ d
  end = host.
Proof.
  intros Hhost [-> | [d' ->]].
  - rewrite string_app_nil_r. by rewrite index_char_none.
  - rewrite index_char_app, index_char_head by done. simpl.
    pose proof (substring_head host (String ":" d') 0) as Hh.
    rewrite substring_zero, string_app_nil_r in Hh. exact Hh.
Qed.

(** For a URL of the shape scheme://host, scheme://host:port..., or
    scheme://host/path..., [extract_domain] returns the host: the scheme, the
    port and the path are cut off. *)
Theorem extract_domain_of_url scheme host tail :
  all_chars (is_not ":") scheme = true →
  all_chars (is_not ":") host = true → all_chars is_non_slash host = true →
  tail = "" ∨ (∃ t, tail = String ":" t) ∨ (∃ t, tail = String "/" t) →
  extract_domain (scheme +:+ "://" +:+ host +:+ tail) = host.
Proof.
  intros Hscheme Hcolon Hslash Htail. unfold extract_domain.
  rewrite index_scheme by done. cbv zeta.
  assert (scheme +:+ "://" +:+ host +:+ tail = (scheme +:+ "://") +:+ (host +:+ tail)) as Hurl.
  { by rewrite string_app_assoc. }
  assert (String.length (scheme +:+ "://") = (String.length scheme + 3)%nat) as Hlen.
  { by rewrite string_length_app. }
  rewrite Hurl, <- Hlen.
  set (p := scheme +:+ "://"). set (u := host +:+ tail).
  pose proof (index_skip p u "/" 0) as Hindex. rewrite Nat.add_0_r in Hindex.
  rewrite Hindex.
  assert (∃ m d, (d = "" ∨ ∃ d', d = String ":" d')
                 ∧ String.substring 0 m u = host +:+ d
                 ∧ match (λ n, String.length p + n)%nat <$> String.index 0 "/" u with
                   | Some pos => pos
                   | None => String.length (p +:+ u)
                   end = (String.length p + m)%nat)
    as (m & d & Hd & Hsub & Hend).
  { subst u. destruct Htail as [-> | [[t ->] | [t ->]]].
    - exists (String.length host), "". split; [by left |].
      rewrite string_app_nil_r.
      rewrite (index_char_none "/") by done. simpl.
      rewrite string_length_app. split; [| done].
      pose proof (substring_head host "" 0) as Hh.
      by rewrite Nat.add_0_r, !string_app_nil_r in Hh.
    - assert (host +:+ String ":" t = (host +:+ ":") +:+ t) as Hsplit.
      { by rewrite string_app_assoc. }
      assert (all_chars is_non_slash (host +:+ ":") = true) as Hhc.
      { by rewrite all_chars_app, Hslash. }
      assert (String.length (host +:+ ":") = (String.length host + 1)%nat) as Hlen'.
      { by rewrite string_length_app. }
      destruct (String.index 0 "/" t) as [e|] eqn:He.
      + exists (String.length host + S e)%nat, (String ":" (String.substring 0 e t)).
        split; [right; by eexists |]. split.
        * by rewrite substring_head.
        * rewrite Hsplit, (index_char_app "/") by done. rewrite He. simpl. lia.
      + exists (String.length host + S (String.length t))%nat,
               (String ":" (String.substring 0 (String.length t) t)).
        split; [right; by eexists |]. split.
        * by rewrite substring_head.
        * rewrite Hsplit, (index_char_app "/") by done. rewrite He. simpl.
          rewrite !string_length_app. simpl. lia.
    - exists (String.length host), "". split; [by left |]. split.
      + pose proof (substring_head host (String "/" t) 0) as Hh.
        by rewrite Nat.add_0_r, substring_zero in Hh.
      + rewrite (index_char_app "/"), index_char_head by done. simpl. lia. }
  rewrite Hend.
  replace (String.length p + m - String.length p)%nat with m by lia.
  pose proof (substring_skip p u 0 m) as Hskip. rewrite Nat.add_0_r in Hskip.
  rewrite Hskip, Hsub.
  by apply domain_without_port.
Qed.

Lemma extract_domain_of_url_witness :
  extract_domain "https://api.example.com:8443/v1/items?x=1" = "api.example.com"
  ∧ extract_domain "http://localhost" = "localhost".
Proof.
  split.
  - apply (extract_domain_of_url "https" "api.example.com" ":8443/v1/items?x=1");
      [reflexivity | reflexivity | reflexivity |].
    right. left. by eexists.
  - rewrite <- (extract_domain_of_url "http" "localhost" "") at 2;
      [reflexivity | reflexivity | reflexivity | reflexivity | by left].
Defined.

(** *** Chaos engine *)

Lemma should_fail_counters probability draws stats :
  failures_injected_ (should_fail probability draws stats).2 = failures_injected_ stats
  ∧ latency_injected_ (should_fail probability draws stats).2 = latency_injected_ stats.
Proof. unfold should_fail. by repeat case_match. Qed.

Lemma rules_fire_counters applies rules draws stats :
  failures_injected_ (rules_fire applies rules draws stats).2 = failures_injected_ stats
  ∧ latency_injected_ (rules_fire applies rules draws stats).2 = latency_injected_ stats.
Proof.
  revert stats. induction rules as [|rule rules IH]; intros stats; simpl; [done |].
  destruct (applies rule); [| apply IH].
  pose proof (should_fail_counters (rule_probability rule) draws stats) as [Hf Hl].
  destruct (should_fail (rule_probability rule) draws stats) as [fired stats'].
  simpl in Hf, Hl. destruct fired; simpl; [done |].
  destruct (IH stats') as [Hf' Hl']. split; congruence.
Qed.

(** The failure counter counts the failures: a check that answers true has
    added one to it, a check that answers false has left it alone. *)
Lemma should_fail_operation_counts events applies draws c stats :
  failures_injected_ (should_fail_operation events applies draws c stats).2
  = (if (should_fail_operation events applies draws c stats).1
     then add64 (failures_injected_ stats) 1 else failures_injected_ stats)
  ∧ latency_injected_ (should_fail_operation events applies draws c stats).2
    = latency_injected_ stats.
Proof.
  unfold should_fail_operation.
  destruct (enabled_ c); simpl; [| done].
  destruct (existsb _ events); simpl; [done |].
  pose proof (rules_fire_counters applies (rules_ c) draws stats) as [Hf Hl].
  destruct (rules_fire applies (rules_ c) draws stats) as [fired stats1].
  simpl in Hf, Hl. destruct fired; simpl; [by rewrite Hf, Hl |].
  pose proof (should_fail_counters (failure_rate_ c) draws stats1) as [Hf' Hl'].
  destruct (should_fail (failure_rate_ c) draws stats1) as [fired stats2].
  simpl in Hf', Hl'. destruct fired; simpl; split; congruence.
Qed.

Lemma should_fail_operation_event event events applies draws c stats :
  enabled_ c = true → event ∈ events → event ∈ active_events_ c →
  should_fail_operation events applies draws c stats = (true, count_failure stats).
Proof.
  intros Hen Hin Hact. unfold should_fail_operation. rewrite Hen. simpl.
  assert (existsb (λ event, bool_decide (event ∈ active_events_ c)) events = true) as ->; [| done].
  apply existsb_exists. exists event. split; [by apply list_elem_of_In |].
  by apply bool_decide_eq_true.
Qed.

(** The outcomes of the chaos checks that do not depend on chance.  While
    the engine is disabled nothing fails, whatever events were injected and
    whatever the rules.  While it is enabled an active "disk_fail" event
    fails every read and every write, "disk_full" every write and
    "network_partition" every network request, whatever the rules, the rates
    and the random draws.  And every check counts the failure it reports. *)
Theorem chaos_checks_certain_outcomes draws target c stats :
  (enabled_ c = false →
     should_fail_read draws target c stats = (false, stats)
     ∧ should_fail_write draws target c stats = (false, stats)
     ∧ should_fail_network draws target c stats = (false, stats))
  ∧ (enabled_ c = true →
       ("disk_fail" ∈ active_events_ c →
          should_fail_read draws target c stats = (true, count_failure stats)
          ∧ should_fail_write draws target c stats = (true, count_failure stats))
       ∧ ("disk_full" ∈ active_events_ c →
            should_fail_write draws target c stats = (true, count_failure stats))
       ∧ ("network_partition" ∈ active_events_ c →
            should_fail_network draws target c stats = (true, count_failure stats)))
  ∧ failures_injected_ (should_fail_read draws target c stats).2
    = (if (should_fail_read draws target c stats).1
       then add64 (failures_injected_ stats) 1 else failures_injected_ stats)
  ∧ failures_injected_ (should_fail_write draws target c stats).2
    = (if (should_fail_write draws target c stats).1
       then add64 (failures_injected_ stats) 1 else failures_injected_ stats)
  ∧ failures_injected_ (should_fail_network draws target c stats).2
    = (if (should_fail_network draws target c stats).1
       then add64 (failures_injected_ stats) 1 else failures_injected_ stats).
Proof.
  unfold should_fail_read, should_fail_write, should_fail_network. split_and!.
  - intros Hoff. unfold should_fail_operation. by rewrite Hoff.
  - intros Hon. split_and!.
    + intros Hev. split; by apply (should_fail_operation_event "disk_fail"); [| set_solver |].
    + intros Hev. by apply (should_fail_operation_event "disk_full"); [| set_solver |].
    + intros Hev. by apply (should_fail_operation_event "network_partition"); [| set_solver |].
  - apply should_fail_operation_counts.
  - apply should_fail_operation_counts.
  - apply should_fail_operation_counts.
Qed.

Lemma chaos_checks_certain_outcomes_witness :
  let c := mkChaosEngine true 0 0 0 [mkChaosRule "file_read_fail" "/tmp/*" 0]
             {[ "disk_fail" ]} (JObj {[ "disk_fail" := JObj ∅ ]}) in
  let stats := mkChaosStats 0 0 0 in
  should_fail_read (λ _, 0%Q) "/etc/hosts" c stats = (true, mkChaosStats 1 0 0)
  ∧ should_fail_write (λ _, 0%Q) "/etc/hosts" c stats = (true, mkChaosStats 1 0 0).
Proof.
  intros c stats.
  destruct (chaos_checks_certain_outcomes (λ _, 0%Q) "/etc/hosts" c stats) as (_ & Hon & _).
  destruct Hon as (Hfail & _); [reflexivity |].
  apply Hfail. set_solver.
Defined.



(** *** World ids *)

Lemma all_chars_substring ok (s : string) (n m : nat) :
  all_chars ok s = true → all_chars ok (String.substring n m s) = true.
Proof.
  revert n m. induction s as [|c s IH]; intros n m Hs.
  - by destruct n, m.
  - simpl in Hs. apply andb_true_iff in Hs as [Hc Hs].
    destruct n as [|n]; simpl.
    + destruct m as [|m]; [done |]. simpl. rewrite Hc. by apply IH.
    + by apply IH.
Qed.

Lemma substring_length_le (s : string) (m : nat) :
  (String.length (String.substring 0 m s) ≤ m)%nat.
Proof.
  revert m. induction s as [|c s IH]; intros m.
  - destruct m; simpl; lia.
  - destruct m as [|m]; simpl; [lia |]. specialize (IH m). lia.
Qed.

Lemma sanitized_char (c : ascii) :
  is_alnum c || bool_decide (c = "-"%char) || bool_decide (c = "_"%char) = true →
  is_id_char (to_lower c) = true.
Proof.
  destruct c as [[] [] [] [] [] [] [] []]; vm_compute; first [reflexivity | discriminate].
Qed.

Lemma all_chars_sanitize (name : string) : all_chars is_id_char (sanitize name) = true.
Proof.
  induction name as [|c name IH]; [done |]. simpl.
  destruct (is_alnum c || bool_decide (c = "-"%char) || bool_decide (c = "_"%char)) eqn:Hc.
  - simpl. by rewrite sanitized_char, IH.
  - destruct (bool_decide (c = " "%char)); [| done]. simpl. by rewrite IH.
Qed.

Lemma all_chars_zeros (n : nat) : all_chars is_id_char (zeros n) = true.
Proof. induction n as [|n IH]; [done | exact IH]. Qed.

Lemma all_chars_pretty_N_go (x : N) (s : string) :
  all_chars is_id_char s = true → all_chars is_id_char (pretty_N_go x s) = true.
Proof.
  revert s. induction (N.lt_wf_0 x) as [x _ IH]; intros s Hs.
  destruct (decide (x = 0)%N) as [-> | Hx]; [by rewrite pretty_N_go_0 |].
  rewrite pretty_N_go_step by lia. apply IH.
  - apply N.div_lt; lia.
  - simpl. rewrite Hs. unfold pretty_N_char. by repeat case_match.
Qed.

Lemma all_chars_pad4 (n : N) : all_chars is_id_char (pad4 n) = true.
Proof.
  unfold pad4. rewrite all_chars_app, all_chars_zeros. simpl.
  unfold pretty, pretty_N. case_decide; [done |]. by apply all_chars_pretty_N_go.
Qed.

Lemma zeros_length (n : nat) : String.length (zeros n) = n.
Proof. induction n as [|n IH]; [done |]. simpl. by rewrite IH. Qed.

(** A generated world id is made of lower-case letters, digits, "-" and "_"
    only, whatever the requested name: a name part of 1 to 32 characters,
    "-", and the engine's counter in at least four digits; and the counter
    advances by one. *)
Theorem generate_world_id_shape name e :
  let id := (generate_world_id name e).1 in
  id = safe_name name +:+ "-" +:+ pad4 (next_world_num_ e)
  ∧ all_chars is_id_char id = true
  ∧ (1 ≤ String.length (safe_name name) ≤ 32)%nat
  ∧ (4 ≤ String.length (pad4 (next_world_num_ e)))%nat
  ∧ next_world_num_ (generate_world_id name e).2
    = ((next_world_num_ e + 1) mod 18446744073709551616)%N.
Proof.
  intros id. subst id. simpl.
  assert (all_chars is_id_char (safe_name name) = true) as Hsafe.
  { unfold safe_name. pose proof (all_chars_sanitize name) as Hs.
    destruct (decide (sanitize name = "")); case_decide; try done;
      by apply all_chars_substring. }
  split; [done |]. split; [| split; [| split; [| done]]].
  - rewrite !all_chars_app, Hsafe, all_chars_pad4. done.
  - unfold safe_name.
    set (s := if decide (sanitize name = "") then "world" else sanitize name).
    assert (1 ≤ String.length s)%nat as Hs.
    { unfold s. case_decide as Hempty; [simpl; lia |].
      destruct (sanitize name); [done | simpl; lia]. }
    case_decide as Hlong; [| lia].
    pose proof (substring_length_le s 32).
    split; [| done].
    destruct s as [|c s']; [simpl in Hs; lia |]. simpl. lia.
  - unfold pad4. rewrite string_length_app, zeros_length. lia.
Qed.

(** *** Restored worlds *)

Ltac object_lookup :=
  repeat first
    [ rewrite lookup_insert_eq
    | rewrite lookup_insert_ne by done
    | rewrite lookup_empty ].

Lemma mapM_get_uint32 (agents : list N) :
  mapM get_uint32 ((λ a, JInt (Z.of_N a)) <$> agents)
  = Some ((λ a, to_uint32 (Z.of_N a)) <$> agents).
Proof.
  induction agents as [|a agents IH]; [done |].
  rewrite !fmap_cons. simpl. rewrite IH. done.
Qed.

(** Restoring a world from its snapshot rebuilds its set of members, for
    members whose id fits 32 bits. *)
Lemma world_from_snapshot_members now wall_ms world w0 a :
  a ∈ agents_ world → (a < 4294967296)%N →
  ∃ world',
    world_from_json now
      (match world_to_json world with
       | JObj m => JObj (<[ "snapshot_time" := JInt wall_ms ]> m)
       | j => j
       end) w0 = Some world'
    ∧ a ∈ agents_ world'.
Proof.
  intros Hin Hlt.
  unfold world_to_json, world_from_json, value_string, value_with, contains, at_key.
  object_lookup. simpl. object_lookup. simpl.
  rewrite from_json_to_json. simpl.
  destruct (network_from_json_to_json (network_ world) (network_ w0)) as [network ->].
  destruct (chaos_from_json_to_json (chaos_ world) (chaos_ w0)) as [chaos ->].
  unfold agents_to_json. simpl. rewrite mapM_get_uint32. simpl.
  eexists. split; [reflexivity |]. simpl.
  apply elem_of_list_to_set, list_elem_of_fmap.
  exists (to_uint32 (Z.of_N a)). split.
  - unfold to_uint32. rewrite Z.mod_small by lia. by rewrite N2Z.id.
  - apply list_elem_of_fmap. exists a. split; [done |].
    rewrite merge_sort_Permutation. by apply elem_of_elements.
Qed.

(** [restore_world] copies the members of the snapshot into the new world
    but leaves the agent-to-world map as it is: a member of the original
    world is a member of the restored world too, while [get_agent_world] still
    names the original world for it, so the engine no longer satisfies the
    membership invariant. *)
Theorem restore_world_keeps_agent_map e w world wall_ms now new_world_id a :
  worlds_ e !! w = Some world → new_world_id ≠ "" → worlds_ e !! new_world_id = None →
  a ∈ agents_ world → (a < 4294967296)%N → agent_to_world_ e !! a = Some w →
  ∃ snapshot e' world',
    snapshot_world wall_ms w e = Some snapshot
    ∧ restore_world now snapshot new_world_id e = (Returned (Some new_world_id), e')
    ∧ worlds_ e' !! new_world_id = Some world'
    ∧ has_agent a world' = true
    ∧ agent_to_world_ e' = agent_to_world_ e
    ∧ get_agent_world a e' = Some w
    ∧ ¬ membership_consistent e'.
Proof.
  intros Hw Hid Hfree Hin Hlt Hmap. unfold snapshot_world. rewrite Hw.
  destruct (world_from_snapshot_members now wall_ms world (new_world now new_world_id) a Hin Hlt)
    as (world' & Hrestore & Hin').
  set (snapshot := match world_to_json world with
                   | JObj m => JObj (<[ "snapshot_time" := JInt wall_ms ]> m)
                   | j => j
                   end) in *.
  exists snapshot. unfold restore_world. rewrite decide_False by done.
  rewrite decide_False by (rewrite Hfree; by intros [? ?]).
  rewrite Hrestore. eexists _, world'.
  split; [reflexivity |]. split; [reflexivity |]. simpl.
  split_and!; [apply lookup_insert_eq | by apply bool_decide_eq_true | done | done |].
  intros [_ Hmembers].
  specialize (Hmembers new_world_id world' a). simpl in Hmembers.
  rewrite lookup_insert_eq, Hmap in Hmembers.
  specialize (Hmembers eq_refl Hin'). injection Hmembers as ->. congruence.
Qed.

Lemma restore_world_keeps_agent_map_witness :
  let e := (join_world 1 7 "lab-0001" (create_world 0 "lab" (JObj ∅) empty_engine).2).2 in
  ∃ snapshot e' world',
    snapshot_world 99 "lab-0001" e = Some snapshot
    ∧ restore_world 5 snapshot "copy" e = (Returned (Some "copy"), e')
    ∧ worlds_ e' !! "copy" = Some world'
    ∧ has_agent 7 world' = true
    ∧ get_agent_world 7 e' = Some "lab-0001".
Proof.
  intros e.
  assert (∃ world, worlds_ e !! "lab-0001" = Some world ∧ 7%N ∈ agents_ world)
    as (world & Hw & Hin).
  { eexists. split; [vm_compute; reflexivity |]. vm_compute. set_solver. }
  destruct (restore_world_keeps_agent_map e "lab-0001" world 99 5 "copy" 7 Hw)
    as (snapshot & e' & world' & Hsnap & Hres & Hw' & Hhas & _ & Hget & _);
    [done | by vm_compute | exact Hin | lia | by vm_compute |].
  exists snapshot, e', world'.
  split; [exact Hsnap |]. split; [exact Hres |]. split; [exact Hw' |].
  split; [exact Hhas | exact Hget].
Defined.

End worlds_more.
(** ** Supervisor: what a tick leaves alone, exits without restart, pending restarts *)

Section supervisor_more.
Import Supervisor.

Implicit Types (m : AgentManager) (name : string).

Lemma dead_agents_failed name m :
  name ∈ dead_agents m ↔ ∃ code, failed_with name code m.
Proof.
  split.
  - unfold dead_agents. intros Hin.
    apply list_elem_of_fmap in Hin as ([n agent] & -> & Hin).
    apply list_elem_of_In, filter_In in Hin as [Hin Hdead].
    apply list_elem_of_In, elem_of_map_to_list in Hin.
    exists (exit_code agent), agent. done.
  - intros [code Hfail]. by eapply failed_in_dead_agents.
Qed.

Lemma handle_dead_agent_removes now name m agent :
  agents_by_name_ m !! name = Some agent →
  agents_by_name_ (handle_dead_agent now name m) !! name = None.
Proof.
  intros Hagent. unfold handle_dead_agent. rewrite Hagent.
  repeat (case_match || case_decide); simpl; apply lookup_delete_eq.
Qed.

(** A tick deals with the agents that have died, and with no other: for an
    agent whose process is running, or that is not in the state RUNNING, the
    process entry, the restart state, the saved configuration, the events
    sent and the restarts pending are after the tick what they were before;
    an agent that has died is no longer registered under its name. *)
Theorem tick_handles_dead_agents_only now m name :
  (name ∈ dead_agents m ↔ ∃ code, failed_with name code m)
  ∧ (name ∉ dead_agents m → view name (reap_and_restart_agents now m) = view name m)
  ∧ (name ∈ dead_agents m → agents_by_name_ (reap_and_restart_agents now m) !! name = None).
Proof.
  split_and!.
  - apply dead_agents_failed.
  - intros Hlive. by apply foldl_handle_others.
  - intros Hdead. apply dead_agents_failed in Hdead as [code Hfail].
    destruct (reap_view name code now m Hfail) as (m0 & Hv0 & Hv).
    apply view_fields in Hv0 as (Ha0 & _).
    destruct Hfail as (agent & Hagent & _).
    rewrite Hagent in Ha0.
    pose proof (handle_dead_agent_removes now name m0 agent Ha0) as Hgone.
    unfold view in Hv. injection Hv as Hv _ _ _ _ _. by rewrite Hv.
Qed.

Lemma tick_handles_dead_agents_only_witness :
  let m := process_exit "worker" 1 sample_spawned in
  agents_by_name_ (reap_and_restart_agents 2000000000 m) !! "worker" = None.
Proof.
  intros m.
  destruct (tick_handles_dead_agents_only 2000000000 m "worker") as (Hdead & _ & Hgone).
  apply Hgone, Hdead. exists 1, (mkAgentProcess 1 false RUNNING 1).
  split; [vm_compute; reflexivity |]. split; reflexivity.
Defined.

Lemma handle_dead_agent_no_restart now name m agent :
  agents_by_name_ m !! name = Some agent →
  (saved_configs_ m !! name = None
   ∨ ∃ cfg, saved_configs_ m !! name = Some cfg
            ∧ (policy (restart cfg) = NEVER
               ∨ policy (restart cfg) = ON_FAILURE ∧ exit_code agent = 0)) →
  view name (handle_dead_agent now name m)
  = mkSupervision None
      (match saved_configs_ m !! name with
       | Some _ => None
       | None => restart_states_ m !! name
       end)
      None (restart_event_callback_ m) (events_of name m) (pending_of name m).
Proof.
  intros Hagent Hcfg. unfold handle_dead_agent. rewrite Hagent.
  destruct Hcfg as [Hnone | (cfg & Hcfg & Hpol)].
  - rewrite Hnone. unfold view, events_of, pending_of; simpl.
    by rewrite lookup_delete_eq, Hnone.
  - rewrite Hcfg.
    assert (negb match policy (restart cfg) with
                 | ALWAYS => true
                 | ON_FAILURE => bool_decide (exit_code agent ≠ 0)
                 | NEVER => false
                 end = true) as ->.
    { destruct Hpol as [-> | [-> ->]]; [done |]. by rewrite bool_decide_eq_false_2 by lia. }
    unfold view, events_of, pending_of; simpl. by rewrite !lookup_delete_eq.
Qed.

(** An agent that exits is reaped without a restart when no configuration is
    saved for it (its policy was NEVER) or when its policy is ON_FAILURE and
    its exit code is 0: the tick schedules nothing and sends no event for it,
    removes it from the registry and forgets its saved configuration and, with
    it, its restart state. *)
Theorem exit_without_restart now m name code :
  failed_with name code m →
  (saved_configs_ m !! name = None
   ∨ ∃ cfg, saved_configs_ m !! name = Some cfg
            ∧ (policy (restart cfg) = NEVER ∨ policy (restart cfg) = ON_FAILURE ∧ code = 0)) →
  let m' := reap_and_restart_agents now m in
  agents_by_name_ m' !! name = None
  ∧ saved_configs_ m' !! name = None
  ∧ (is_Some (saved_configs_ m !! name) → restart_states_ m' !! name = None)
  ∧ events_of name m' = events_of name m
  ∧ pending_of name m' = pending_of name m.
Proof.
  intros Hfail Hcfg m'. subst m'.
  destruct (reap_view name code now m Hfail) as (m0 & Hv0 & Hv).
  apply view_fields in Hv0 as (Ha0 & Hs0 & Hc0 & Hcb0 & He0 & Hp0).
  destruct Hfail as (agent & Hagent & _ & Hcode).
  rewrite Hagent in Ha0.
  rewrite (handle_dead_agent_no_restart now name m0 agent Ha0) in Hv.
  2: { rewrite Hc0. destruct Hcfg as [? | (cfg & ? & Hpol)]; [by left | right].
       exists cfg. split; [done |]. rewrite Hcode. done. }
  unfold view in Hv. injection Hv as Ha Hs Hc _ He Hp.
  rewrite Ha, Hc, He, Hp, He0, Hp0. split_and!; try done.
  intros [cfg Hsome]. rewrite Hs, Hc0, Hsome. done.
Qed.

Lemma exit_without_restart_witness :
  let cfg := mkAgentConfig "job" (mkRestartConfig ON_FAILURE 5 300 1000 60000 (double_of_Z 2)) in
  let m := process_exit "job" 0
             (spawn_agent 0 cfg (Some (mkAgentProcess 1 true RUNNING 0)) sample_manager).2 in
  let m' := reap_and_restart_agents 1000000000 m in
  agents_by_name_ m' !! "job" = None ∧ saved_configs_ m' !! "job" = None
  ∧ pending_of "job" m' = [].
Proof.
  intros cfg m m'.
  destruct (exit_without_restart 1000000000 m "job" 0) as (Ha & Hc & _ & _ & Hp).
  - exists (mkAgentProcess 1 false RUNNING 0).
    split; [vm_compute; reflexivity |]. split; reflexivity.
  - right. exists cfg. split; [by vm_compute | right; done].
  - split; [exact Ha |]. split; [exact Hc |]. unfold m'. rewrite Hp. reflexivity.
Defined.

(** *** Pending restarts *)

Lemma launch_due_pending now start l by_name by_id still :
  (launch_due now start l (by_name, by_id, still)).2
  = (still ++ List.filter (not_yet_due now) l)%list.
Proof.
  revert by_name by_id still. induction l as [|p l IH]; intros by_name by_id still; simpl.
  - by rewrite app_nil_r.
  - unfold not_yet_due at 1. case_decide as Hdue.
    + rewrite bool_decide_eq_false_2 by lia. destruct (start p); apply IH.
    + rewrite bool_decide_eq_true_2 by lia. rewrite IH. by rewrite <- app_assoc.
Qed.

(** Restarts that are not launched leave the registry entry of their agent
    alone. *)
Lemma launch_due_skips now start l by_name by_id still name :
  (∀ p, p ∈ l → agent_name p = name → now < scheduled_time p ∨ start p = None) →
  (launch_due now start l (by_name, by_id, still)).1.1 !! name = by_name !! name.
Proof.
  revert by_name by_id still. induction l as [|p l IH]; intros by_name by_id still Hall; [done |].
  assert (∀ p', p' ∈ l → agent_name p' = name → now < scheduled_time p' ∨ start p' = None)
    as Hrest by (intros p' Hin; apply Hall; by right).
  simpl. case_decide as Hdue; [| by apply IH].
  destruct (start p) as [agent|] eqn:Hstart; [| by apply IH].
  rewrite IH by done. apply lookup_insert_ne. intros Hname.
  destruct (Hall p) as [? | ?]; [by left | done | lia | congruence].
Qed.

Lemma launch_due_keeps now start l by_name by_id still name agent :
  (∀ p, p ∈ l → agent_name p = name →
     now < scheduled_time p ∨ start p = None ∨ start p = Some agent) →
  by_name !! name = Some agent →
  (launch_due now start l (by_name, by_id, still)).1.1 !! name = Some agent.
Proof.
  revert by_name by_id still. induction l as [|p l IH]; intros by_name by_id still Hall Hl; [done |].
  assert (∀ p', p' ∈ l → agent_name p' = name →
            now < scheduled_time p' ∨ start p' = None ∨ start p' = Some agent)
    as Hrest by (intros p' Hin; apply Hall; by right).
  simpl. case_decide as Hdue; [| by apply IH].
  destruct (start p) as [agent'|] eqn:Hstart; [| by apply IH].
  apply IH; [done |].
  destruct (decide (agent_name p = name)) as [Hname | Hname].
  - destruct (Hall p) as [? | [? | ?]]; [by left | done | lia | congruence |].
    rewrite <- Hname, lookup_insert_eq. congruence.
  - by rewrite lookup_insert_ne.
Qed.

Lemma launch_due_launches now start l by_name by_id still p agent :
  p ∈ l → scheduled_time p ≤ now → start p = Some agent →
  (∀ p', p' ∈ l → agent_name p' = agent_name p → p' = p) →
  (launch_due now start l (by_name, by_id, still)).1.1 !! agent_name p = Some agent.
Proof.
  revert by_name by_id still.
  induction l as [|q l IH]; intros by_name by_id still Hin Hdue Hstart Huniq.
  - by apply elem_of_nil in Hin.
  - destruct (decide (agent_name q = agent_name p)) as [Hname | Hne].
    + assert (q = p) as -> by (apply Huniq; [left | done]).
      simpl. rewrite decide_True by lia. rewrite Hstart.
      apply launch_due_keeps; [| apply lookup_insert_eq].
      intros p' Hin' Hname'. right. right.
      rewrite (Huniq p'); [done | by right | done].
    + apply elem_of_cons in Hin as [-> | Hin]; [done |].
      assert (∀ p', p' ∈ l → agent_name p' = agent_name p → p' = p) as Hrest.
      { intros p' Hin'. apply Huniq. by right. }
      simpl. case_decide; [| by apply IH]. destruct (start q); by apply IH.
Qed.

(** [process_pending_restarts] keeps exactly the restarts that are not yet
    due, in their order.  A restart that is due is launched: when it starts,
    the new process is registered under the agent's name (if no other restart
    is pending for that name); when its start fails the restart is dropped
    all the same and the agent stays unregistered.  An agent with no restart
    launched keeps its registry entry, and restart states, saved
    configurations and events are not touched. *)
Theorem pending_restarts_launch_when_due now start m :
  let m' := process_pending_restarts now start m in
  pending_restarts_ m' = List.filter (not_yet_due now) (pending_restarts_ m)
  ∧ (∀ p agent,
       p ∈ pending_restarts_ m → scheduled_time p ≤ now → start p = Some agent →
       (∀ p', p' ∈ pending_restarts_ m → agent_name p' = agent_name p → p' = p) →
       agents_by_name_ m' !! agent_name p = Some agent)
  ∧ (∀ name,
       (∀ p, p ∈ pending_restarts_ m → agent_name p = name →
          now < scheduled_time p ∨ start p = None) →
       agents_by_name_ m' !! name = agents_by_name_ m !! name)
  ∧ restart_states_ m' = restart_states_ m
  ∧ saved_configs_ m' = saved_configs_ m
  ∧ emitted m' = emitted m.
Proof.
  intros m'. subst m'. unfold process_pending_restarts.
  destruct (pending_restarts_ m) as [|p0 l] eqn:Hpending.
  - rewrite Hpending. split_and!; try done.
    intros p agent Hin. by apply elem_of_nil in Hin.
  - pose proof (launch_due_pending now start (p0 :: l) (agents_by_name_ m) (agents_by_id_ m) [])
      as Hkeep.
    pose proof (launch_due_launches now start (p0 :: l) (agents_by_name_ m) (agents_by_id_ m) [])
      as Hlaunch.
    pose proof (launch_due_skips now start (p0 :: l) (agents_by_name_ m) (agents_by_id_ m) [])
      as Hskip.
    destruct (launch_due now start (p0 :: l) (agents_by_name_ m, agents_by_id_ m, []))
      as [[by_name by_id] still_pending].
    simpl in *. split_and!; try done.
Qed.

Lemma pending_restarts_launch_when_due_witness :
  let start := λ _ : PendingRestart, Some (mkAgentProcess 2 true RUNNING 0) in
  agents_by_name_ (process_pending_restarts 3000000000 start sample_reaped_1) !! "worker"
    = Some (mkAgentProcess 2 true RUNNING 0)
  ∧ pending_restarts_ (process_pending_restarts 3000000000 start sample_reaped_1) = [].
Proof.
  intros start.
  destruct (pending_restarts_launch_when_due 3000000000 start sample_reaped_1)
    as (Hkeep & Hlaunch & _).
  split.
  - apply (Hlaunch (mkPendingRestart "worker" 2100000000 sample_config)).
    + vm_compute. left.
    + simpl. lia.
    + reflexivity.
    + intros p' Hin _. vm_compute in Hin. by apply list_elem_of_singleton in Hin.
  - rewrite Hkeep. by vm_compute.
Defined.

End supervisor_more.
(** ** State syscalls *)

Section state_syscalls.
Import StateStore EventBus StateSyscalls.

Implicit Types (ctx : Context) (msg : Message).

Lemma requested_ttl_total j : is_Some (requested_ttl j).
Proof.
  unfold requested_ttl. destruct (contains j "ttl" && is_number (at_key j "ttl")) eqn:Hc;
    [| by eexists].
  apply andb_true_iff in Hc as [_ Hnum].
  destruct (at_key j "ttl"); try discriminate Hnum; by eexists.
Qed.

Lemma value_string_object j key dflt s :
  value_string j key dflt = Some s → ∃ m, j = JObj m.
Proof. destruct j; try discriminate. by eexists. Qed.

(** A SYS_STORE request with a key succeeds and is announced on the event
    bus exactly when the entry ends up with the scope "global": then every
    subscriber of STATE_CHANGED is sent one event that names the key, the
    action "store" and the sender; a store with scope "agent" or "session"
    leaves the bus as it was. *)
Theorem handle_store_announces_global_only now now' msg ctx j key scope :
  payload msg = Some j → value_string j "key" "" = Some key → key ≠ "" →
  value_string j "scope" "global" = Some scope →
  let r := handle_store now now' msg ctx in
  r.1 = JObj (<[ "key" := JStr key ]> (<[ "success" := JBool true ]> ∅))
  ∧ (entry_scope scope ≠ "global" → event_bus r.2 = event_bus ctx)
  ∧ (entry_scope scope = "global" →
       ∀ s, queue_of s (event_bus r.2)
            = if decide (STATE_CHANGED ∈ subscriptions_of s (event_bus ctx))
              then (queue_of s (event_bus ctx)
                    ++ [mkKernelEvent STATE_CHANGED (store_event_data key (agent_id msg))
                          now' (agent_id msg)])%list
              else queue_of s (event_bus ctx)).
Proof.
  intros Hp Hkey Hne Hscope r. subst r. unfold handle_store.
  rewrite Hp, Hkey, decide_False, Hscope by done.
  destruct (requested_ttl_total j) as [ttl ->].
  destruct (value_string_object _ _ _ _ Hkey) as [m ->].
  assert (∃ val, value_json (JObj m) "value" JNull = Some val) as [val ->].
  { unfold value_json, value_with. destruct (m !! "value"); by eexists. }
  rewrite store_spec by done. simpl.
  case_decide as Hglobal; simpl.
  - split_and!; [done | done |]. intros _ s. apply emit_queue_of.
  - split_and!; done.
Qed.

Lemma handle_store_announces_global_only_witness :
  let bus := subscribe 9 [STATE_CHANGED] (mkEventBus ∅ ∅) in
  let ctx := mkContext ∅ bus in
  let shared := mkMessage 3 (Some (JObj (<[ "value" := JInt 1 ]> {[ "key" := JStr "k" ]}))) in
  let private := mkMessage 3 (Some (JObj (<[ "scope" := JStr "agent" ]>
                                           {[ "key" := JStr "k" ]}))) in
  queue_of 9 (event_bus (handle_store 10 11 shared ctx).2)
    = [mkKernelEvent STATE_CHANGED (store_event_data "k" 3) 11 3]
  ∧ event_bus (handle_store 10 11 private ctx).2 = bus.
Proof.
  intros bus ctx shared private. split.
  - destruct (handle_store_announces_global_only 10 11 shared ctx
                (JObj (<[ "value" := JInt 1 ]> {[ "key" := JStr "k" ]})) "k" "global")
      as (_ & _ & Hq); [reflexivity | reflexivity | done | reflexivity |].
    rewrite Hq by reflexivity. reflexivity.
  - destruct (handle_store_announces_global_only 10 11 private ctx
                (JObj (<[ "scope" := JStr "agent" ]> {[ "key" := JStr "k" ]})) "k" "agent")
      as (_ & Hbus & _); [reflexivity | reflexivity | done | reflexivity |].
    apply Hbus. by vm_compute.
Defined.

(** What a SYS_STORE request without TTL stores under a scope other than
    "agent", a SYS_FETCH request for the same key returns to every agent, at
    any time: the response holds the value and the scope of the entry. *)
Theorem handle_store_then_handle_fetch now now' now'' msg msg' ctx j j' key scope val :
  payload msg = Some j → value_string j "key" "" = Some key → key ≠ "" →
  value_string j "scope" "global" = Some scope → entry_scope scope ≠ "agent" →
  contains j "ttl" = false → value_json j "value" JNull = Some val →
  payload msg' = Some j' → value_string j' "key" "" = Some key →
  (handle_fetch now'' msg' (handle_store now now' msg ctx).2).1
    = JObj (<[ "scope" := JStr (entry_scope scope) ]>
           (<[ "value" := val ]>
           (<[ "exists" := JBool true ]>
           (<[ "success" := JBool true ]> ∅)))).
Proof.
  intros Hp Hkey Hne Hscope Hsc Httl Hval Hp' Hkey'.
  unfold handle_store. rewrite Hp, Hkey, decide_False, Hscope by done.
  unfold requested_ttl. rewrite Httl, Hval. simpl.
  rewrite store_spec by done. simpl.
  set (bus := if decide (entry_scope scope = "global") then _ else _).
  unfold handle_fetch. rewrite Hp', Hkey', decide_False by done. simpl.
  unfold store_key_of. rewrite decide_False by done.
  unfold fetch. rewrite decide_False by done.
  rewrite (fetch_loop_hit _ _ _ _ _ (mkStoredValue val epoch (agent_id msg) (entry_scope scope)));
    [done | apply lookup_insert_eq | done | by apply can_access_shared].
Qed.

Lemma handle_store_then_handle_fetch_witness :
  let store_request :=
    mkMessage 3 (Some (JObj (<[ "value" := JStr "v" ]> {[ "key" := JStr "k" ]}))) in
  let fetch_request := mkMessage 4 (Some (JObj {[ "key" := JStr "k" ]})) in
  (handle_fetch 30 fetch_request
     (handle_store 10 11 store_request (mkContext ∅ (mkEventBus ∅ ∅))).2).1
    = JObj (<[ "scope" := JStr "global" ]>
           (<[ "value" := JStr "v" ]>
           (<[ "exists" := JBool true ]>
           (<[ "success" := JBool true ]> ∅)))).
Proof.
  intros store_request fetch_request.
  apply (handle_store_then_handle_fetch 10 11 30 store_request fetch_request
           (mkContext ∅ (mkEventBus ∅ ∅))
           (JObj (<[ "value" := JStr "v" ]> {[ "key" := JStr "k" ]}))
           (JObj {[ "key" := JStr "k" ]}) "k" "global" (JStr "v"));
    try reflexivity; try done.
Defined.

End state_syscalls.

(** ** File syscalls inside a world *)

Section file_syscalls.
Import VirtualFs Worlds EventBus FileSyscalls.

Lemma should_fail_disabled events applies draws c stats :
  enabled_ c = false → should_fail_operation events applies draws c stats = (false, stats).
Proof. intros Hoff. unfold should_fail_operation. by rewrite Hoff. Qed.

(** In a world whose chaos engine is disabled, a SYS_WRITE request that
    replaces the content of a writable path succeeds, and the SYS_READ
    request for the same path that follows returns the content written and
    its size; both are marked as served by the virtual filesystem of the
    world, the world counts two syscalls, and no failure is counted. *)
Theorem virtual_write_then_read now1 now2 now3 draws draws' msg msg' world stats
    j j' path content mode :
  enabled_ (chaos_ world) = false →
  payload msg = Some j → value_string j "path" "" = Some path →
  value_string j "content" "" = Some content →
  value_string j "mode" "write" = Some mode → mode ≠ "append" →
  is_writable path (vfs_ world) = true →
  payload msg' = Some j' → value_string j' "path" "" = Some path →
  let written := handle_write_virtual now1 now2 draws msg world stats in
  let read_back := handle_read_virtual now3 draws' msg' written.1.2 written.2 in
  written.1.1
    = JObj (<[ "virtual" := JBool true ]>
           (<[ "world" := JStr (id_ world) ]>
           (<[ "bytes_written" := JInt (Z.of_nat (String.length content)) ]>
           (<[ "success" := JBool true ]> ∅))))
  ∧ read_back.1.1
    = JObj (<[ "virtual" := JBool true ]>
           (<[ "world" := JStr (id_ world) ]>
           (<[ "size" := JInt (Z.of_nat (String.length content)) ]>
           (<[ "content" := JStr content ]>
           (<[ "success" := JBool true ]> ∅)))))
  ∧ read_back.2 = stats
  ∧ syscall_count (metrics_ read_back.1.2)
    = add64 (add64 (syscall_count (metrics_ world)) 1) 1.
Proof.
  intros Hoff Hp Hpath Hcontent Hmode Hwrite Hw Hp' Hpath' written read_back.
  subst read_back written.
  unfold handle_write_virtual. rewrite Hp, Hpath, Hcontent, Hmode.
  unfold should_fail_write. rewrite should_fail_disabled by done.
  rewrite (bool_decide_eq_false_2 (mode = "append")) by done.
  pose proof (is_writable_not_denied path (vfs_ world) Hw) as Hok.
  change (vfs_ (record_syscall now1 world)) with (vfs_ world).
  rewrite (write_allowed_writes _ _ _ _ _ Hok). cbn [negb fst snd].
  unfold handle_read_virtual. rewrite Hp', Hpath'.
  unfold should_fail_read. rewrite should_fail_disabled by done.
  unfold read. cbn [vfs_ with_vfs record_syscall files_].
  rewrite lookup_insert_eq. simpl.
  unfold written_file. by destruct (files_ (vfs_ world) !! normalize_path path).
Qed.

Lemma virtual_write_then_read_witness :
  let world := new_world 0 "lab-0001" in
  let stats := mkChaosStats 0 0 0 in
  let request := mkMessage 7 (Some (JObj (<[ "content" := JStr "42" ]>
                                          {[ "path" := JStr "/out/result.txt" ]}))) in
  let lookup := mkMessage 7 (Some (JObj {[ "path" := JStr "/out/result.txt" ]})) in
  let written := handle_write_virtual 10 11 (λ _, 0%Q) request world stats in
  (handle_read_virtual 12 (λ _, 0%Q) lookup written.1.2 written.2).1.1
    = JObj (<[ "virtual" := JBool true ]>
           (<[ "world" := JStr "lab-0001" ]>
           (<[ "size" := JInt 2 ]>
           (<[ "content" := JStr "42" ]>
           (<[ "success" := JBool true ]> ∅))))).
Proof.
  intros world stats request lookup written.
  destruct (virtual_write_then_read 10 11 12 (λ _, 0%Q) (λ _, 0%Q) request lookup world stats
              (JObj (<[ "content" := JStr "42" ]> {[ "path" := JStr "/out/result.txt" ]}))
              (JObj {[ "path" := JStr "/out/result.txt" ]})
              "/out/result.txt" "42" "write") as (_ & Hread & _);
    [reflexivity | reflexivity | reflexivity | reflexivity | reflexivity | done
    | reflexivity | reflexivity | reflexivity |].
  exact Hread.
Defined.

(** A request of an agent that is in a world is served by the virtual
    filesystem of that world, and does not reach the real one, whenever the
    world's filesystem was configured with a file or a pattern and without
    intercept patterns, and the requested path holds no line terminator. *)
Theorem configured_world_serves_file_requests now config vfs0 msg e w world j path :
  configure now config vfs0 = Some (vfs_ world) →
  contains config "intercept_patterns" && is_array (at_key config "intercept_patterns") = false →
  files_ (vfs_ world) ≠ ∅ ∨ readonly_patterns_ (vfs_ world) ≠ []
    ∨ writable_patterns_ (vfs_ world) ≠ [] →
  get_agent_world (agent_id msg) e = Some w → get_world w e = Some world →
  payload msg = Some j → value_string j "path" "" = Some path → one_line path = true →
  virtual_target msg e = Some world.
Proof.
  intros Hcfg Hno Hsome Hagent Hworld Hp Hpath Hline.
  unfold virtual_target, is_agent_in_world.
  unfold get_agent_world in Hagent. rewrite bool_decide_eq_true_2 by (by eexists).
  unfold get_agent_world. rewrite Hagent, Hworld, Hp, Hpath.
  apply configure_files in Hcfg as [_ Hint]. specialize (Hint Hno Hsome).
  assert (is_enabled (vfs_ world) = true) as ->.
  { unfold is_enabled. rewrite Hint.
    rewrite (bool_decide_eq_false_2 (_ ++ ["/**"] = [])%list); [by rewrite orb_true_r |].
    by destruct (intercept_patterns_ vfs0). }
  assert (should_intercept path (vfs_ world) = true) as ->; [| done].
  unfold should_intercept. destruct (files_ (vfs_ world) !! normalize_path path); [done |].
  rewrite Hint. unfold matches_any. rewrite existsb_app. simpl.
  destruct (double_star_on_normalized path) as [_ Hall].
  rewrite (Hall Hline). by rewrite orb_true_r.
Qed.

Lemma configured_world_serves_file_requests_witness :
  let config := JObj {[ "writable_patterns" := JArr [JStr "/tmp/*"] ]} in
  ∃ vfs, configure 7 config empty_vfs = Some vfs
    ∧ let world := mkWorld "w" "w" "" JNull vfs empty_network empty_chaos {[ 7%N ]}
                     (mkWorldMetrics 1 0 0 0) in
      let e := mkWorldEngine {[ "w" := world ]} {[ 7%N := "w" ]} 2 in
      virtual_target (mkMessage 7 (Some (JObj {[ "path" := JStr "/etc/passwd" ]}))) e
        = Some world.
Proof.
  intros config.
  destruct (configure 7 config empty_vfs) as [vfs|] eqn:Hcfg; [| by vm_compute in Hcfg].
  exists vfs. split; [done |]. intros world e.
  apply (configured_world_serves_file_requests 7 config empty_vfs _ e "w" world
           (JObj {[ "path" := JStr "/etc/passwd" ]}) "/etc/passwd");
    [exact Hcfg | reflexivity | | reflexivity | reflexivity | reflexivity | reflexivity
    | reflexivity].
  right. right. vm_compute in Hcfg. injection Hcfg as <-. done.
Defined.

End file_syscalls.
